(** * MHTML to single-file HTML: the offline converter of [convert.js]

    A shallow embedding of the map-based converter (the last program of
    [src/convert.js]: [parseMHTML], [buildPartMap], the CSS and HTML
    rewriters and the main loop) and the properties the specification
    states about it.

    JavaScript strings are sequences of UTF-16 code units, modelled as
    [list N]; a [Buffer] is a [list byte]; [null]/[undefined] is [None];
    the [Map] built by [buildPartMap] and the header objects are [gmap]s
    keyed by strings. Library code that is not part of the repository
    (WHATWG [URL], [mime-types], [iconv-lite], [css-tree], [cheerio] and the
    platform decoders) is taken as the fields of a [Platform]. *)

From Stdlib Require Import Strings.String Strings.Ascii Strings.Byte.
From Stdlib Require Import NArith Lia Bool.
From stdpp Require Import gmap list option.

Local Open Scope N_scope.
Set Warnings "-register-all".

(** ** JavaScript strings *)

Abbreviation jsstr := (list N).

(** A literal of the source, as code units. *)
Definition js (s : string) : jsstr :=
  map N_of_ascii (list_ascii_of_string s).
Arguments js s%_string.

(** [!!s] for a string: the empty string is the only falsy one. *)
Definition truthy (s : jsstr) : bool :=
  match s with [] => false | _ :: _ => true end.

(** [!!v] for a value that is a string, [null] or [undefined]. *)
Definition truthy_opt (o : option jsstr) : bool :=
  match o with Some s => truthy s | None => false end.

(** [v || e] with [e] the empty string. *)
Definition or_empty (o : option jsstr) : jsstr :=
  match o with Some s => s | None => [] end.

(** ECMAScript LineTerminator: what [.] does not match. *)
Definition isLineTerminator (c : N) : bool :=
  (c =? 10) || (c =? 13) || (c =? 0x2028) || (c =? 0x2029).

(** ECMAScript [\s], also the set [String.prototype.trim] strips:
    WhiteSpace and LineTerminator. *)
Definition isSpace (c : N) : bool :=
  (c =? 9) || (c =? 10) || (c =? 11) || (c =? 12) || (c =? 13) || (c =? 32)
  || (c =? 160) || (c =? 0x1680) || ((0x2000 <=? c) && (c <=? 0x200A))
  || (c =? 0x2028) || (c =? 0x2029) || (c =? 0x202F) || (c =? 0x205F)
  || (c =? 0x3000) || (c =? 0xFEFF).

Fixpoint drop_while (p : N -> bool) (s : jsstr) : jsstr :=
  match s with
  | [] => []
  | c :: s' => if p c then drop_while p s' else s
  end.

Fixpoint take_while (p : N -> bool) (s : jsstr) : jsstr :=
  match s with
  | [] => []
  | c :: s' => if p c then c :: take_while p s' else []
  end.

(** [s.trim()]. *)
Definition trim (s : jsstr) : jsstr :=
  rev (drop_while isSpace (rev (drop_while isSpace s))).

(** Case folding of the [i] flag on the ASCII letters of the patterns: without
    the [u] flag a code unit above 127 never folds onto an ASCII letter. *)
Definition ascii_lower (c : N) : N :=
  if (65 <=? c) && (c <=? 90) then c + 32 else c.

Definition ci_eqb (a b : N) : bool := ascii_lower a =? ascii_lower b.

(** [s.toLowerCase()] on the code units below 256; the strings it is applied
    to come from the binary (latin1) reading of the container, where every
    unit is a byte. *)
Definition lower_unit (c : N) : N :=
  if (65 <=? c) && (c <=? 90) then c + 32
  else if (192 <=? c) && (c <=? 222) && negb (c =? 215) then c + 32
  else c.

Definition toLowerCase (s : jsstr) : jsstr := map lower_unit s.

(** [s.startsWith(p)], returning what follows the prefix. *)
Fixpoint strip_prefix (p s : jsstr) : option jsstr :=
  match p, s with
  | [], _ => Some s
  | a :: p', c :: s' => if a =? c then strip_prefix p' s' else None
  | _ :: _, [] => None
  end.

Definition startsWith (s p : jsstr) : bool :=
  match strip_prefix p s with Some _ => true | None => false end.

(** A literal of a pattern under the [i] flag, anchored at the start. *)
Fixpoint strip_prefix_ci (p s : jsstr) : option jsstr :=
  match p, s with
  | [], _ => Some s
  | a :: p', c :: s' => if ci_eqb a c then strip_prefix_ci p' s' else None
  | _ :: _, [] => None
  end.

Definition startsWith_ci (s p : jsstr) : bool :=
  match strip_prefix_ci p s with Some _ => true | None => false end.

(** [s.indexOf(p)]: the text before the first occurrence and the text after
    it; [None] for the JavaScript result [-1]. *)
Fixpoint cut_at (p s : jsstr) : option (jsstr * jsstr) :=
  match strip_prefix p s with
  | Some r => Some ([], r)
  | None =>
      match s with
      | [] => None
      | c :: s' =>
          match cut_at p s' with
          | Some (b, r) => Some (c :: b, r)
          | None => None
          end
      end
  end.

(** The replace that strips quotes off a reference (a single or double quote
    at the start, one at the end, both removed): one quote off the front, then
    one quote off the end of what is left. *)
Definition isQuote (c : N) : bool := (c =? 34) || (c =? 39).

Definition strip_last_quote (s : jsstr) : jsstr :=
  match rev s with
  | c :: r => if isQuote c then rev r else s
  | [] => s
  end.

Definition strip_quotes (s : jsstr) : jsstr :=
  match s with
  | c :: s' => if isQuote c then strip_last_quote s' else strip_last_quote s
  | [] => []
  end.

(** ** Helpers of the source (lines 1032-1065) *)

(** [normKey] (lines 1046-1048): trim, delete every CR and LF, turn
    backslashes into slashes. *)
Definition not_crlf (c : N) : bool := negb ((c =? 13) || (c =? 10)).

Definition to_slash (c : N) : N := if c =? 92 then 47 else c.

Definition normKey (u : jsstr) : jsstr :=
  map to_slash (List.filter not_crlf (trim u)).

(** The head of [/^(https?)!/i] and of [/^(https?|http)!/i]: the scheme in
    lower case and what follows the [!]. *)
Definition weird_scheme (u : jsstr) : option (jsstr * jsstr) :=
  match strip_prefix_ci (js "http") u with
  | Some (c :: r) =>
      if ci_eqb c 115
      then match r with
           | 33 :: r' => Some (js "https", r')
           | _ => None
           end
      else if c =? 33 then Some (js "http", r) else None
  | _ => None
  end.

Definition isWeird (u : jsstr) : bool :=
  match weird_scheme u with Some _ => true | None => false end.

(** [normalizeWeirdUrl] (lines 1032-1040): scheme, [!], host, then optionally
    [!] and a rest up to the end of the string. The host is the longest run
    without [!]; a rest is there only behind a [!] and, being matched by dots,
    must reach the end of the string without a line terminator. *)
Definition normalizeWeirdUrl (u : jsstr) : jsstr :=
  match weird_scheme u with
  | None => u
  | Some (scheme, r) =>
      let host := take_while (fun c => negb (c =? 33)) r in
      let after := drop_while (fun c => negb (c =? 33)) r in
      match host, after with
      | [], _ => u
      | _ :: _, [] => scheme ++ js "://" ++ host ++ js "/"
      | _ :: _, _ :: rest =>
          if forallb (fun c => negb (isLineTerminator c)) rest
          then scheme ++ js "://" ++ host ++ js "/"
                 ++ map (fun c => if c =? 33 then 47 else c) rest
          else u
      end
  end.

(** [extractCidFromWeird]: [/^cid!([^@]+)@/i]. *)
Definition extractCidFromWeird (u : jsstr) : option jsstr :=
  match strip_prefix_ci (js "cid!") u with
  | None => None
  | Some r =>
      match take_while (fun c => negb (c =? 64)) r,
            drop_while (fun c => negb (c =? 64)) r with
      | (_ :: _) as tok, _ :: _ => Some tok
      | _, _ => None
      end
  end.

(** Base64 of a buffer: [buf.toString] with the base64 encoding. *)
Definition b64_alphabet : jsstr :=
  js "ABCDEFGHIJKLMNOPQRSTUVWXYZabcdefghijklmnopqrstuvwxyz0123456789+/".

Definition b64_char (i : N) : N := nth (N.to_nat i) b64_alphabet 61.

Fixpoint base64_encode (bs : list byte) : jsstr :=
  match bs with
  | [] => []
  | [a] =>
      let x := Byte.to_N a in
      [b64_char (x / 4); b64_char ((x mod 4) * 16); 61; 61]
  | [a; b] =>
      let x := Byte.to_N a in
      let y := Byte.to_N b in
      [b64_char (x / 4); b64_char ((x mod 4) * 16 + y / 16);
       b64_char ((y mod 16) * 4); 61]
  | a :: b :: c :: rest =>
      let x := Byte.to_N a in
      let y := Byte.to_N b in
      let z := Byte.to_N c in
      b64_char (x / 4) :: b64_char ((x mod 4) * 16 + y / 16)
        :: b64_char ((y mod 16) * 4 + z / 64) :: b64_char (z mod 64)
        :: base64_encode rest
  end.

(** [toDataURI]. *)
Definition toDataURI (buffer : list byte) (contentType : jsstr) : jsstr :=
  let ct := if truthy contentType then contentType
            else js "application/octet-stream" in
  js "data:" ++ ct ++ js ";base64," ++ base64_encode buffer.

(** ** Parts and index entries *)

(** What [parseMHTML] pushes for one MIME body. *)
Record Part := mkPart {
  headers : gmap jsstr jsstr;
  contentType : jsstr;
  charset : jsstr;
  contentLocation : option jsstr;
  contentId : option jsstr;
  buf : list byte;
  text : option jsstr
}.

(** A value of the index: [{ ...p, dataURI }]. *)
Record Entry := mkEntry {
  part : Part;
  dataURI : jsstr
}.

(** ** The platform *)

(** A stylesheet as [csstree.walk] goes through it: the [Url] nodes, whose
    value the callback may replace, and everything else. *)
Inductive css_node :=
  | Url (value : jsstr)
  | OtherNode (source : jsstr).

(** A document as cheerio holds it: text, and elements with their attributes
    in order and their children. *)
Inductive node :=
  | TextNode (data : jsstr)
  | Element (tag : jsstr) (attrs : list (jsstr * jsstr)) (children : list node).

(** Code the program calls and the repository does not contain.
    - [url_resolve href base]: [new URL(href, base).toString()], [None] when
      the constructor throws;
    - [mime_lookup path]: [mimeLookup(path)] of mime-types, [None] for [false];
    - [base64_decode s]: [Buffer.from] with the base64 encoding;
    - [utf8_decode b]: [b.toString] with the utf-8 encoding;
    - [iconv_exists], [iconv_decode]: iconv-lite, [None] when [decode] throws;
    - [css_parse], [css_generate]: [csstree.parse] and [csstree.generate];
    - [html_parse], [html_serialize]: [cheerio.load] and [$.html];
    - [html_fragment]: the nodes cheerio makes of a markup string handed to
      [replaceWith];
    - [inner_html], [set_inner_html]: the getter and the setter [.html] of an
      element, the setter given the tag of the element. *)
Class Platform := {
  url_resolve : jsstr -> jsstr -> option jsstr;
  mime_lookup : jsstr -> option jsstr;
  base64_decode : jsstr -> list byte;
  utf8_decode : list byte -> jsstr;
  iconv_exists : jsstr -> bool;
  iconv_decode : list byte -> jsstr -> option jsstr;
  css_parse : jsstr -> list css_node;
  css_generate : list css_node -> jsstr;
  html_parse : jsstr -> list node;
  html_serialize : list node -> jsstr;
  html_fragment : jsstr -> list node;
  inner_html : list node -> jsstr;
  set_inner_html : jsstr -> jsstr -> list node
}.

Section Index.
Context {P : Platform}.

(** [resolveAgainst] (lines 1056-1065). Only [new URL] can throw inside the
    [try]; the [catch] then falls through to [return href]. *)
Definition resolveAgainst (base : option jsstr) (href : jsstr) : jsstr :=
  if negb (truthy href) then href
  else if startsWith_ci href (js "data:") || startsWith_ci href (js "cid:")
          || startsWith_ci href (js "blob:") || startsWith_ci href (js "about:")
          || startsWith_ci href (js "file:") then href
  else if isWeird href then normalizeWeirdUrl href
  else if startsWith_ci href (js "http://") || startsWith_ci href (js "https://")
  then href
  else match base with
       | Some b =>
           if truthy b
           then match url_resolve href b with Some a => a | None => href end
           else href
       | None => href
       end.

(** [mimeLookup(p.contentLocation)]: [false] for [null] and for the empty
    path. *)
Definition mimeLookup (loc : option jsstr) : option jsstr :=
  match loc with
  | Some l => if truthy l then mime_lookup l else None
  | None => None
  end.

(** The value [buildPartMap] registers for a part (lines 1151-1152), with the
    content type the end of the iteration leaves in it (lines 1177-1180): the
    object is shared by all the keys of the part, and nothing reads the map
    between the two. *)
Definition entry_of (p : Part) : Entry :=
  let guessed := mimeLookup (contentLocation p) in
  let uri_type :=
    if truthy (contentType p) then contentType p
    else if truthy_opt guessed then or_empty guessed
    else js "application/octet-stream" in
  let final_type :=
    if truthy_opt (contentLocation p) && negb (truthy (contentType p))
       && truthy_opt guessed
    then or_empty guessed else contentType p in
  {| part := {| headers := headers p; contentType := final_type;
                charset := charset p; contentLocation := contentLocation p;
                contentId := contentId p; buf := buf p; text := text p |};
     dataURI := toDataURI (buf p) uri_type |}.

(** [addKey] (lines 1145-1148): a falsy key is skipped, a key that is there
    stays. *)
Definition addKey (key : jsstr) (value : Entry) (byKey : gmap jsstr Entry)
  : gmap jsstr Entry :=
  if negb (truthy key) then byKey
  else match byKey !! key with
       | Some _ => byKey
       | None => <[key := value]> byKey
       end.

(** One iteration of the loop of [buildPartMap] (lines 1150-1181). *)
Definition register (docBase : option jsstr) (byKey : gmap jsstr Entry)
  (p : Part) : gmap jsstr Entry :=
  let value := entry_of p in
  let byKey := addKey (normKey (or_empty (contentLocation p))) value byKey in
  let byKey :=
    if truthy_opt docBase && truthy_opt (contentLocation p)
    then match url_resolve (or_empty (contentLocation p)) (or_empty docBase) with
         | Some abs => addKey (normKey abs) value byKey
         | None => byKey
         end
    else byKey in
  let byKey :=
    if truthy_opt (contentId p)
    then addKey (normKey (or_empty (contentId p))) value
           (addKey (js "cid:" ++ normKey (or_empty (contentId p))) value byKey)
    else byKey in
  if truthy_opt (contentId p)
  then addKey (js "cid!" ++ normKey (or_empty (contentId p)) ++ js "@mhtml.blink")
         value byKey
  else byKey.

(** [buildPartMap] (lines 1142-1184). *)
Definition buildPartMap (parts : list Part) (docBase : option jsstr)
  : gmap jsstr Entry :=
  foldl (register docBase) ∅ parts.

(** The keys one part hands to [addKey], in the order of the calls. *)
Definition part_keys (docBase : option jsstr) (p : Part) : list jsstr :=
  [normKey (or_empty (contentLocation p))]
  ++ (if truthy_opt docBase && truthy_opt (contentLocation p)
      then match url_resolve (or_empty (contentLocation p)) (or_empty docBase) with
           | Some abs => [normKey abs]
           | None => []
           end
      else [])
  ++ (if truthy_opt (contentId p)
      then [js "cid:" ++ normKey (or_empty (contentId p));
            normKey (or_empty (contentId p));
            js "cid!" ++ normKey (or_empty (contentId p)) ++ js "@mhtml.blink"]
      else []).

(** Part [p] registers itself under [k]: [k] is one of its keys and [addKey]
    does not skip it. *)
Definition registers (docBase : option jsstr) (k : jsstr) (p : Part) : bool :=
  truthy k && bool_decide (k ∈ part_keys docBase p).

(** The three keys of a content id. *)
Definition cid_keys (id : jsstr) : list jsstr :=
  [js "cid!" ++ normKey id ++ js "@mhtml.blink"; js "cid:" ++ normKey id;
   normKey id].

End Index.

(** ** Parsing the container (lines 1002-1030 and 1068-1139) *)

(** What the program throws. *)
Inductive error :=
  | NoHeaderSection   (* Invalid MHTML: no header section *)
  | NoBoundary        (* Invalid MHTML: no boundary *)
  | NoHtmlPart.       (* No text/html part found *)

Inductive outcome (A : Type) :=
  | Ok (a : A)
  | Throw (e : error).
Arguments Ok {A} a.
Arguments Throw {A} e.

Definition CRLF2 : jsstr := [13; 10; 13; 10].

(** The binary reading of a buffer, and the binary encoding of a string (each
    code unit cut to its low byte). *)
Definition binary_string (b : list byte) : jsstr := map Byte.to_N b.

Definition byte_of_unit (c : N) : byte :=
  match Byte.of_N (c mod 256) with Some b => b | None => x00 end.

Definition binary_buffer (s : jsstr) : list byte := map byte_of_unit s.

(** [s.includes(p)]. *)
Definition includes (s p : jsstr) : bool :=
  match cut_at p s with Some _ => true | None => false end.

(** [s.split(d)] for a separator string that is not empty: [skip] counts the
    units of a separator still to pass over, [cur] holds the current piece
    backwards. *)
Fixpoint split_go (d : jsstr) (skip : nat) (cur : jsstr) (s : jsstr)
  : list jsstr :=
  match s with
  | [] => [rev cur]
  | c :: s' =>
      match skip with
      | S k => split_go d k cur s'
      | O =>
          if startsWith s d
          then rev cur :: split_go d (length d - 1)%nat [] s'
          else split_go d O (c :: cur) s'
      end
  end.

Definition split (s d : jsstr) : list jsstr := split_go d O [] s.

(** The split of a header block into lines: every LF, with the CR before it
    when there is one, separates; a CR alone stays in its line. *)
Fixpoint split_lines_go (cur : jsstr) (s : jsstr) : list jsstr :=
  match s with
  | [] => [rev cur]
  | c :: s' =>
      if c =? 10 then rev cur :: split_lines_go [] s'
      else if c =? 13
      then match s' with
           | d :: s'' =>
               if d =? 10 then split_lines_go cur s'
               else split_lines_go (c :: cur) s'
           | [] => split_lines_go (c :: cur) s'
           end
      else split_lines_go (c :: cur) s'
  end.

Definition split_lines (s : jsstr) : list jsstr := split_lines_go [] s.

(** [decodeQP] (lines 1002-1007): soft line breaks go first, then every [=]
    followed by two hexadecimal digits becomes the unit with that code. *)
Fixpoint qp_soft (s : jsstr) : jsstr :=
  match s with
  | [] => []
  | c :: r =>
      if c =? 61
      then match r with
           | d :: r' =>
               if d =? 10 then qp_soft r'
               else if d =? 13
               then match r' with
                    | e :: r'' => if e =? 10 then qp_soft r'' else c :: qp_soft r
                    | [] => c :: qp_soft r
                    end
               else c :: qp_soft r
           | [] => [c]
           end
      else c :: qp_soft r
  end.

Definition hex_val (c : N) : option N :=
  if (48 <=? c) && (c <=? 57) then Some (c - 48)
  else if (65 <=? c) && (c <=? 70) then Some (c - 55)
  else if (97 <=? c) && (c <=? 102) then Some (c - 87)
  else None.

Fixpoint qp_hex (s : jsstr) : jsstr :=
  match s with
  | [] => []
  | c :: r =>
      if c =? 61
      then match r with
           | a :: b :: r'' =>
               match hex_val a, hex_val b with
               | Some x, Some y => (16 * x + y) :: qp_hex r''
               | _, _ => c :: qp_hex r
               end
           | _ => c :: qp_hex r
           end
      else c :: qp_hex r
  end.

Definition decodeQP (s : jsstr) : jsstr := qp_hex (qp_soft s).

(** The header pattern of [parseHeaders] (line 1019): a name without colon
    and not empty, the colon, white space, and a value that reaches the end of
    the line; the value is matched by dots, so a line terminator in it makes
    the line no header. *)
Definition header_line (line : jsstr) : option (jsstr * jsstr) :=
  match take_while (fun c => negb (c =? 58)) line,
        drop_while (fun c => negb (c =? 58)) line with
  | (_ :: _) as name, _ :: rest =>
      let value := drop_while isSpace rest in
      if forallb (fun c => negb (isLineTerminator c)) value
      then Some (name, value) else None
  | _, _ => None
  end.

(** Assignment to a property of the header object: the name [__proto__] sets
    no own property when the value is a string. *)
Definition set_header (name value : jsstr) (out : gmap jsstr jsstr)
  : gmap jsstr jsstr :=
  if bool_decide (name = js "__proto__") then out else <[name := value]> out.

(** The loop of [parseHeaders] (lines 1014-1023); [cur] is the name of the
    last header seen. *)
Fixpoint parseHeaders_go (lines : list jsstr) (cur : option jsstr)
  (out : gmap jsstr jsstr) : gmap jsstr jsstr :=
  match lines with
  | [] => out
  | line :: rest =>
      let continuation :=
        match line with c :: _ => isSpace c | [] => false end in
      match continuation, cur with
      | true, Some name =>
          parseHeaders_go rest cur
            (alter (fun v => v ++ js " " ++ trim line) name out)
      | _, _ =>
          match header_line line with
          | None => parseHeaders_go rest cur out
          | Some (name, value) =>
              let name := toLowerCase name in
              parseHeaders_go rest (Some name) (set_header name value out)
          end
      end
  end.

Definition parseHeaders (block : jsstr) : gmap jsstr jsstr :=
  parseHeaders_go (split_lines block) None ∅.

(** [headers[name] || d]. *)
Definition header_or (h : gmap jsstr jsstr) (name d : jsstr) : jsstr :=
  match h !! name with
  | Some v => if truthy v then v else d
  | None => d
  end.

(** [getCharset] (lines 1027-1030), the pattern anchored at the start of [s]:
    the word, white space, [=], white space, an optional double quote, a run
    free of double quote and semicolon, and the same quote again. When the
    run cannot start right after the white space, the white space gives back
    its last unit, which then is the whole run. *)
Definition charset_run (c : N) : bool := negb (c =? 34) && negb (c =? 59).

Definition charset_at (s : jsstr) : option jsstr :=
  match strip_prefix_ci (js "charset") s with
  | None => None
  | Some r0 =>
      match drop_while isSpace r0 with
      | e :: r1 =>
          if e =? 61
          then
            let w := take_while isSpace r1 in
            let rest := drop_while isSpace r1 in
            let direct :=
              match rest with
              | q :: r2 =>
                  if q =? 34
                  then match take_while charset_run r2,
                             drop_while charset_run r2 with
                       | (_ :: _) as run, q' :: _ =>
                           if q' =? 34 then Some run else None
                       | _, _ => None
                       end
                  else match take_while charset_run rest with
                       | (_ :: _) as run => Some run
                       | [] => None
                       end
              | [] => None
              end in
            match direct with
            | Some run => Some run
            | None =>
                match rev w with
                | l :: _ => Some [l]
                | [] => None
                end
            end
          else None
      | [] => None
      end
  end.

(** The first match of an anchored pattern [at] in [s], as [exec] finds it. *)
Fixpoint first_match {A} (at_ : jsstr -> option A) (s : jsstr) : option A :=
  match at_ s with
  | Some m => Some m
  | None =>
      match s with
      | [] => None
      | _ :: s' => first_match at_ s'
      end
  end.

Definition getCharset (ct : jsstr) : jsstr :=
  match first_match charset_at ct with
  | Some run => toLowerCase (trim run)
  | None => js "utf-8"
  end.

(** The boundary pattern (line 1076), anchored: the word and [=], an optional
    double quote, then the longest run without double quote, not empty. *)
Definition boundary_at (s : jsstr) : option jsstr :=
  match strip_prefix_ci (js "boundary=") s with
  | None => None
  | Some r =>
      let r' := match r with
                | q :: t => if q =? 34 then t else r
                | [] => r
                end in
      match take_while (fun c => negb (c =? 34)) r' with
      | (_ :: _) as run => Some run
      | [] => None
      end
  end.

(** Line 1086: one leading line break goes. *)
Definition strip_leading_newline (raw : jsstr) : jsstr :=
  match raw with
  | c :: r =>
      if c =? 10 then r
      else if c =? 13
      then match r with
           | d :: r' => if d =? 10 then r' else raw
           | [] => raw
           end
      else raw
  | [] => raw
  end.

(** Line 1087: two dashes followed by white space up to the end go, with
    that white space. *)
Definition strip_end_marker (raw : jsstr) : jsstr :=
  match drop_while isSpace (rev raw) with
  | a :: b :: r => if (a =? 45) && (b =? 45) then rev r else raw
  | _ => raw
  end.

(** Line 1125: an opening angle bracket at the start and a closing one at the
    end go. *)
Definition strip_last_gt (s : jsstr) : jsstr :=
  match rev s with
  | c :: r => if c =? 62 then rev r else s
  | [] => s
  end.

Definition strip_angles (s : jsstr) : jsstr :=
  match s with
  | c :: s' => if c =? 60 then strip_last_gt s' else strip_last_gt s
  | [] => []
  end.

Section Parse.
Context {P : Platform}.

(** Lines 1100-1109: the bytes of a body under its transfer encoding. No
    branch throws. *)
Definition decode_body (enc bodyBin : jsstr) : list byte :=
  if includes enc (js "base64")
  then base64_decode (List.filter (fun c => negb (isSpace c)) bodyBin)
  else if includes enc (js "quoted-printable")
  then binary_buffer (decodeQP bodyBin)
  else binary_buffer bodyBin.

(** Lines 1112-1121: the text of a text part. *)
Definition decode_text (ct charset : jsstr) (b : list byte) : option jsstr :=
  if startsWith_ci ct (js "text/")
  then Some
    (if truthy charset && negb (bool_decide (charset = js "utf-8"))
        && iconv_exists charset
     then match iconv_decode b charset with
          | Some t => t
          | None => utf8_decode b
          end
     else utf8_decode b)
  else None.

(** The body of the loop over the raw parts (lines 1084-1136); [None] is
    [continue]. *)
Definition parse_part (raw : jsstr) : option Part :=
  let raw := strip_end_marker (strip_leading_newline raw) in
  if negb (truthy (trim raw)) then None
  else match cut_at CRLF2 raw with
  | None => None
  | Some (headerBlock, bodyBin) =>
      let ph := parseHeaders headerBlock in
      let enc := toLowerCase (header_or ph (js "content-transfer-encoding") []) in
      let ct := header_or ph (js "content-type") (js "application/octet-stream") in
      let charset := getCharset ct in
      let b := decode_body enc bodyBin in
      let textDecoded := decode_text ct charset b in
      let loc := ph !! js "content-location" in
      let cid := match ph !! js "content-id" with
                 | Some c => if truthy c then Some (strip_angles c) else Some c
                 | None => None
                 end in
      Some {| headers := ph;
              contentType :=
                toLowerCase (trim (take_while (fun c => negb (c =? 59)) ct));
              charset := charset;
              contentLocation :=
                if truthy_opt loc then Some (normKey (or_empty loc)) else None;
              contentId :=
                if truthy_opt cid then Some (normKey (or_empty cid)) else None;
              buf := b;
              text := textDecoded |}
  end.

(** [parseMHTML] (lines 1068-1139). *)
Definition parseMHTML (buffer : list byte) : outcome (list Part) :=
  let text := binary_string buffer in
  match cut_at CRLF2 text with
  | None => Throw NoHeaderSection
  | Some (headText, _) =>
      let headers := parseHeaders headText in
      let ctype := header_or headers (js "content-type") [] in
      match first_match boundary_at ctype with
      | None => Throw NoBoundary
      | Some boundary =>
          let delim := js "--" ++ boundary in
          Ok (omap parse_part (tail (split text delim)))
      end
  end.

(** ** Choosing the root document (lines 1365-1372) *)

(** [Array.prototype.sort] is stable; with the comparator
    [b.buf.length - a.buf.length] it is the stable sort by decreasing length,
    here by insertion from the right: an element goes in before the first
    later element that is not longer than it. *)
Fixpoint insert_by_length (p : Part) (l : list Part) : list Part :=
  match l with
  | [] => [p]
  | q :: l' =>
      if (length (buf q) <=? length (buf p))%nat then p :: l
      else q :: insert_by_length p l'
  end.

Definition sort_by_length (l : list Part) : list Part :=
  foldr insert_by_length [] l.

Definition is_html_part (p : Part) : bool :=
  startsWith (contentType p) (js "text/html").

Definition select_root (parts : list Part) : outcome Part :=
  match sort_by_length (List.filter is_html_part parts) with
  | [] => Throw NoHtmlPart
  | rootPart :: _ => Ok rootPart
  end.

End Parse.

(** ** Rewriting CSS (lines 1187-1243) *)

(** The tail of the import pattern: white space, anything but a semicolon,
    and the semicolon; what is left after the first semicolon. *)
Definition import_tail (s : jsstr) : option jsstr :=
  match drop_while (fun c => negb (c =? 59)) s with
  | _ :: r => Some r
  | [] => None
  end.

Definition url_arg_unit (c : N) : bool := negb (c =? 41) && negb (isSpace c).

(** The [url] form of the import pattern, behind the opening parenthesis:
    white space, a run free of white space and of the closing parenthesis,
    white space, the closing parenthesis, and the tail. *)
Definition import_url_form (r2 : jsstr) : option (jsstr * jsstr) :=
  let r3 := drop_while isSpace r2 in
  match take_while url_arg_unit r3,
        drop_while isSpace (drop_while url_arg_unit r3) with
  | (_ :: _) as g, close :: r5 =>
      if close =? 41
      then match import_tail r5 with
           | Some r => Some (g, r)
           | None => None
           end
      else None
  | _, _ => None
  end.

(** The quoted form: a quote, the units up to the next same quote on the
    line (the dot is lazy and stops at a line terminator), and the tail. *)
Definition import_quoted_form (r1 : jsstr) : option (jsstr * jsstr) :=
  match r1 with
  | q :: r2 =>
      if isQuote q
      then
        let inside c := negb (c =? q) && negb (isLineTerminator c) in
        match drop_while inside r2 with
        | q' :: r3 =>
            if q' =? q
            then match import_tail r3 with
                 | Some r => Some (take_while inside r2, r)
                 | None => None
                 end
            else None
        | [] => None
        end
      else None
  | [] => None
  end.

(** The import pattern [importRe] (line 1220), anchored at the start of [s]:
    the target as the source takes it (group 1, else group 3, else the empty
    string) and the text behind the match. The keyword needs white space
    behind it, and a semicolon must follow the target somewhere. *)
Definition import_at (s : jsstr) : option (jsstr * jsstr) :=
  match strip_prefix_ci (js "@import") s with
  | Some ((c :: _) as r0) =>
      if isSpace c
      then
        let r1 := drop_while isSpace r0 in
        match strip_prefix_ci (js "url(") r1 with
        | Some r2 => import_url_form r2
        | None => import_quoted_form r1
        end
      else None
  | _ => None
  end.

(** One match of [importRe.exec]: the text before it ([css.slice] from the
    last index to [m.index]), its target, its own text, and the text behind
    it (from the new last index). *)
Record import_match := mkMatch {
  m_before : jsstr;
  m_target : jsstr;
  m_text : jsstr;
  m_rest : jsstr
}.

Fixpoint next_import (s : jsstr) : option import_match :=
  match import_at s with
  | Some (g, r) =>
      Some (mkMatch [] g (take (length s - length r) s) r)
  | None =>
      match s with
      | [] => None
      | c :: s' =>
          match next_import s' with
          | Some m => Some (mkMatch (c :: m_before m) (m_target m) (m_text m) (m_rest m))
          | None => None
          end
      end
  end.

(** The stylesheet as the loop of lines 1224-1241 walks it: text copied as
    it is, and import statements with their target and their own text. *)
Inductive segment :=
  | Lit (t : jsstr)
  | Import (target : jsstr) (source : jsstr).

Fixpoint segments_go (n : nat) (s : jsstr) : list segment :=
  match n with
  | O => [Lit s]
  | S n' =>
      match next_import s with
      | None => [Lit s]
      | Some m =>
          Lit (m_before m) :: Import (m_target m) (m_text m)
            :: segments_go n' (m_rest m)
      end
  end.

(** Every match takes at least the keyword, so [length s] rounds are enough. *)
Definition segments (s : jsstr) : list segment := segments_go (length s) s.

(** [a || b] on two lookups. *)
Definition or_else {A} (a b : option A) : option A :=
  match a with Some _ => a | None => b end.

Section Css.
Context {P : Platform}.

(** [hit.text || hit.buf.toString] with the utf-8 encoding. *)
Definition text_of (hit : Entry) : jsstr :=
  if truthy_opt (text (part hit)) then or_empty (text (part hit))
  else utf8_decode (buf (part hit)).

(** [hit.contentLocation || base]. *)
Definition base_of (hit : Entry) (base : option jsstr) : option jsstr :=
  if truthy_opt (contentLocation (part hit)) then contentLocation (part hit)
  else base.

(** The lookups of the callback of [inlineCssUrlsWithMap] (lines 1192-1204)
    for the value of a [Url] node that does not start with [data:]. *)
Definition css_url_hit (partMap : gmap jsstr Entry) (baseHref : option jsstr)
  (raw0 : jsstr) : option Entry :=
  let raw := if isWeird raw0 then normalizeWeirdUrl raw0 else raw0 in
  let normRaw := normKey (resolveAgainst baseHref raw) in
  or_else (partMap !! normRaw)
  (or_else (partMap !! (js "cid:" ++ raw))
  (or_else (partMap !! raw)
  (or_else (if startsWith raw (js "cid:") then partMap !! normKey raw else None)
           (if startsWith raw (js "cid!") then partMap !! raw else None)))).

(** The callback of [csstree.walk] (lines 1190-1212) on one node. *)
Definition rewrite_css_node (partMap : gmap jsstr Entry)
  (baseHref : option jsstr) (n : css_node) : css_node :=
  match n with
  | Url value =>
      if negb (truthy value) then n
      else
        let raw := strip_quotes value in
        if startsWith raw (js "data:") then n
        else match css_url_hit partMap baseHref raw with
             | Some hit => Url (dataURI hit)
             | None => n
             end
  | OtherNode _ => n
  end.

(** [inlineCssUrlsWithMap] (lines 1187-1214). *)
Definition inlineCssUrlsWithMap (css : jsstr) (baseHref : option jsstr)
  (partMap : gmap jsstr Entry) : jsstr :=
  if negb (truthy css) then css
  else css_generate (map (rewrite_css_node partMap baseHref) (css_parse css)).

(** The lookups for an import target (lines 1228-1231). *)
Definition import_hit (partMap : gmap jsstr Entry) (baseHref : option jsstr)
  (g : jsstr) : option Entry :=
  let importUrl := strip_quotes g in
  let importUrl :=
    if isWeird importUrl then normalizeWeirdUrl importUrl else importUrl in
  let target := normKey (resolveAgainst baseHref importUrl) in
  or_else (partMap !! target)
  (or_else (partMap !! importUrl) (partMap !! normKey importUrl)).

(** The loop of [inlineCssImportsWithMap] over the segments; [self] is the
    recursive call of line 1237, [None] when it does not return. *)
Fixpoint import_loop (self : jsstr -> option jsstr -> option jsstr)
  (partMap : gmap jsstr Entry) (baseHref : option jsstr)
  (segs : list segment) : option jsstr :=
  match segs with
  | [] => Some []
  | Lit t :: segs' =>
      match import_loop self partMap baseHref segs' with
      | Some out => Some (t ++ out)
      | None => None
      end
  | Import g _ :: segs' =>
      match import_hit partMap baseHref g with
      | None => import_loop self partMap baseHref segs'
      | Some hit =>
          match self (text_of hit) (base_of hit baseHref) with
          | None => None
          | Some importedCss =>
              let importedCss :=
                inlineCssUrlsWithMap importedCss (base_of hit baseHref) partMap in
              match import_loop self partMap baseHref segs' with
              | Some out => Some (importedCss ++ out)
              | None => None
              end
          end
      end
  end.

(** [inlineCssImportsWithMap] (lines 1217-1243). The source recurses with no
    bound; [depth] is the number of nested calls allowed, and [None] says the
    call needs more. A call that needs more than any number never returns:
    the calls nest until the stack of the platform is full. *)
Fixpoint inlineCssImportsWithMap (depth : nat) (css : jsstr)
  (baseHref : option jsstr) (partMap : gmap jsstr Entry) : option jsstr :=
  match depth with
  | O => None
  | S d =>
      if negb (truthy css) then Some css
      else import_loop (fun css' base' => inlineCssImportsWithMap d css' base' partMap)
             partMap baseHref (segments css)
  end.

End Css.

(** ** Rewriting the document (lines 1246-1344) *)

(** Attributes of an element, in document order; the parser has put tag and
    attribute names in lower case. *)
Fixpoint get_attr (name : jsstr) (a : list (jsstr * jsstr)) : option jsstr :=
  match a with
  | [] => None
  | (k, v) :: a' => if bool_decide (k = name) then Some v else get_attr name a'
  end.

Fixpoint set_attr (name value : jsstr) (a : list (jsstr * jsstr))
  : list (jsstr * jsstr) :=
  match a with
  | [] => [(name, value)]
  | (k, v) :: a' =>
      if bool_decide (k = name) then (k, value) :: a'
      else (k, v) :: set_attr name value a'
  end.

Definition remove_attr (name : jsstr) (a : list (jsstr * jsstr))
  : list (jsstr * jsstr) :=
  List.filter (fun kv => negb (bool_decide (kv.1 = name))) a.

Definition has_attr (name : jsstr) (a : list (jsstr * jsstr)) : bool :=
  match get_attr name a with Some _ => true | None => false end.

Fixpoint ci_equal (x y : jsstr) : bool :=
  match x, y with
  | [], [] => true
  | a :: x', b :: y' => ci_eqb a b && ci_equal x' y'
  | _, _ => false
  end.

(** The selector test on the value of [rel]: css-select compares the values
    of [rel] without regard to case in an HTML document. *)
Definition rel_is (a : list (jsstr * jsstr)) (v : jsstr) : bool :=
  match get_attr (js "rel") a with
  | Some r => ci_equal r v
  | None => false
  end.

Definition is_tag (t : jsstr) (name : jsstr) : bool := bool_decide (t = name).

(** What a loop does to an element it selected: [Keep a] leaves the element in
    place with attributes [a]; [Fill a ch] also gives it new children;
    [Replace ns] puts the nodes [ns] in its place ([remove] is [Replace []]). *)
Inductive edit :=
  | Keep (a : list (jsstr * jsstr))
  | Fill (a : list (jsstr * jsstr)) (ch : list node)
  | Replace (ns : list node).

(** One loop over the elements a selector finds, in document order. Children
    that a loop has just put in are not in its snapshot. *)
Fixpoint walk (f : jsstr -> list (jsstr * jsstr) -> list node -> edit)
  (n : node) : list node :=
  match n with
  | TextNode _ => [n]
  | Element t a ch =>
      match f t a ch with
      | Keep a' => [Element t a' (flat_map (walk f) ch)]
      | Fill a' ch' => [Element t a' ch']
      | Replace ns => ns
      end
  end.

(** The same for a loop whose body may not return. The snapshot holds the
    selected descendants of an element too: the loop runs its body on them
    even when the element has been replaced, so they must return as well. *)
Fixpoint walk_opt
  (f : jsstr -> list (jsstr * jsstr) -> list node -> option edit)
  (n : node) : option (list node) :=
  match n with
  | TextNode _ => Some [n]
  | Element t a ch =>
      match f t a ch,
            (fix go (l : list node) : option (list node) :=
               match l with
               | [] => Some []
               | x :: l' =>
                   match walk_opt f x, go l' with
                   | Some x', Some l'' => Some (x' ++ l'')
                   | _, _ => None
                   end
               end) ch with
      | Some (Keep a'), Some ch' => Some [Element t a' ch']
      | Some (Fill a' ch'), Some _ => Some [Element t a' ch']
      | Some (Replace ns), Some _ => Some ns
      | _, _ => None
      end
  end.

Fixpoint walk_all_opt
  (f : jsstr -> list (jsstr * jsstr) -> list node -> option edit)
  (doc : list node) : option (list node) :=
  match doc with
  | [] => Some []
  | x :: doc' =>
      match walk_opt f x, walk_all_opt f doc' with
      | Some x', Some d => Some (x' ++ d)
      | _, _ => None
      end
  end.

(** Lines 1250-1251: the first [base] element with an [href], in document
    order, gets the [href] of the current directory; [done] says it was found
    already. *)
Fixpoint fix_base (done : bool) (n : node) : bool * node :=
  match n with
  | TextNode _ => (done, n)
  | Element t a ch =>
      let here := negb done && is_tag t (js "base") && has_attr (js "href") a in
      let a' := if here then set_attr (js "href") (js ".") a else a in
      let r :=
        (fix go (d : bool) (l : list node) : bool * list node :=
           match l with
           | [] => (d, [])
           | x :: l' =>
               let r1 := fix_base d x in
               let r2 := go r1.1 l' in
               (r2.1, r1.2 :: r2.2)
           end) (done || here) ch in
      (r.1, Element t a' r.2)
  end.

Fixpoint fix_base_all (done : bool) (doc : list node) : list node :=
  match doc with
  | [] => []
  | x :: doc' =>
      let r := fix_base done x in
      r.2 :: fix_base_all r.1 doc'
  end.

(** [s.replace(/^cid:/, e)] with [e] the empty string. *)
Definition strip_cid (s : jsstr) : jsstr :=
  match strip_prefix (js "cid:") s with Some r => r | None => s end.

Section Html.
Context {P : Platform}.

(** The lookups shared by the loops over references (lines 1256-1259,
    1290-1294): the first five alternatives. *)
Definition link_hit (partMap : gmap jsstr Entry) (docBase : option jsstr)
  (href0 : jsstr) : option Entry :=
  let href := if isWeird href0 then normalizeWeirdUrl href0 else href0 in
  let key := normKey (resolveAgainst docBase href) in
  or_else (partMap !! key)
  (or_else (partMap !! href)
  (or_else (partMap !! normKey href)
  (or_else (partMap !! (js "cid:" ++ href)) (partMap !! strip_cid href)))).

(** The seven alternatives of images, scripts and icons (lines 1292-1296). *)
Definition ref_hit (partMap : gmap jsstr Entry) (docBase : option jsstr)
  (src0 : jsstr) : option Entry :=
  let src := if isWeird src0 then normalizeWeirdUrl src0 else src0 in
  or_else (link_hit partMap docBase src0)
  (or_else (if startsWith src (js "cid!") then partMap !! src else None)
           (match extractCidFromWeird src with
            | Some c => partMap !! (js "cid:" ++ c)
            | None => None
            end)).

(** Lines 1254-1269: a stylesheet link. *)
Definition stylesheet_edit (depth : nat) (partMap : gmap jsstr Entry)
  (docBase : option jsstr) (t : jsstr) (a : list (jsstr * jsstr))
  (ch : list node) : option edit :=
  if is_tag t (js "link") && rel_is a (js "stylesheet") && has_attr (js "href") a
  then
    let href0 := or_empty (get_attr (js "href") a) in
    let href := if isWeird href0 then normalizeWeirdUrl href0 else href0 in
    match link_hit partMap docBase href0 with
    | Some hit =>
        match inlineCssImportsWithMap depth (text_of hit)
                (base_of hit docBase) partMap with
        | Some css =>
            let css := inlineCssUrlsWithMap css (base_of hit docBase) partMap in
            Some (Replace (html_fragment (js "<style>" ++ css ++ js "</style>")))
        | None => None
        end
    | None =>
        if startsWith_ci href (js "cid!") then Some (Replace [])
        else Some (Keep a)
    end
  else Some (Keep a).

(** Lines 1272-1277: a style block. *)
Definition style_edit (depth : nat) (partMap : gmap jsstr Entry)
  (docBase : option jsstr) (t : jsstr) (a : list (jsstr * jsstr))
  (ch : list node) : option edit :=
  if is_tag t (js "style")
  then match inlineCssImportsWithMap depth (inner_html ch) docBase partMap with
       | Some css =>
           let css := inlineCssUrlsWithMap css docBase partMap in
           Some (Fill a (set_inner_html t css))
       | None => None
       end
  else Some (Keep a).

(** Lines 1280-1285: a style attribute. *)
Definition style_attr_edit (partMap : gmap jsstr Entry)
  (docBase : option jsstr) (t : jsstr) (a : list (jsstr * jsstr))
  (ch : list node) : edit :=
  match get_attr (js "style") a with
  | Some css =>
      if truthy css
      then Keep (set_attr (js "style")
                   (inlineCssUrlsWithMap css docBase partMap) a)
      else Keep a
  | None => Keep a
  end.

(** Lines 1288-1299: an image. *)
Definition img_edit (partMap : gmap jsstr Entry) (docBase : option jsstr)
  (t : jsstr) (a : list (jsstr * jsstr)) (ch : list node) : edit :=
  if is_tag t (js "img") && has_attr (js "src") a
  then match ref_hit partMap docBase (or_empty (get_attr (js "src") a)) with
       | Some hit => Keep (set_attr (js "src") (dataURI hit) a)
       | None => Keep a
       end
  else Keep a.

(** Lines 1302-1316: a script. *)
Definition script_edit (partMap : gmap jsstr Entry) (docBase : option jsstr)
  (t : jsstr) (a : list (jsstr * jsstr)) (ch : list node) : edit :=
  if is_tag t (js "script") && has_attr (js "src") a
  then match ref_hit partMap docBase (or_empty (get_attr (js "src") a)) with
       | Some hit => Fill (remove_attr (js "src") a) [TextNode (text_of hit)]
       | None => Keep a
       end
  else Keep a.

(** Lines 1319-1330: an icon link. *)
Definition icon_edit (partMap : gmap jsstr Entry) (docBase : option jsstr)
  (t : jsstr) (a : list (jsstr * jsstr)) (ch : list node) : edit :=
  if is_tag t (js "link")
     && (rel_is a (js "icon") || rel_is a (js "shortcut icon")
         || rel_is a (js "apple-touch-icon"))
  then match ref_hit partMap docBase (or_empty (get_attr (js "href") a)) with
       | Some hit => Keep (set_attr (js "href") (dataURI hit) a)
       | None => Keep a
       end
  else Keep a.

(** Lines 1333-1338: an anchor on a content id. A placeholder from which
    [extractCidFromWeird] takes nothing leaves [null], which concatenates as
    the word null and is no key of the map. *)
Definition anchor_hit (partMap : gmap jsstr Entry) (href : jsstr)
  : option Entry :=
  let cid :=
    if startsWith href (js "cid!") then extractCidFromWeird href
    else Some (match strip_prefix_ci (js "cid:") href with
               | Some r => r
               | None => href
               end) in
  match cid with
  | Some c => or_else (partMap !! (js "cid:" ++ c)) (partMap !! c)
  | None => partMap !! js "cid:null"
  end.

Definition anchor_edit (partMap : gmap jsstr Entry)
  (t : jsstr) (a : list (jsstr * jsstr)) (ch : list node) : edit :=
  let href := or_empty (get_attr (js "href") a) in
  if is_tag t (js "a") && has_attr (js "href") a
     && (startsWith href (js "cid:") || startsWith href (js "cid!"))
  then match anchor_hit partMap href with
       | Some hit => Keep (set_attr (js "href") (dataURI hit) a)
       | None => Keep a
       end
  else Keep a.

(** Line 1341: the hint links go. *)
Definition hint_edit (t : jsstr) (a : list (jsstr * jsstr)) (ch : list node)
  : edit :=
  if is_tag t (js "link")
     && (rel_is a (js "preconnect") || rel_is a (js "dns-prefetch")
         || rel_is a (js "preload") || rel_is a (js "prefetch"))
  then Replace [] else Keep a.

(** The loops of [rewriteHtmlWithMap] between [cheerio.load] and [$.html]. *)
Definition rewriteDom (depth : nat) (doc : list node)
  (docBase : option jsstr) (partMap : gmap jsstr Entry) : option (list node) :=
  let doc := fix_base_all false doc in
  match walk_all_opt (stylesheet_edit depth partMap docBase) doc with
  | None => None
  | Some doc =>
      match walk_all_opt (style_edit depth partMap docBase) doc with
      | None => None
      | Some doc =>
          let doc := flat_map (walk (style_attr_edit partMap docBase)) doc in
          let doc := flat_map (walk (img_edit partMap docBase)) doc in
          let doc := flat_map (walk (script_edit partMap docBase)) doc in
          let doc := flat_map (walk (icon_edit partMap docBase)) doc in
          let doc := flat_map (walk (anchor_edit partMap)) doc in
          Some (flat_map (walk hint_edit) doc)
      end
  end.

(** [rewriteHtmlWithMap] (lines 1246-1344). *)
Definition rewriteHtmlWithMap (depth : nat) (html : jsstr)
  (docBase : option jsstr) (partMap : gmap jsstr Entry) : option jsstr :=
  match rewriteDom depth (html_parse html) docBase partMap with
  | Some doc => Some (html_serialize doc)
  | None => None
  end.

(** ** One container (lines 1360-1384) *)

(** The body of the main loop for one file: the document it writes, or what
    it throws before it writes anything; [None] when the rewrite does not
    return within [depth]. *)
Definition convert (depth : nat) (buffer : list byte)
  : option (outcome jsstr) :=
  match parseMHTML buffer with
  | Throw e => Some (Throw e)
  | Ok parts =>
      match select_root parts with
      | Throw e => Some (Throw e)
      | Ok rootPart =>
          let docBase :=
            if truthy_opt (contentLocation rootPart)
            then contentLocation rootPart else None in
          let partMap := buildPartMap parts docBase in
          let html0 :=
            if truthy_opt (text rootPart) then or_empty (text rootPart)
            else utf8_decode (buf rootPart) in
          match rewriteHtmlWithMap depth html0 docBase partMap with
          | Some finalHtml => Some (Ok finalHtml)
          | None => None
          end
      end
  end.

End Html.

(** * Vocabulary of the specification *)

(** No white space at the head of [s]. *)
Definition clean_head (s : jsstr) : bool :=
  match s with [] => true | c :: _ => negb (isSpace c) end.

(** [p] occurs in [s]. *)
Definition occurs (p s : jsstr) : Prop :=
  exists pre post, s = pre ++ p ++ post.

(** The value of the outer Content-Type header: the header block is the text
    before the first blank line. *)
Definition outer_content_type (text : jsstr) : jsstr :=
  match cut_at CRLF2 text with
  | Some (headText, _) => header_or (parseHeaders headText) (js "content-type") []
  | None => []
  end.

(** A header block closed by a blank line stands before the first boundary:
    the text is a block [head], the line end of its last line and an empty
    line, and then the rest; and no delimiter [d] begins in the text before
    that rest. *)
Definition header_block_before (d text : jsstr) : Prop :=
  exists head rest,
    text = head ++ CRLF2 ++ rest
    /\ forall pre suf, text = pre ++ d ++ suf ->
         (length (head ++ CRLF2) <= length pre)%nat.

(** A parameter value without its double quotes. *)
Definition unquote (v : jsstr) : jsstr :=
  let v1 := match v with
            | c :: t => if c =? 34 then t else v
            | [] => v
            end in
  match rev v1 with
  | c :: r => if c =? 34 then rev r else v1
  | [] => v1
  end.

(** The boundary a parameter gives: the parameter is the word boundary, in
    any case, an equals sign and a value, bare or in double quotes, that is
    not empty and holds no double quote. *)
Definition boundary_of_param (seg : jsstr) : option jsstr :=
  match strip_prefix_ci (js "boundary=") (trim seg) with
  | Some v =>
      let b := unquote v in
      if truthy b && forallb (fun c => negb (c =? 34)) b then Some b else None
  | None => None
  end.

(** The boundary parameter of a Content-Type value: the parameters are what
    stands between the semicolons behind the media type. *)
Definition boundary_parameter (ct : jsstr) : option jsstr :=
  head (omap boundary_of_param (tail (split ct (js ";")))).

(** The boundary pattern of the parser matches somewhere in [ct]: the word
    boundary in any case and an equals sign, then perhaps a double quote,
    then a unit that is no double quote. *)
Definition boundary_pattern (ct : jsstr) : Prop :=
  exists pre kw q c rest,
    ct = pre ++ kw ++ q ++ c :: rest
    /\ ci_equal kw (js "boundary=") = true
    /\ (q = [] \/ q = [34])
    /\ c <> 34.

(** The error kinds of the specification. *)
Definition MalformedContainer (e : error) : Prop :=
  e = NoHeaderSection \/ e = NoBoundary.

Definition NoRootDocument (e : error) : Prop := e = NoHtmlPart.

(** The text a segment stands for in the stylesheet. *)
Definition seg_source (seg : segment) : jsstr :=
  match seg with
  | Lit t => t
  | Import _ src => src
  end.

(** [Q] holds of every element of the tree [n]. *)
Fixpoint every_element
  (Q : jsstr -> list (jsstr * jsstr) -> list node -> Prop) (n : node) : Prop :=
  match n with
  | TextNode _ => True
  | Element t a ch =>
      Q t a ch
      /\ (fix all (l : list node) : Prop :=
            match l with
            | [] => True
            | x :: l' => every_element Q x /\ all l'
            end) ch
  end.

Section HtmlVocabulary.
Context {P : Platform}.

(** Every reference an element may carry for the loops over images, scripts,
    icons and anchors misses the index. *)
Definition refs_miss (partMap : gmap jsstr Entry) (docBase : option jsstr)
  (t : jsstr) (a : list (jsstr * jsstr)) (ch : list node) : Prop :=
  ref_hit partMap docBase (or_empty (get_attr (js "src") a)) = None
  /\ ref_hit partMap docBase (or_empty (get_attr (js "href") a)) = None
  /\ anchor_hit partMap (or_empty (get_attr (js "href") a)) = None.

(** The loops over images, scripts, icons and anchors, one after the other. *)
Definition attribute_loops (partMap : gmap jsstr Entry)
  (docBase : option jsstr) (doc : list node) : list node :=
  flat_map (walk (anchor_edit partMap))
    (flat_map (walk (icon_edit partMap docBase))
       (flat_map (walk (script_edit partMap docBase))
          (flat_map (walk (img_edit partMap docBase)) doc))).

End HtmlVocabulary.

(** The node [n] lies in [doc], at the top or below elements that satisfy
    [T]. *)
Inductive inside (T : jsstr -> list (jsstr * jsstr) -> Prop) (n : node)
  : list node -> Prop :=
  | inside_here (doc : list node) : n ∈ doc -> inside T n doc
  | inside_below (doc : list node) (t : jsstr) (a : list (jsstr * jsstr))
      (ch : list node) :
      Element t a ch ∈ doc -> T t a -> inside T n ch -> inside T n doc.

(** The node [n] is the one the path [path] of child indices leads to in
    [doc], through elements that satisfy [T]. *)
Inductive place (T : jsstr -> list (jsstr * jsstr) -> Prop) (n : node)
  : list node -> list nat -> Prop :=
  | place_here (doc : list node) (i : nat) :
      doc !! i = Some n -> place T n doc [i]
  | place_below (doc : list node) (i : nat) (t : jsstr)
      (a : list (jsstr * jsstr)) (ch : list node) (path : list nat) :
      doc !! i = Some (Element t a ch) -> T t a -> place T n ch path ->
      place T n doc (i :: path).

(** An element that may hold elements in a parsed document: the link element
    is void, and the content of style and script elements is text. *)
Definition holds_elements (t : jsstr) (a : list (jsstr * jsstr)) : Prop :=
  t <> js "link" /\ t <> js "style" /\ t <> js "script".

(** A stylesheet link whose reference is a cid placeholder. *)
Definition placeholder_stylesheet (t : jsstr) (a : list (jsstr * jsstr))
  : bool :=
  let href0 := or_empty (get_attr (js "href") a) in
  is_tag t (js "link") && rel_is a (js "stylesheet") && has_attr (js "href") a
  && startsWith_ci (if isWeird href0 then normalizeWeirdUrl href0 else href0)
       (js "cid!").

(** [fix_base] along a list of nodes. *)
Fixpoint fix_base_list (found : bool) (l : list node) : bool * list node :=
  match l with
  | [] => (found, [])
  | x :: l' =>
      let r1 := fix_base found x in
      let r2 := fix_base_list r1.1 l' in
      (r2.1, r1.2 :: r2.2)
  end.

Section Restyle.
Context {P : Platform}.

(** The attributes as the loop over style attributes leaves them. *)
Definition restyled (partMap : gmap jsstr Entry) (docBase : option jsstr)
  (a : list (jsstr * jsstr)) : list (jsstr * jsstr) :=
  match get_attr (js "style") a with
  | Some css =>
      if truthy css
      then set_attr (js "style") (inlineCssUrlsWithMap css docBase partMap) a
      else a
  | None => a
  end.

(** No script with a reference that resolves: the loop over scripts gives
    such an element text for children. *)
Definition no_script_hit (partMap : gmap jsstr Entry) (docBase : option jsstr)
  (t : jsstr) (a : list (jsstr * jsstr)) : Prop :=
  t = js "script" -> has_attr (js "src") a = true ->
  ref_hit partMap docBase (or_empty (get_attr (js "src") a)) = None.

End Restyle.

(** No at sign in [s]; and the keyword of an import rule somewhere in [s]. *)
Definition at_free (s : jsstr) : Prop := 64 ∉ s.

Definition has_import_keyword (s : jsstr) : Prop :=
  exists pre suf, s = pre ++ suf /\ startsWith_ci suf (js "@import") = true.

Section CssVocabulary.
Context {P : Platform}.

(** The imports of [css] that resolve in the index nest at most [d] deep:
    none resolves when [d] is 0, and those that do lead to stylesheets whose
    imports nest at most [d - 1] deep. *)
Fixpoint import_nesting_le (d : nat) (partMap : gmap jsstr Entry)
  (css : jsstr) (base : option jsstr) : Prop :=
  forall g src hit,
    Import g src ∈ segments css ->
    import_hit partMap base g = Some hit ->
    match d with
    | O => False
    | S d' => import_nesting_le d' partMap (text_of hit) (base_of hit base)
    end.

(** What the loop puts out for one segment, the recursive calls having [d]
    nested calls left. *)
Definition piece_of (d : nat) (partMap : gmap jsstr Entry)
  (base : option jsstr) (seg : segment) (piece : jsstr) : Prop :=
  match seg with
  | Lit t => piece = t
  | Import g _ =>
      match import_hit partMap base g with
      | None => piece = []
      | Some hit =>
          exists c,
            inlineCssImportsWithMap d (text_of hit) (base_of hit base) partMap
              = Some c
            /\ piece = inlineCssUrlsWithMap c (base_of hit base) partMap
      end
  end.

End CssVocabulary.

(** An import statement and its target: the keyword in any case, white
    space, then either the word url, a parenthesis, the target (a run free of
    white space and of the closing parenthesis) with white space around it
    and the closing parenthesis, or the target between two quotes of one kind
    (on one line, free of that quote); then any text without semicolon, and a
    semicolon. *)
Inductive import_statement : jsstr -> jsstr -> Prop :=
  | url_statement (kw ws u ws1 g ws2 tl : jsstr) :
      ci_equal kw (js "@import") = true ->
      ws <> [] -> forallb isSpace ws = true ->
      ci_equal u (js "url(") = true ->
      forallb isSpace ws1 = true ->
      g <> [] -> forallb url_arg_unit g = true ->
      forallb isSpace ws2 = true ->
      forallb (fun c => negb (c =? 59)) tl = true ->
      import_statement
        (kw ++ ws ++ u ++ ws1 ++ g ++ ws2 ++ [41] ++ tl ++ [59]) g
  | quoted_statement (kw ws : jsstr) (q : N) (g tl : jsstr) :
      ci_equal kw (js "@import") = true ->
      ws <> [] -> forallb isSpace ws = true ->
      isQuote q = true ->
      forallb (fun c => negb (c =? q) && negb (isLineTerminator c)) g = true ->
      forallb (fun c => negb (c =? 59)) tl = true ->
      import_statement (kw ++ ws ++ [q] ++ g ++ [q] ++ tl ++ [59]) g.

(** [s] and the pattern [p] agree, in any case, as far as both go. *)
Fixpoint agrees_ci (p s : jsstr) : bool :=
  match p, s with
  | a :: p', c :: s' => ci_eqb a c && agrees_ci p' s'
  | _, _ => true
  end.

(** No import keyword begins in [t], whatever text follows [t]. *)
Fixpoint no_open_keyword (t : jsstr) : bool :=
  match t with
  | [] => true
  | _ :: t' => negb (agrees_ci (js "@import") t) && no_open_keyword t'
  end.

(** The text of a segment that is no statement. *)
Definition lit_text (seg : segment) : jsstr :=
  match seg with
  | Lit t => t
  | Import _ _ => []
  end.

(** No import statement begins in the first [n] units of [css]. *)
Definition no_statement_before (n : nat) (css : jsstr) : Prop :=
  forall a stmt g z,
    css = a ++ stmt ++ z -> import_statement stmt g -> (n <= length a)%nat.

(** The base64 alphabet, with the padding sign. *)
Definition base64_unit (c : N) : bool :=
  ((65 <=? c) && (c <=? 90)) || ((97 <=? c) && (c <=? 122))
  || ((48 <=? c) && (c <=? 57)) || (c =? 43) || (c =? 47) || (c =? 61).

(** * Inputs of the examples *)

Definition CRLF : jsstr := [13; 10].

(** The lines of a container, each closed by CR LF. *)
Definition crlf_lines (l : list jsstr) : jsstr :=
  concat (map (fun x => x ++ CRLF) l).

(** A container with one image part in base64 whose body holds a dollar
    sign. *)
Definition bad_base64_container : list byte :=
  binary_buffer (crlf_lines
    [js "MIME-Version: 1.0";
     js "Content-Type: multipart/related; boundary=XYZ";
     [];
     js "--XYZ";
     js "Content-Type: image/png";
     js "Content-Transfer-Encoding: base64";
     js "Content-Location: a.png";
     [];
     js "aGk$";
     js "--XYZ--"]).

(** Two parts whose content types begin with text/html; the first is
    text/htmlx and the longer one. *)
Definition htmlx_part : Part :=
  {| headers := ∅; contentType := js "text/htmlx"; charset := js "utf-8";
     contentLocation := None; contentId := None;
     buf := [x61; x62]; text := Some (js "ab") |}.

Definition html_part : Part :=
  {| headers := ∅; contentType := js "text/html"; charset := js "utf-8";
     contentLocation := None; contentId := None;
     buf := [x63]; text := Some (js "c") |}.

(** Two stylesheets that import each other. *)
Definition loc_a : jsstr := js "https://example.com/a.css".
Definition loc_b : jsstr := js "https://example.com/b.css".
Definition css_a : jsstr := js "@import url(https://example.com/b.css);".
Definition css_b : jsstr := js "@import url(https://example.com/a.css);".

Definition cyc_a : Part :=
  {| headers := ∅; contentType := js "text/css"; charset := js "utf-8";
     contentLocation := Some loc_a; contentId := None;
     buf := binary_buffer css_a; text := Some css_a |}.

Definition cyc_b : Part :=
  {| headers := ∅; contentType := js "text/css"; charset := js "utf-8";
     contentLocation := Some loc_b; contentId := None;
     buf := binary_buffer css_b; text := Some css_b |}.

(** A stylesheet that imports [css_main], which imports nothing. *)
Definition css_top : jsstr :=
  js "@import url(https://example.com/main.css); p{}".

(** The raw text of a part between two delimiters: a base64 body with a
    blank inside and a dollar sign at its end. *)
Definition base64_raw : jsstr :=
  CRLF ++ crlf_lines
    [js "Content-Type: image/png";
     js "Content-Transfer-Encoding: BASE64";
     [];
     js "aG k$"].

(** The raw text of an image part with a content id in angle brackets. *)
Definition cid_raw : jsstr :=
  CRLF ++ crlf_lines
    [js "Content-Type: image/png";
     js "Content-ID: <abc123>";
     [];
     js "x"].

(** A stylesheet link whose reference is a content-id placeholder. *)
Definition placeholder_attrs : list (jsstr * jsstr) :=
  [(js "rel", js "stylesheet"); (js "href", js "cid!x@mhtml.blink")].

Definition placeholder_link : node := Element (js "link") placeholder_attrs [].

(** An image stored under a.png, and a second image stored under the data
    URI that the index makes of the first. *)
Definition pic_a : Part :=
  {| headers := ∅; contentType := js "image/png"; charset := js "utf-8";
     contentLocation := Some (js "a.png"); contentId := None;
     buf := [x41]; text := None |}.

Definition pic_b : Part :=
  {| headers := ∅; contentType := js "image/gif"; charset := js "utf-8";
     contentLocation := Some (js "data:image/png;base64,QQ==");
     contentId := None; buf := [x42]; text := None |}.

Definition img_with (src : jsstr) : node :=
  Element (js "img") [(js "src", src)] [].

(** Another text/html part, as long as [html_part]. *)
Definition html_part2 : Part :=
  {| headers := ∅; contentType := js "text/html"; charset := js "utf-8";
     contentLocation := None; contentId := None;
     buf := [x64]; text := Some (js "d") |}.

(** A stylesheet stored under the relative location abc123, and an image
    with the content id abc123. *)
Definition css_abc : Part :=
  {| headers := ∅; contentType := js "text/css"; charset := js "utf-8";
     contentLocation := Some (js "abc123"); contentId := None;
     buf := [x61]; text := Some (js "a") |}.

Definition png_abc : Part :=
  {| headers := ∅; contentType := js "image/png"; charset := js "utf-8";
     contentLocation := None; contentId := Some (js "abc123");
     buf := [x89]; text := None |}.

(** A second image with the same content id. *)
Definition gif_abc : Part :=
  {| headers := ∅; contentType := js "image/gif"; charset := js "utf-8";
     contentLocation := None; contentId := Some (js "abc123");
     buf := [x47]; text := None |}.

(** A stylesheet stored under a location of its own. *)
Definition css_main : Part :=
  {| headers := ∅; contentType := js "text/css"; charset := js "utf-8";
     contentLocation := Some (js "https://example.com/main.css");
     contentId := None; buf := [x62]; text := Some (js "b") |}.

(** Two containers for the contract of the parser: one whose first
    delimiter follows the Content-Type line at once, and one whose only
    parameter is named xboundary. *)
Definition joined_container : list byte :=
  binary_buffer (crlf_lines
    [js "Content-Type: multipart/related; boundary=XYZ";
     js "--XYZ";
     js "Content-Location: a.bin";
     [];
     js "x";
     js "--XYZ";
     js "Content-Type: text/html";
     [];
     js "<p>hi</p>";
     js "--XYZ--"]).

Definition xboundary_container : list byte :=
  binary_buffer (crlf_lines
    [js "Content-Type: multipart/related; xboundary=XYZ";
     [];
     js "--XYZ";
     js "Content-Type: text/html";
     [];
     js "<p>hi</p>";
     js "--XYZ--"]).

(** A block with an image the index holds and an image it does not hold. *)
Definition two_images : list node :=
  [Element (js "div") [] [img_with (js "a.png"); img_with (js "zzz.png")]].

(** A stylesheet stored under an absolute location that ends in abc123, and
    the location of a document beside it. *)
Definition css_abs : Part :=
  {| headers := ∅; contentType := js "text/css"; charset := js "utf-8";
     contentLocation := Some (js "https://example.com/abc123");
     contentId := None; buf := [x61]; text := Some (js "a") |}.

Definition doc_location : jsstr := js "https://example.com/index.html".

(** A part whose content id reads as a placeholder of the http scheme. *)
Definition weird_id : Part :=
  {| headers := ∅; contentType := js "image/png"; charset := js "utf-8";
     contentLocation := None; contentId := Some (js "http!h");
     buf := [x89]; text := None |}.

(** A raw part with the transfer encoding 7bit whose body ends in two
    dashes. *)
Definition dashed_raw : jsstr :=
  CRLF ++ js "Content-Transfer-Encoding: 7bit" ++ CRLF2 ++ js "i--" ++ CRLF.

(** * The earlier, network-based converter (lines 39-50) *)

(** [httpToHttps] (lines 39-44). *)
Definition httpToHttps (u : jsstr) : jsstr :=
  if negb (truthy u) then u
  else if startsWith u (js "//") then js "https:" ++ u
  else match strip_prefix (js "http://") u with
       | Some r => js "https://" ++ r
       | None => u
       end.

(** [isEmbedded] (lines 47-50): the two patterns, each alternative anchored
    at the start. *)
Definition isEmbedded (u : jsstr) : bool :=
  negb (truthy u)
  || startsWith_ci u (js "data:") || startsWith_ci u (js "cid:")
  || startsWith_ci u (js "blob:") || startsWith_ci u (js "mhtml:")
  || startsWith_ci u (js "cid!") || startsWith_ci u (js "about:blank")
  || isWeird u.

(** * Vocabulary of the further properties *)

(** A reference for which [resolveAgainst] returns before it looks at the
    base: empty, of an embedded scheme, a placeholder, or absolute. *)
Definition needs_no_base (href : jsstr) : bool :=
  negb (truthy href)
  || startsWith_ci href (js "data:") || startsWith_ci href (js "cid:")
  || startsWith_ci href (js "blob:") || startsWith_ci href (js "about:")
  || startsWith_ci href (js "file:")
  || isWeird href
  || startsWith_ci href (js "http://") || startsWith_ci href (js "https://").

(** No key of the index starts with the scheme of a data URI, bare or behind
    the cid scheme. *)
Definition no_data_keys (partMap : gmap jsstr Entry) : Prop :=
  forall k, is_Some (partMap !! k) ->
    startsWith k (js "data:") = false /\ startsWith k (js "cid:data:") = false.

(** A unit of a pattern that case folding leaves alone and that is neither
    white space nor a semicolon. *)
Definition plain_unit (a : N) : bool :=
  (ascii_lower a =? a) && (a <? 192) && negb (isSpace a) && negb (a =? 59).

(** What holds of every name in a header object. *)
Definition header_name (k : jsstr) : Prop :=
  k <> [] /\ toLowerCase k = k /\ (58 ∉ k) /\ k <> js "__proto__".

(** The selector of line 1341. *)
Definition is_hint_link (t : jsstr) (a : list (jsstr * jsstr)) : bool :=
  is_tag t (js "link")
  && (rel_is a (js "preconnect") || rel_is a (js "dns-prefetch")
      || rel_is a (js "preload") || rel_is a (js "prefetch")).

Abbreviation edit_fn := (jsstr -> list (jsstr * jsstr) -> list node -> edit).

(** The loop of [f] has nothing left to do in the tree [n]. *)
Definition settled (f : edit_fn) (n : node) : Prop :=
  every_element (fun t a ch => f t a ch = Keep a) n.

Definition text_only (ns : list node) : Prop :=
  Forall (fun n => exists d, n = TextNode d) ns.

(** What [g] makes of an element is settled for [f]. *)
Definition leaves_settled (f g : edit_fn) (t : jsstr)
  (a : list (jsstr * jsstr)) (ch : list node) : Prop :=
  match g t a ch with
  | Keep a' => forall ch', f t a' ch' = Keep a'
  | Fill a' ch' => (forall ch'', f t a' ch'' = Keep a') /\ text_only ch'
  | Replace ns => text_only ns
  end.

(** An edit that only acts on elements of one tag. *)
Definition acts_on (tag : jsstr) (g : edit_fn) : Prop :=
  forall t a ch, t <> tag -> g t a ch = Keep a.

(** An edit that puts in text at most. *)
Definition adds_text_only (g : edit_fn) : Prop :=
  forall t a ch,
    match g t a ch with
    | Keep _ => True
    | Fill _ ch' => text_only ch'
    | Replace ns => text_only ns
    end.

(** The first occurrence of [d] in [x ++ d] is the one at the end: the
    delimiter does not occur in the piece [x], nor astride its end. *)
Definition ends_piece (d x : jsstr) : Prop := cut_at d (x ++ d) = Some (x, []).

(** The pieces [raws], each behind a delimiter. *)
Definition delimited (d : jsstr) (raws : list jsstr) : jsstr :=
  concat (map (fun r => d ++ r) raws).

(** * Inputs of the further examples *)

(** A container whose boundary parameter sits on a continuation line, with
    one part whose type and charset are in mixed case. *)
Definition folded_container : list byte :=
  binary_buffer (crlf_lines
    [js "MIME-Version: 1.0";
     js "Content-Type: multipart/related;";
     js " boundary=XYZ";
     [];
     js "--XYZ";
     js "Content-Type: Text/HTML; Charset=UTF-8";
     js "Content-Location: https://example.com/";
     [];
     js "<p>hi</p>";
     js "--XYZ--"]).

(** The text of [folded_container] before its first delimiter, and between
    its two delimiters. *)
Definition folded_prologue : jsstr :=
  crlf_lines
    [js "MIME-Version: 1.0";
     js "Content-Type: multipart/related;";
     js " boundary=XYZ";
     []].

Definition folded_raw : jsstr :=
  CRLF ++ crlf_lines
    [js "Content-Type: Text/HTML; Charset=UTF-8";
     js "Content-Location: https://example.com/";
     [];
     js "<p>hi</p>"].

(** A container that names a boundary and holds no delimiter. *)
Definition bare_container : list byte :=
  binary_buffer (crlf_lines
    [js "Content-Type: multipart/related; boundary=XYZ";
     [];
     js "hello"]).

(** A document with a hint link and a link that is none. *)
Definition hint_doc : list node :=
  [Element (js "head") []
     [Element (js "link") [(js "rel", js "Preload"); (js "href", js "a.js")] [];
      Element (js "link") [(js "rel", js "author"); (js "href", js "me")] []];
   TextNode (js "hi")].

(** * Properties *)

(** ** Strings *)

Lemma take_drop_while (p : N -> bool) (s : jsstr) :
  take_while p s ++ drop_while p s = s.
Proof.
  induction s as [|c s IH]; simpl; [done|].
  destruct (p c); simpl; [by rewrite IH | done].
Qed.

Lemma strip_prefix_app (p s r : jsstr) :
  strip_prefix p s = Some r <-> s = p ++ r.
Proof.
  revert s; induction p as [|a p IH]; intros s; simpl.
  - split; [by intros [= ->] | by intros ->].
  - destruct s as [|c s].
    + split; [done | discriminate].
    + destruct (N.eqb_spec a c) as [->|Hne].
      * rewrite IH. split; [by intros -> | by intros [= ->]].
      * split; [done | intros [= -> _]; done].
Qed.

Lemma strip_prefix_refl (p r : jsstr) : strip_prefix p (p ++ r) = Some r.
Proof. by apply strip_prefix_app. Qed.

Lemma cut_at_Some (p s b r : jsstr) :
  cut_at p s = Some (b, r) -> s = b ++ p ++ r.
Proof.
  revert b; induction s as [|c s IH]; intros b; simpl.
  - destruct (strip_prefix p []) eqn:Hp; [|done].
    intros [= <- <-]. by apply strip_prefix_app in Hp.
  - destruct (strip_prefix p (c :: s)) eqn:Hp.
    + intros [= <- <-]. by apply strip_prefix_app in Hp.
    + destruct (cut_at p s) as [[b' r']|] eqn:Hc; [|done].
      intros [= <- <-]. simpl. f_equal. by apply IH.
Qed.

Lemma cut_at_None (p s : jsstr) : cut_at p s = None -> ~ occurs p s.
Proof.
  induction s as [|c s IH]; simpl.
  - destruct (strip_prefix p []) eqn:Hp; [done|]. intros _ (pre & post & H).
    destruct pre; [|done]. simpl in H.
    by rewrite H, strip_prefix_refl in Hp.
  - destruct (strip_prefix p (c :: s)) eqn:Hp; [done|].
    destruct (cut_at p s) as [[b r]|] eqn:Hc; [done|].
    intros _ (pre & post & H). destruct pre as [|c' pre].
    + simpl in H. by rewrite H, strip_prefix_refl in Hp.
    + injection H as -> ->. apply IH; [done|]. by exists pre, post.
Qed.

Lemma first_match_Some {A} (at_ : jsstr -> option A) (s : jsstr) (m : A) :
  first_match at_ s = Some m -> exists pre suf, s = pre ++ suf /\ at_ suf = Some m.
Proof.
  induction s as [|c s IH]; simpl.
  - destruct (at_ []) eqn:H; [|done]. intros [= <-]. by exists [], [].
  - destruct (at_ (c :: s)) eqn:H.
    + intros [= <-]. by exists [], (c :: s).
    + intros Hm. destruct (IH Hm) as (pre & suf & -> & Hs).
      by exists (c :: pre), suf.
Qed.

Lemma first_match_None {A} (at_ : jsstr -> option A) (s pre suf : jsstr) :
  first_match at_ s = None -> s = pre ++ suf -> at_ suf = None.
Proof.
  revert pre; induction s as [|c s IH]; intros pre; simpl.
  - destruct (at_ []) eqn:H; [done|]. intros _ Hs.
    symmetry in Hs. apply app_eq_nil in Hs as [_ ->]. done.
  - destruct (at_ (c :: s)) eqn:H; [done|]. intros Hm Hs.
    destruct pre as [|c' pre]; simpl in Hs.
    + by rewrite <- Hs.
    + injection Hs as _ ->. by apply (IH pre).
Qed.

(** [normKey] gives keys that it leaves as they are. *)

Lemma drop_while_clean (s : jsstr) : clean_head (drop_while isSpace s) = true.
Proof.
  induction s as [|c s IH]; simpl; [done|].
  destruct (isSpace c) eqn:Hc; [done|]. simpl. by rewrite Hc.
Qed.

Lemma clean_head_drop (s : jsstr) :
  clean_head s = true -> drop_while isSpace s = s.
Proof. destruct s as [|c s]; simpl; [done|]. by destruct (isSpace c). Qed.

Lemma clean_head_trim (u : jsstr) : clean_head (trim u) = true.
Proof.
  unfold trim. pose proof (drop_while_clean u) as Ha.
  set (a := drop_while isSpace u) in *.
  pose proof (take_drop_while isSpace (rev a)) as Hs.
  apply (f_equal (@rev N)) in Hs. rewrite rev_app_distr, rev_involutive in Hs.
  destruct (rev (drop_while isSpace (rev a))) as [|c r]; [done|].
  rewrite <- Hs in Ha. exact Ha.
Qed.

Lemma clean_head_rev_trim (u : jsstr) : clean_head (rev (trim u)) = true.
Proof. unfold trim. rewrite rev_involutive. apply drop_while_clean. Qed.

Lemma trim_clean (s : jsstr) :
  clean_head s = true -> clean_head (rev s) = true -> trim s = s.
Proof.
  intros H1 H2. unfold trim.
  by rewrite (clean_head_drop s H1), (clean_head_drop _ H2), rev_involutive.
Qed.

Lemma not_crlf_of_not_space (c : N) : isSpace c = false -> not_crlf c = true.
Proof.
  unfold not_crlf. destruct (N.eqb_spec c 13) as [->|_]; [done|].
  by destruct (N.eqb_spec c 10) as [->|_].
Qed.

Lemma to_slash_not_space (c : N) :
  isSpace c = false -> isSpace (to_slash c) = false.
Proof. unfold to_slash. by destruct (c =? 92). Qed.

Lemma to_slash_not_crlf (c : N) : not_crlf c = true -> not_crlf (to_slash c) = true.
Proof. unfold to_slash. by destruct (c =? 92). Qed.

Lemma to_slash_idem (c : N) : to_slash (to_slash c) = to_slash c.
Proof. unfold to_slash. by destruct (c =? 92) eqn:H; [|rewrite H]. Qed.

Lemma clean_head_norm (w : jsstr) :
  clean_head w = true ->
  clean_head (map to_slash (List.filter not_crlf w)) = true.
Proof.
  destruct w as [|c w]; simpl; [done|]. intros Hc.
  apply negb_true_iff in Hc. rewrite (not_crlf_of_not_space c Hc). simpl.
  by rewrite (to_slash_not_space c Hc).
Qed.

Lemma filter_map_not_crlf (w : jsstr) :
  List.filter not_crlf (map to_slash (List.filter not_crlf w))
    = map to_slash (List.filter not_crlf w).
Proof.
  induction w as [|c w IH]; simpl; [done|].
  destruct (not_crlf c) eqn:Hc; [|done]. simpl.
  by rewrite (to_slash_not_crlf c Hc), IH.
Qed.

Lemma normKey_idempotent (u : jsstr) : normKey (normKey u) = normKey u.
Proof.
  unfold normKey at 1. rewrite trim_clean.
  - unfold normKey. rewrite filter_map_not_crlf, map_map.
    apply map_ext. intros c. apply to_slash_idem.
  - apply clean_head_norm, clean_head_trim.
  - unfold normKey. rewrite <- map_rev, <- filter_rev.
    apply clean_head_norm, clean_head_rev_trim.
Qed.

(** ** The container parser *)

Section ParseFacts.
Context {P : Platform}.

Lemma parseMHTML_Throw (buffer : list byte) (e : error) :
  parseMHTML buffer = Throw e -> MalformedContainer e.
Proof.
  unfold parseMHTML, MalformedContainer.
  destruct (cut_at CRLF2 (binary_string buffer)) as [[h r]|];
    [|intros [= <-]; by left].
  destruct (first_match boundary_at _); [done|]. intros [= <-]. by right.
Qed.

(** The content id and the location of a part that the parser built are
    keys already: [normKey] leaves them as they are. *)
Lemma parse_part_normal (raw : jsstr) (p : Part) :
  parse_part raw = Some p ->
  (forall id, contentId p = Some id -> normKey id = id)
  /\ (forall loc, contentLocation p = Some loc -> normKey loc = loc).
Proof.
  unfold parse_part.
  destruct (negb (truthy (trim _))); [done|].
  destruct (cut_at CRLF2 _) as [[hb body]|]; [|done].
  intros [= <-]. simpl. split.
  - intros id. destruct (truthy_opt _); [|done].
    intros [= <-]. apply normKey_idempotent.
  - intros loc. destruct (truthy_opt _); [|done].
    intros [= <-]. apply normKey_idempotent.
Qed.

(** C2, as the code has it. A part whose transfer encoding mentions base64
    is always produced: its body, every white-space unit removed, goes to
    the base64 decoder of the platform, and what the decoder returns is the
    buffer of the part. The parser has no error for an encoding; what it
    throws is one of the two errors of the outer header. *)
Theorem base64_part_is_decoded (raw headerBlock bodyBin : jsstr) :
  let cooked := strip_end_marker (strip_leading_newline raw) in
  truthy (trim cooked) = true ->
  cut_at CRLF2 cooked = Some (headerBlock, bodyBin) ->
  includes (toLowerCase (header_or (parseHeaders headerBlock)
                           (js "content-transfer-encoding") []))
           (js "base64") = true ->
  (exists part,
      parse_part raw = Some part
      /\ buf part
         = base64_decode (List.filter (fun c => negb (isSpace c)) bodyBin))
  /\ forallb (fun c => negb (isSpace c))
       (List.filter (fun c => negb (isSpace c)) bodyBin) = true
  /\ forall buffer e, parseMHTML buffer = Throw e -> MalformedContainer e.
Proof.
  intros cooked Ht Hcut Henc. split; [|split].
  - unfold parse_part. fold cooked. rewrite Ht, Hcut. simpl.
    eexists. split; [reflexivity|]. simpl. unfold decode_body. by rewrite Henc.
  - apply forallb_forall. intros c Hc. by apply filter_In in Hc as [_ ?].
  - exact parseMHTML_Throw.
Qed.

(** ** The root document *)

Lemma insert_by_length_head (p : Part) (l : list Part) :
  head (insert_by_length p l) =
    Some (match head l with
          | None => p
          | Some q => if (length (buf q) <=? length (buf p))%nat then p else q
          end).
Proof.
  destruct l as [|q l]; simpl; [done|].
  by destruct (length (buf q) <=? length (buf p))%nat.
Qed.

Lemma sort_by_length_head (l : list Part) (r : Part) :
  head (sort_by_length l) = Some r ->
  exists before after,
    l = before ++ r :: after
    /\ (forall q, q ∈ before -> (length (buf q) < length (buf r))%nat)
    /\ (forall q, q ∈ after -> (length (buf q) <= length (buf r))%nat).
Proof.
  revert r; induction l as [|p l IH]; intros r; simpl; [done|].
  rewrite insert_by_length_head.
  destruct (head (sort_by_length l)) as [q|] eqn:Hq.
  - destruct (IH q eq_refl) as (b & a & -> & Hb & Ha).
    destruct (Nat.leb_spec (length (buf q)) (length (buf p))) as [Hle|Hlt];
      intros [= <-].
    + exists [], (b ++ q :: a). split; [done|]. split.
      * intros x Hx. by apply elem_of_nil in Hx.
      * intros x Hx. apply elem_of_app in Hx as [Hx|Hx].
        -- specialize (Hb x Hx). lia.
        -- apply elem_of_cons in Hx as [->|Hx]; [done|].
           specialize (Ha x Hx). lia.
    + exists (p :: b), a. split; [done|]. split; [|done].
      intros x Hx. apply elem_of_cons in Hx as [->|Hx]; [done | by apply Hb].
  - intros [= <-]. destruct l as [|p' l]; [|simpl in Hq].
    + exists [], []. split; [done|].
      split; intros x Hx; by apply elem_of_nil in Hx.
    + by rewrite insert_by_length_head in Hq.
Qed.

Lemma filter_split {A} (f : A -> bool) (l b a : list A) (r : A) :
  List.filter f l = b ++ r :: a ->
  exists B A', l = B ++ r :: A' /\ List.filter f B = b
             /\ List.filter f A' = a /\ f r = true.
Proof.
  revert b; induction l as [|x l IH]; intros b; simpl.
  - by destruct b.
  - destruct (f x) eqn:Hx.
    + destruct b as [|y b]; simpl.
      * intros [= -> Hl]. exists [], l. by rewrite Hl.
      * intros [= -> Hl]. destruct (IH b Hl) as (B & A' & -> & HB & HA & Hr).
        exists (y :: B), A'. simpl. by rewrite Hx, HB.
    + intros Hl. destruct (IH b Hl) as (B & A' & -> & HB & HA & Hr).
      exists (x :: B), A'. simpl. by rewrite Hx.
Qed.

Lemma filter_elem {A} (f : A -> bool) (l : list A) (x : A) :
  x ∈ l -> f x = true -> x ∈ List.filter f l.
Proof.
  intros Hin Hx. apply list_elem_of_In, filter_In. split; [|done].
  by apply list_elem_of_In.
Qed.

(** C4, as the code has it. The root is chosen among the parts whose
    content type begins with text/html: it is one of them, no such part is
    longer, and every such part before it in the container is strictly
    shorter, so the earliest of the longest wins. The choice fails, with the
    error of a missing root document, exactly when no content type begins
    with text/html, and the conversion then ends with that error. *)
Theorem select_root_spec (parts : list Part) :
  (select_root parts = Throw NoHtmlPart <->
     forall q, q ∈ parts -> is_html_part q = false)
  /\ (forall e, select_root parts = Throw e -> NoRootDocument e)
  /\ (forall r, select_root parts = Ok r ->
        is_html_part r = true
        /\ exists before after,
             parts = before ++ r :: after
             /\ (forall q, q ∈ before -> is_html_part q = true ->
                   (length (buf q) < length (buf r))%nat)
             /\ (forall q, q ∈ after -> is_html_part q = true ->
                   (length (buf q) <= length (buf r))%nat))
  /\ (forall buffer depth,
        parseMHTML buffer = Ok parts ->
        (forall q, q ∈ parts -> is_html_part q = false) ->
        convert depth buffer = Some (Throw NoHtmlPart)).
Proof.
  assert (select_root parts = Throw NoHtmlPart <->
            forall q, q ∈ parts -> is_html_part q = false) as Hiff.
  { unfold select_root.
    destruct (sort_by_length (List.filter is_html_part parts)) as [|r l] eqn:Hs.
    - split; [|done]. intros _ q Hq.
      destruct (is_html_part q) eqn:Hh; [|done].
      pose proof (filter_elem _ _ _ Hq Hh) as Hin.
      destruct (List.filter is_html_part parts) as [|x xs]; [by apply elem_of_nil in Hin|].
      simpl in Hs. pose proof (insert_by_length_head x (sort_by_length xs)) as H.
      by rewrite Hs in H.
    - split; [done|]. intros Hall. exfalso.
      assert (head (sort_by_length (List.filter is_html_part parts)) = Some r)
        as Hh by (by rewrite Hs).
      apply sort_by_length_head in Hh as (b & a & Hf & _).
      apply filter_split in Hf as (B & A' & -> & _ & _ & Hr).
      rewrite Hall in Hr; [done|]. rewrite elem_of_app, elem_of_cons. tauto. }
  split; [exact Hiff|]. split; [|split].
  - unfold select_root, NoRootDocument. intros e.
    destruct (sort_by_length _); [by intros [= <-] | done].
  - unfold select_root. intros r.
    destruct (sort_by_length (List.filter is_html_part parts)) as [|r' l] eqn:Hs;
      [done|]. intros [= ->].
    assert (head (sort_by_length (List.filter is_html_part parts)) = Some r)
      as Hh by (by rewrite Hs).
    apply sort_by_length_head in Hh as (b & a & Hf & Hb & Ha).
    apply filter_split in Hf as (B & A' & -> & HB & HA & Hr).
    split; [done|]. exists B, A'. split; [done|]. split.
    + intros q Hq Hh. apply Hb. rewrite <- HB. by apply filter_elem.
    + intros q Hq Hh. apply Ha. rewrite <- HA. by apply filter_elem.
  - intros buffer depth Hp Hall. unfold convert. rewrite Hp.
    by rewrite (proj2 Hiff Hall).
Qed.

End ParseFacts.

(** ** The index: lookups after [buildPartMap] *)

Section IndexFacts.
Context {P : Platform}.

Lemma addKey_lookup (key k : jsstr) (v : Entry) (m : gmap jsstr Entry) :
  addKey key v m !! k =
    match m !! k with
    | Some v' => Some v'
    | None => if truthy key && bool_decide (k = key) then Some v else None
    end.
Proof.
  unfold addKey. destruct (truthy key) eqn:Hk; simpl.
  - destruct (m !! key) eqn:Hm.
    + destruct (m !! k) eqn:Hmk; [done|].
      case_bool_decide; [congruence | done].
    + destruct (decide (k = key)) as [->|Hne].
      * rewrite lookup_insert_eq, Hm. by rewrite bool_decide_eq_true_2.
      * rewrite lookup_insert_ne by done.
        rewrite bool_decide_eq_false_2 by done. by destruct (m !! k).
  - by destruct (m !! k).
Qed.

Lemma addKeys_lookup (ks : list jsstr) (k : jsstr) (v : Entry)
  (m : gmap jsstr Entry) :
  foldl (fun m key => addKey key v m) m ks !! k =
    match m !! k with
    | Some v' => Some v'
    | None => if truthy k && bool_decide (k ∈ ks) then Some v else None
    end.
Proof.
  revert m; induction ks as [|key ks IH]; intros m; simpl.
  - rewrite andb_false_r. by destruct (m !! k).
  - rewrite IH, addKey_lookup. destruct (m !! k) eqn:Hm; [done|].
    destruct (decide (k = key)) as [->|Hne].
    + rewrite (bool_decide_eq_true_2 (key = key)) by done.
      rewrite (bool_decide_eq_true_2 (key ∈ key :: ks)) by left.
      rewrite andb_true_r. by destruct (truthy key).
    + rewrite (bool_decide_eq_false_2 (k = key)) by done.
      rewrite andb_false_r.
      destruct (truthy k); simpl; [|done].
      assert (bool_decide (k ∈ ks) = bool_decide (k ∈ key :: ks)) as ->; [|done].
      apply bool_decide_ext. rewrite elem_of_cons. tauto.
Qed.

Lemma register_keys (docBase : option jsstr) (m : gmap jsstr Entry) (p : Part) :
  register docBase m p =
    foldl (fun m key => addKey key (entry_of p) m) m (part_keys docBase p).
Proof.
  unfold register, part_keys. simpl.
  destruct (truthy_opt docBase && truthy_opt (contentLocation p));
    [destruct (url_resolve _ _)|]; destruct (truthy_opt (contentId p)); done.
Qed.

Lemma register_lookup (docBase : option jsstr) (m : gmap jsstr Entry)
  (p : Part) (k : jsstr) :
  register docBase m p !! k =
    match m !! k with
    | Some v => Some v
    | None => if registers docBase k p then Some (entry_of p) else None
    end.
Proof. rewrite register_keys. apply addKeys_lookup. Qed.

Lemma foldl_register_lookup (docBase : option jsstr) (parts : list Part)
  (m : gmap jsstr Entry) (k : jsstr) :
  foldl (register docBase) m parts !! k =
    match m !! k with
    | Some v => Some v
    | None => entry_of <$> List.find (registers docBase k) parts
    end.
Proof.
  revert m; induction parts as [|p parts IH]; intros m; simpl.
  - by destruct (m !! k).
  - rewrite IH, register_lookup. destruct (m !! k); [done|].
    by destruct (registers docBase k p).
Qed.

Lemma buildPartMap_first_wins_aux (parts : list Part)
  (docBase : option jsstr) (k : jsstr) :
  buildPartMap parts docBase !! k
    = entry_of <$> List.find (registers docBase k) parts
  /\ forall more, buildPartMap (parts ++ more) docBase !! k
    = or_else (buildPartMap parts docBase !! k)
              (buildPartMap more docBase !! k).
Proof.
  unfold buildPartMap. split.
  - by rewrite foldl_register_lookup, lookup_empty.
  - intros more. rewrite foldl_app.
    rewrite (foldl_register_lookup docBase more (foldl _ ∅ parts) k).
    rewrite (foldl_register_lookup docBase more ∅ k), lookup_empty.
    by destruct (foldl (register docBase) ∅ parts !! k).
Qed.

(** C5. For every sequence of parts and every key, the index maps the key
    to the entry of the first part of the sequence that registers itself
    under it, and to nothing when no part does; parts that come later, and
    share the key, change nothing: the lookup in the index of [parts ++ more]
    is the lookup in the index of [parts] whenever that one finds an entry. *)
Theorem buildPartMap_first_wins (parts more : list Part)
  (docBase : option jsstr) (k : jsstr) :
  buildPartMap parts docBase !! k
    = entry_of <$> List.find (registers docBase k) parts
  /\ buildPartMap (parts ++ more) docBase !! k
    = or_else (buildPartMap parts docBase !! k)
              (buildPartMap more docBase !! k).
Proof.
  destruct (buildPartMap_first_wins_aux parts docBase k) as [H1 H2].
  split; [exact H1 | apply H2].
Qed.

Lemma truthy_app_l (a b : jsstr) : truthy a = true -> truthy (a ++ b) = true.
Proof. by destruct a. Qed.

Lemma truthy_opt_Some (o : option jsstr) (s : jsstr) :
  o = Some s -> truthy s = true -> truthy_opt o = true.
Proof. by intros -> ?. Qed.

Lemma find_first {A} (f : A -> bool) (before after : list A) (x : A) :
  (forall y, y ∈ before -> f y = false) -> f x = true ->
  List.find f (before ++ x :: after) = Some x.
Proof.
  intros Hb Hx. induction before as [|y before IH]; simpl.
  - by rewrite Hx.
  - rewrite (Hb y) by left. apply IH. intros z Hz. apply Hb. by right.
Qed.

Lemma find_is_Some {A} (f : A -> bool) (l : list A) (x : A) :
  x ∈ l -> f x = true -> is_Some (List.find f l).
Proof.
  intros Hin Hx. induction l as [|y l IH]; [by apply elem_of_nil in Hin|].
  simpl. destruct (f y) eqn:Hy; [by eexists|].
  apply IH. apply elem_of_cons in Hin as [->|Hin]; [congruence | done].
Qed.

Lemma registers_cid_keys (docBase : option jsstr) (p : Part) (id k : jsstr) :
  contentId p = Some id -> truthy (normKey id) = true -> k ∈ cid_keys id ->
  registers docBase k p = true.
Proof.
  intros Hid Hn Hk. unfold registers.
  assert (truthy id = true) as Ht by (by destruct id).
  assert (truthy_opt (contentId p) = true) as Hc
    by (by apply (truthy_opt_Some _ id)).
  apply andb_true_iff. split.
  - unfold cid_keys in Hk. rewrite !elem_of_cons in Hk.
    destruct Hk as [->| [->| [->|Hk]]]; [done | done | done |].
    by apply elem_of_nil in Hk.
  - apply bool_decide_eq_true_2. unfold part_keys.
    apply elem_of_app; right. apply elem_of_app; right.
    rewrite Hc, Hid. cbn [or_empty].
    unfold cid_keys in Hk. rewrite !elem_of_cons in Hk |- *. tauto.
Qed.

(** C7, as the code has it. A part with content id [id] (from the header
    Content-ID with the angle brackets off) is found under the placeholder
    [cid!id@mhtml.blink], under [cid:id] and under [id] itself, and the three
    lookups give the same entry, the one of that part, provided no part
    before it in the container has registered one of the three keys: the
    first registration of a key stays. *)
Theorem cid_spellings_same_entry (before after : list Part) (p : Part)
  (docBase : option jsstr) (id : jsstr) :
  contentId p = Some id ->
  truthy (normKey id) = true ->
  (forall q k, q ∈ before -> k ∈ cid_keys id -> registers docBase k q = false) ->
  forall k, k ∈ cid_keys id ->
    buildPartMap (before ++ p :: after) docBase !! k = Some (entry_of p).
Proof.
  intros Hid Hn Hfree k Hk.
  destruct (buildPartMap_first_wins_aux (before ++ p :: after) docBase k) as [-> _].
  rewrite (find_first _ before after p); [done | |].
  - intros q Hq. by apply Hfree.
  - by apply (registers_cid_keys docBase p id).
Qed.

End IndexFacts.

(** ** The CSS rewriter *)

Lemma strip_prefix_ci_split (p s r : jsstr) :
  strip_prefix_ci p s = Some r ->
  exists m, s = m ++ r /\ length m = length p.
Proof.
  revert s; induction p as [|a p IH]; intros s; simpl.
  - intros [= ->]. by exists [].
  - destruct s as [|c s]; [done|]. destruct (ci_eqb a c); [|done].
    intros H. destruct (IH s H) as (m & -> & Hl).
    exists (c :: m). simpl. by rewrite Hl.
Qed.

Lemma drop_while_suffix (p : N -> bool) (s : jsstr) :
  drop_while p s `suffix_of` s.
Proof. exists (take_while p s). by rewrite take_drop_while. Qed.

Lemma import_tail_suffix (s r : jsstr) :
  import_tail s = Some r -> r `suffix_of` s.
Proof.
  unfold import_tail.
  destruct (drop_while _ s) as [|c t] eqn:Hd; [done|]. intros [= <-].
  transitivity (c :: t); [by apply suffix_cons_r|].
  rewrite <- Hd. apply drop_while_suffix.
Qed.

Lemma import_url_form_suffix (r2 g r : jsstr) :
  import_url_form r2 = Some (g, r) -> r `suffix_of` r2.
Proof.
  unfold import_url_form.
  destruct (take_while url_arg_unit _); [done|].
  destruct (drop_while isSpace (drop_while url_arg_unit _)) as [|c r5] eqn:Hd;
    [done|].
  destruct (c =? 41); [|done].
  destruct (import_tail r5) as [r'|] eqn:Ht; [|done]. intros [= _ <-].
  apply import_tail_suffix in Ht.
  transitivity r5; [done|]. transitivity (c :: r5); [by apply suffix_cons_r|].
  rewrite <- Hd.
  transitivity (drop_while url_arg_unit (drop_while isSpace r2));
    [apply drop_while_suffix|].
  transitivity (drop_while isSpace r2); apply drop_while_suffix.
Qed.

Lemma import_quoted_form_suffix (r1 g r : jsstr) :
  import_quoted_form r1 = Some (g, r) -> r `suffix_of` r1.
Proof.
  unfold import_quoted_form. destruct r1 as [|q r2]; [done|].
  destruct (isQuote q); [|done].
  destruct (drop_while _ r2) as [|q' r3] eqn:Hd; [done|].
  destruct (q' =? q); [|done].
  destruct (import_tail r3) as [r'|] eqn:Ht; [|done]. intros [= _ <-].
  apply import_tail_suffix in Ht.
  transitivity r3; [done|]. transitivity (q' :: r3); [by apply suffix_cons_r|].
  rewrite <- Hd. apply suffix_cons_r. apply drop_while_suffix.
Qed.

Lemma import_at_split (s g r : jsstr) :
  import_at s = Some (g, r) ->
  exists m, s = m ++ r /\ (0 < length m)%nat.
Proof.
  unfold import_at.
  destruct (strip_prefix_ci (js "@import") s) as [[|c r0]|] eqn:Hk; [done| |done].
  apply strip_prefix_ci_split in Hk as (m0 & -> & Hm0).
  destruct (isSpace c); [|done].
  assert (r `suffix_of` c :: r0 ->
          exists m, m0 ++ c :: r0 = m ++ r /\ (0 < length m)%nat) as Hfin.
  { intros [k ->]. exists (m0 ++ k). rewrite <- app_assoc. split; [done|].
    rewrite length_app, Hm0. simpl. lia. }
  destruct (strip_prefix_ci (js "url(") _) as [r2|] eqn:Hu.
  - intros H. apply Hfin. apply import_url_form_suffix in H.
    apply strip_prefix_ci_split in Hu as (mu & Hu & _).
    transitivity r2; [done|].
    transitivity (drop_while isSpace (c :: r0)); [|apply drop_while_suffix].
    rewrite Hu. by apply suffix_app_r.
  - intros H. apply Hfin. apply import_quoted_form_suffix in H.
    transitivity (drop_while isSpace (c :: r0)); [done | apply drop_while_suffix].
Qed.

Lemma next_import_cons (c : N) (s : jsstr) :
  next_import (c :: s) =
    match import_at (c :: s) with
    | Some (g, r) =>
        Some (mkMatch [] g (take (length (c :: s) - length r) (c :: s)) r)
    | None =>
        match next_import s with
        | Some m =>
            Some (mkMatch (c :: m_before m) (m_target m) (m_text m) (m_rest m))
        | None => None
        end
    end.
Proof. reflexivity. Qed.

Lemma next_import_split (s : jsstr) (m : import_match) :
  next_import s = Some m ->
  s = m_before m ++ m_text m ++ m_rest m
  /\ (0 < length (m_text m))%nat.
Proof.
  revert m; induction s as [|c s IH]; intros m.
  - simpl. destruct (import_at []) as [[g r]|] eqn:Ha; [|done].
    apply import_at_split in Ha as (k & Hk & Hl). by destruct k.
  - rewrite next_import_cons.
    destruct (import_at (c :: s)) as [[g r]|] eqn:Ha.
    + intros [= <-]. cbn [m_before m_text m_rest].
      apply import_at_split in Ha as (k & Hk & Hl).
      change (S (length s)) with (length (c :: s)).
      assert (take (length (c :: s) - length r) (c :: s) = k) as ->.
      { rewrite Hk, length_app, Nat.add_sub. by rewrite take_app_length. }
      by rewrite Hk.
    + destruct (next_import s) as [m'|] eqn:Hn; [|done]. intros [= <-].
      cbn [m_before m_text m_rest].
      destruct (IH m' eq_refl) as [Hs Hl]. split; [|done].
      rewrite Hs at 1. done.
Qed.

Lemma next_import_shorter (s : jsstr) (m : import_match) :
  next_import s = Some m -> (length (m_rest m) < length s)%nat.
Proof.
  intros H. apply next_import_split in H as [Hs Hl].
  apply (f_equal length) in Hs. rewrite !length_app in Hs. lia.
Qed.

Lemma segments_go_enough (n k : nat) (s : jsstr) :
  (length s <= n)%nat -> (length s <= k)%nat ->
  segments_go n s = segments_go k s.
Proof.
  revert k s; induction n as [|n IH]; intros k s Hn Hk.
  - destruct s; [|simpl in Hn; lia]. by destruct k.
  - destruct k as [|k].
    + destruct s; [|simpl in Hk; lia]. done.
    + simpl. destruct (next_import s) as [m|] eqn:Hm; [|done].
      apply next_import_shorter in Hm. do 2 f_equal. apply IH; lia.
Qed.

(** The loop of the source, one match after the other. *)
Lemma segments_unfold (s : jsstr) :
  segments s =
    match next_import s with
    | None => [Lit s]
    | Some m => Lit (m_before m) :: Import (m_target m) (m_text m)
                  :: segments (m_rest m)
    end.
Proof.
  unfold segments. destruct s as [|c s]; [done|].
  cbn [length segments_go].
  destruct (next_import (c :: s)) as [m|] eqn:Hm; [|done].
  apply next_import_shorter in Hm. simpl in Hm.
  do 2 f_equal. apply segments_go_enough; lia.
Qed.

Lemma segments_go_source (n : nat) (s : jsstr) :
  concat (map seg_source (segments_go n s)) = s.
Proof.
  revert s; induction n as [|n IH]; intros s; simpl.
  - by rewrite app_nil_r.
  - destruct (next_import s) as [m|] eqn:Hm; simpl.
    + rewrite IH. by apply next_import_split in Hm as [<- _].
    + by rewrite app_nil_r.
Qed.

Lemma at_free_app (a b : jsstr) : at_free a -> at_free b -> at_free (a ++ b).
Proof. unfold at_free. rewrite elem_of_app. tauto. Qed.

Lemma at_free_no_keyword (s : jsstr) : at_free s -> ~ has_import_keyword s.
Proof.
  intros Hf (pre & suf & -> & Hk). apply Hf.
  unfold startsWith_ci in Hk.
  destruct (strip_prefix_ci (js "@import") suf) as [r|] eqn:Hs; [|done].
  change (js "@import") with (64 :: js "import") in Hs.
  destruct suf as [|c suf]; [done|]. cbn [strip_prefix_ci] in Hs.
  destruct (ci_eqb 64 c) eqn:Hc; [|done].
  apply elem_of_app; right. unfold ci_eqb, ascii_lower in Hc.
  change ((65 <=? 64) && (64 <=? 90)) with false in Hc. cbv iota in Hc.
  destruct ((65 <=? c) && (c <=? 90)) eqn:Hr.
  - apply andb_true_iff in Hr as [H1 H2].
    apply N.leb_le in H1, H2. apply N.eqb_eq in Hc. lia.
  - apply N.eqb_eq in Hc. subst c. left.
Qed.

Section CssFacts.
Context {P : Platform}.

Lemma inlineCssImportsWithMap_S (d : nat) (css : jsstr)
  (base : option jsstr) (partMap : gmap jsstr Entry) :
  inlineCssImportsWithMap (S d) css base partMap =
    import_loop (fun c b => inlineCssImportsWithMap d c b partMap)
      partMap base (segments css).
Proof. by destruct css. Qed.

Lemma import_loop_mono (self1 self2 : jsstr -> option jsstr -> option jsstr)
  (partMap : gmap jsstr Entry) (base : option jsstr) (segs : list segment)
  (out : jsstr) :
  (forall c b o, self1 c b = Some o -> self2 c b = Some o) ->
  import_loop self1 partMap base segs = Some out ->
  import_loop self2 partMap base segs = Some out.
Proof.
  intros Hs. revert out; induction segs as [|[t|g src] segs IH]; intros out;
    simpl; [done| |].
  - destruct (import_loop self1 _ _ segs); [|done].
    by rewrite (IH _ eq_refl).
  - destruct (import_hit partMap base g) as [hit|]; [|by apply IH].
    destruct (self1 _ _) as [c|] eqn:Hc; [|done]. rewrite (Hs _ _ _ Hc).
    destruct (import_loop self1 _ _ segs); [|done].
    by rewrite (IH _ eq_refl).
Qed.

(** A call that returns with [n] nested calls allowed returns the same with
    more. *)
Lemma inlineCssImportsWithMap_mono (n : nat) (css : jsstr)
  (base : option jsstr) (partMap : gmap jsstr Entry) (out : jsstr) :
  inlineCssImportsWithMap n css base partMap = Some out ->
  forall k, (n <= k)%nat -> inlineCssImportsWithMap k css base partMap = Some out.
Proof.
  revert css base out; induction n as [|n IH]; intros css base out; [done|].
  intros H k Hk. destruct k as [|k]; [lia|].
  rewrite inlineCssImportsWithMap_S in H |- *.
  apply (import_loop_mono _ _ _ _ _ _ (fun c b o Ho => IH c b o Ho k ltac:(lia))).
  exact H.
Qed.

Lemma import_loop_returns (self : jsstr -> option jsstr -> option jsstr)
  (partMap : gmap jsstr Entry) (base : option jsstr) (segs : list segment) :
  (forall g src hit, Import g src ∈ segs ->
     import_hit partMap base g = Some hit ->
     is_Some (self (text_of hit) (base_of hit base))) ->
  is_Some (import_loop self partMap base segs).
Proof.
  induction segs as [|[t|g src] segs IH]; intros H; simpl; [by eexists| |].
  - destruct IH as [o ->]; [|by eexists].
    intros g src hit Hin. apply (H g src). by right.
  - assert (is_Some (import_loop self partMap base segs)) as [o Ho].
    { apply IH. intros g' src' hit Hin. apply (H g' src'). by right. }
    destruct (import_hit partMap base g) as [hit|] eqn:Hh; [|by eexists].
    destruct (H g src hit (ltac:(left)) Hh) as [c ->]. rewrite Ho. by eexists.
Qed.

(** C1, as the code has it. The rewrite returns whenever the imports that
    resolve in the index nest to a finite depth: with at most [d] levels it
    returns within [d + 1] nested calls, and with the same result however
    many more are allowed. The code keeps no set of visited targets, and
    nothing is said here of imports that nest without end. *)
Theorem imports_return_when_nesting_is_bounded (d : nat) (css : jsstr)
  (base : option jsstr) (partMap : gmap jsstr Entry) :
  import_nesting_le d partMap css base ->
  exists out, forall n, (d < n)%nat ->
    inlineCssImportsWithMap n css base partMap = Some out.
Proof.
  intros Hn.
  assert (is_Some (inlineCssImportsWithMap (S d) css base partMap)) as [out Ho].
  { revert css base Hn; induction d as [|d IH]; intros css base Hn;
      rewrite inlineCssImportsWithMap_S; apply import_loop_returns;
      intros g src hit Hin Hh; specialize (Hn g src hit Hin Hh).
    - done.
    - by apply IH. }
  exists out. intros n Hlt.
  apply (inlineCssImportsWithMap_mono (S d)); [done | lia].
Qed.

Lemma import_loop_pieces (d : nat) (partMap : gmap jsstr Entry)
  (base : option jsstr) (segs : list segment) (out : jsstr) :
  import_loop (fun c b => inlineCssImportsWithMap d c b partMap)
    partMap base segs = Some out ->
  exists pieces,
    Forall2 (piece_of d partMap base) segs pieces /\ out = concat pieces.
Proof.
  revert out; induction segs as [|[t|g src] segs IH]; intros out; simpl.
  - intros [= <-]. exists []. by split; [constructor|].
  - destruct (import_loop _ _ _ segs) as [o|]; [|done]. intros [= <-].
    destruct (IH o eq_refl) as (ps & Hf & ->).
    exists (t :: ps). split; [by constructor | done].
  - destruct (import_hit partMap base g) as [hit|] eqn:Hh.
    + destruct (inlineCssImportsWithMap d _ _ _) as [c|] eqn:Hc; [|done].
      destruct (import_loop _ _ _ segs) as [o|]; [|done]. intros [= <-].
      destruct (IH o eq_refl) as (ps & Hf & ->).
      eexists (_ :: ps). split; [|reflexivity].
      constructor; [|done]. simpl. rewrite Hh. by exists c.
    + intros Ho. destruct (IH out Ho) as (ps & Hf & ->).
      exists ([] :: ps). split; [|done].
      constructor; [|done]. simpl. by rewrite Hh.
Qed.

End CssFacts.

(** ** The HTML rewriter *)

Lemma node_ind' (Q : node -> Prop) :
  (forall d, Q (TextNode d)) ->
  (forall t a ch, Forall Q ch -> Q (Element t a ch)) ->
  forall n, Q n.
Proof.
  intros Ht He. fix IH 1. intros [d|t a ch]; [apply Ht|].
  apply He. induction ch as [|x ch IHch]; constructor; [apply IH | apply IHch].
Qed.

Lemma every_element_children
  (Q : jsstr -> list (jsstr * jsstr) -> list node -> Prop) (t : jsstr)
  (a : list (jsstr * jsstr)) (ch : list node) :
  every_element Q (Element t a ch) <->
  Q t a ch /\ Forall (every_element Q) ch.
Proof.
  simpl. apply and_iff_compat_l.
  induction ch as [|x ch IH].
  - split; [constructor | done].
  - split.
    + intros [Hx Hr]. constructor; [done | by apply IH].
    + intros H. inversion_clear H as [|? ? Hx Hr]. split; [done | by apply IH].
Qed.

Lemma walk_keep (f : jsstr -> list (jsstr * jsstr) -> list node -> edit)
  (n : node) :
  every_element (fun t a ch => f t a ch = Keep a) n -> walk f n = [n].
Proof.
  induction n as [d|t a ch IH] using node_ind'; [done|].
  rewrite every_element_children. intros [Hq Hch]. simpl. rewrite Hq.
  do 2 f_equal. clear Hq. induction ch as [|x ch IHch]; [done|].
  inversion_clear IH as [|? ? Hx IH']. inversion_clear Hch as [|? ? Qx Hch'].
  simpl. rewrite (Hx Qx). simpl. f_equal. by apply IHch.
Qed.

Lemma walk_all_keep (f : jsstr -> list (jsstr * jsstr) -> list node -> edit)
  (doc : list node) :
  Forall (every_element (fun t a ch => f t a ch = Keep a)) doc ->
  flat_map (walk f) doc = doc.
Proof.
  induction 1 as [|x doc Hx _ IH]; [done|].
  simpl. rewrite (walk_keep f x Hx), IH. done.
Qed.

Lemma every_element_impl
  (Q Q' : jsstr -> list (jsstr * jsstr) -> list node -> Prop) (n : node) :
  (forall t a ch, Q t a ch -> Q' t a ch) ->
  every_element Q n -> every_element Q' n.
Proof.
  intros Himp. induction n as [d|t a ch IH] using node_ind'; [done|].
  rewrite !every_element_children. intros [Hq Hch]. split; [by apply Himp|].
  clear Hq. induction ch as [|x ch IHch]; [constructor|].
  inversion_clear IH as [|? ? Hx IH']. inversion_clear Hch as [|? ? Qx Hch'].
  constructor; [by apply Hx | by apply IHch].
Qed.

Section HtmlFacts.
Context {P : Platform}.

Lemma img_edit_miss (partMap : gmap jsstr Entry) (docBase : option jsstr)
  (t : jsstr) (a : list (jsstr * jsstr)) (ch : list node) :
  ref_hit partMap docBase (or_empty (get_attr (js "src") a)) = None ->
  img_edit partMap docBase t a ch = Keep a.
Proof. unfold img_edit. intros ->. by destruct (_ && _). Qed.

Lemma script_edit_miss (partMap : gmap jsstr Entry) (docBase : option jsstr)
  (t : jsstr) (a : list (jsstr * jsstr)) (ch : list node) :
  ref_hit partMap docBase (or_empty (get_attr (js "src") a)) = None ->
  script_edit partMap docBase t a ch = Keep a.
Proof. unfold script_edit. intros ->. by destruct (_ && _). Qed.

Lemma icon_edit_miss (partMap : gmap jsstr Entry) (docBase : option jsstr)
  (t : jsstr) (a : list (jsstr * jsstr)) (ch : list node) :
  ref_hit partMap docBase (or_empty (get_attr (js "href") a)) = None ->
  icon_edit partMap docBase t a ch = Keep a.
Proof. unfold icon_edit. intros ->. by destruct (_ && _). Qed.

Lemma anchor_edit_miss (partMap : gmap jsstr Entry)
  (t : jsstr) (a : list (jsstr * jsstr)) (ch : list node) :
  anchor_hit partMap (or_empty (get_attr (js "href") a)) = None ->
  anchor_edit partMap t a ch = Keep a.
Proof. unfold anchor_edit. intros ->. by destruct (_ && _). Qed.

Lemma rewrite_css_node_miss (partMap : gmap jsstr Entry)
  (baseHref : option jsstr) (n : css_node) :
  (forall v, n = Url v -> css_url_hit partMap baseHref (strip_quotes v) = None) ->
  rewrite_css_node partMap baseHref n = n.
Proof.
  destruct n as [v|src]; [|done]. intros H. simpl.
  destruct (truthy v); [|done]. simpl.
  destruct (startsWith _ _); [done|]. by rewrite (H v eq_refl).
Qed.

(** C9, at the input that breaks it. The first pass puts the data URI of
    the first image into the src; the index holds a second part under that
    very data URI, the loop over images looks a data URI up like any other
    reference, and the second pass puts the data URI of the second part
    there. The callback for CSS leaves a data URI alone. *)
Theorem second_pass_changes_image (depth : nat) :
  let partMap := buildPartMap [pic_a; pic_b] None in
  rewriteDom depth [img_with (js "a.png")] None partMap
    = Some [img_with (js "data:image/png;base64,QQ==")]
  /\ rewriteDom depth [img_with (js "data:image/png;base64,QQ==")] None partMap
    = Some [img_with (js "data:image/gif;base64,Qg==")]
  /\ rewrite_css_node partMap None (Url (js "data:image/png;base64,QQ=="))
    = Url (js "data:image/png;base64,QQ==").
Proof. intros partMap. repeat split; vm_compute; reflexivity. Qed.

End HtmlFacts.

(** ** The index on concrete containers *)

(** C7 fails as stated: with a stylesheet stored under the location abc123
    before the image whose content id is abc123, the bare spelling leads to
    the stylesheet and the two cid spellings lead to the image. *)
Lemma cid_spellings_split :
  contentId png_abc = Some (js "abc123")
  /\ forall P : Platform,
       buildPartMap [css_abc; png_abc] None !! js "abc123"
         = Some (entry_of css_abc)
       /\ buildPartMap [css_abc; png_abc] None !! js "cid:abc123"
         = Some (entry_of png_abc)
       /\ buildPartMap [css_abc; png_abc] None !! js "cid!abc123@mhtml.blink"
         = Some (entry_of png_abc)
       /\ dataURI (entry_of css_abc) <> dataURI (entry_of png_abc).
Proof.
  split; [reflexivity|]. intros P.
  repeat split; try (vm_compute; reflexivity).
  vm_compute. discriminate.
Qed.

Lemma cid_spellings_same_entry_witness :
  strip_angles (js "<abc123>") = js "abc123"
  /\ forall P : Platform,
       exists p,
         parse_part cid_raw = Some p
         /\ contentId p = Some (js "abc123")
         /\ buildPartMap [css_main; p; gif_abc] None !! js "cid:abc123"
            = Some (entry_of p).
Proof.
  split; [reflexivity|]. intros P.
  destruct (parse_part cid_raw) as [p|] eqn:Hp;
    [|vm_compute in Hp; discriminate].
  assert (contentId p = Some (js "abc123")) as Hid
    by (vm_compute in Hp; injection Hp as <-; reflexivity).
  exists p. split; [reflexivity|]. split; [exact Hid|].
  apply (cid_spellings_same_entry [css_main] [gif_abc] p None (js "abc123")).
  - exact Hid.
  - reflexivity.
  - intros q k Hq Hk. apply list_elem_of_singleton in Hq. subst q.
    unfold cid_keys in Hk. rewrite !elem_of_cons in Hk.
    destruct Hk as [->| [->| [->|Hk]]]; [reflexivity | reflexivity | reflexivity |].
    by apply elem_of_nil in Hk.
  - unfold cid_keys. apply elem_of_cons; right. apply elem_of_cons; left.
    reflexivity.
Defined.

(** ** The parser and the root on concrete containers *)

(** C2 fails as stated: a base64 body with a dollar sign in it is no error;
    the part comes out with the bytes the decoder makes of the body. *)
Lemma base64_dollar_is_no_error :
  existsb (fun c => negb (base64_unit c)) (js "aGk$") = true
  /\ forall P : Platform,
       exists part,
         parseMHTML bad_base64_container = Ok [part]
         /\ buf part = base64_decode (js "aGk$").
Proof.
  split; [reflexivity|]. intros P.
  set (r := parseMHTML bad_base64_container). vm_compute in r. subst r.
  eexists. split; reflexivity.
Qed.

Lemma base64_part_is_decoded_witness :
  truthy (trim (strip_end_marker (strip_leading_newline base64_raw))) = true
  /\ forall P : Platform,
       exists part,
         parse_part base64_raw = Some part
         /\ buf part = base64_decode (js "aGk$").
Proof.
  split; [reflexivity|]. intros P.
  destruct (base64_part_is_decoded base64_raw
              (js "Content-Type: image/png" ++ CRLF
                 ++ js "Content-Transfer-Encoding: BASE64")
              (js "aG k$" ++ CRLF)) as [H _];
    [reflexivity | reflexivity | reflexivity |].
  exact H.
Defined.

(** C4 fails as stated: a part of type text/htmlx is taken as the root, before
    a text/html part that is shorter, and a container whose only part is of
    type text/htmlx has a root. *)
Lemma root_need_not_be_text_html :
  select_root [htmlx_part; html_part] = Ok htmlx_part
  /\ select_root [htmlx_part] = Ok htmlx_part
  /\ contentType htmlx_part <> js "text/html"
  /\ contentType html_part = js "text/html".
Proof. repeat split; try reflexivity. vm_compute. discriminate. Qed.

(** ** The CSS rewriter on concrete stylesheets *)

Lemma at_free_forallb (s : jsstr) :
  forallb (fun c => negb (c =? 64)) s = true -> at_free s.
Proof.
  unfold at_free. induction s as [|c s IH]; simpl.
  - intros _. apply not_elem_of_nil.
  - intros H. apply andb_true_iff in H as [Hc Hs].
    apply not_elem_of_cons. split; [|by apply IH].
    intros <-. done.
Qed.

Lemma import_hit_empty {P : Platform} (base : option jsstr) (g : jsstr) :
  import_hit ∅ base g = None.
Proof. unfold import_hit. by rewrite !lookup_empty. Qed.

(** C1 fails as stated: of two stylesheets that import each other, each
    target resolving to the other part, the rewrite of the first returns
    within no number of nested calls. *)
Lemma mutual_imports_never_return :
  segments css_a = [Lit []; Import loc_b css_a; Lit []]
  /\ forall P : Platform,
       import_hit (buildPartMap [cyc_a; cyc_b] None) (Some loc_a) loc_b
         = Some (entry_of cyc_b)
       /\ import_hit (buildPartMap [cyc_a; cyc_b] None) (Some loc_b) loc_a
         = Some (entry_of cyc_a)
       /\ forall depth,
            inlineCssImportsWithMap depth css_a (Some loc_a)
              (buildPartMap [cyc_a; cyc_b] None) = None.
Proof.
  split; [vm_compute; reflexivity|]. intros P.
  set (partMap := buildPartMap [cyc_a; cyc_b] None).
  assert (import_hit partMap (Some loc_a) loc_b = Some (entry_of cyc_b)) as Hab
    by (vm_compute; reflexivity).
  assert (import_hit partMap (Some loc_b) loc_a = Some (entry_of cyc_a)) as Hba
    by (vm_compute; reflexivity).
  assert (segments css_a = [Lit []; Import loc_b css_a; Lit []]) as Hsa
    by (vm_compute; reflexivity).
  assert (segments css_b = [Lit []; Import loc_a css_b; Lit []]) as Hsb
    by (vm_compute; reflexivity).
  split; [exact Hab|]. split; [exact Hba|].
  assert (forall depth,
            inlineCssImportsWithMap depth css_a (Some loc_a) partMap = None
            /\ inlineCssImportsWithMap depth css_b (Some loc_b) partMap = None)
    as Hboth; [|intros depth; apply Hboth].
  induction depth as [|d [IHa IHb]]; [done|].
  rewrite !inlineCssImportsWithMap_S, Hsa, Hsb. cbn [import_loop].
  rewrite Hab, Hba.
  change (text_of (entry_of cyc_b)) with css_b.
  change (text_of (entry_of cyc_a)) with css_a.
  change (base_of (entry_of cyc_b) (Some loc_a)) with (Some loc_b).
  change (base_of (entry_of cyc_a) (Some loc_b)) with (Some loc_a).
  by rewrite IHa, IHb.
Qed.

Lemma imports_return_witness :
  segments css_top
    = [Lit []; Import (js "https://example.com/main.css")
                 (js "@import url(https://example.com/main.css);");
       Lit (js " p{}")]
  /\ forall P : Platform,
       exists out, forall n, (1 < n)%nat ->
         inlineCssImportsWithMap n css_top None (buildPartMap [css_main] None)
           = Some out.
Proof.
  split; [vm_compute; reflexivity|]. intros P.
  apply (imports_return_when_nesting_is_bounded 1 css_top None
           (buildPartMap [css_main] None)).
  intros g src hit Hin Hh.
  assert (segments css_top
            = [Lit []; Import (js "https://example.com/main.css")
                         (js "@import url(https://example.com/main.css);");
               Lit (js " p{}")]) as Hs by (vm_compute; reflexivity).
  rewrite Hs in Hin. rewrite !elem_of_cons in Hin.
  destruct Hin as [Hin| [Hin| [Hin|Hin]]];
    [discriminate | | discriminate | by apply elem_of_nil in Hin].
  injection Hin as -> ->.
  assert (import_hit (buildPartMap [css_main] None) None
            (js "https://example.com/main.css") = Some (entry_of css_main))
    as Hm by (vm_compute; reflexivity).
  rewrite Hm in Hh. injection Hh as <-.
  intros g' src' hit' Hin' _.
  change (text_of (entry_of css_main)) with (js "b") in Hin'.
  assert (segments (js "b") = [Lit (js "b")]) as Hb by (vm_compute; reflexivity).
  rewrite Hb in Hin'. apply list_elem_of_singleton in Hin'. discriminate.
Defined.

(** C6 fails as stated: an import rule that ends with the stylesheet, without
    a semicolon, comes out as it went in; and dropping a statement can leave
    an import rule that the pattern of the rewriter itself finds in the
    output. *)
Lemma unterminated_import_stays :
  has_import_keyword (js "@import 'a.css'")
  /\ (forall P : Platform,
        inlineCssImportsWithMap 1 (js "@import 'a.css'") None ∅
          = Some (js "@import 'a.css'"))
  /\ (forall P : Platform,
        inlineCssImportsWithMap 1 (js "@import @import 'x';'y.css';") None ∅
          = Some (js "@import 'y.css';"))
  /\ segments (js "@import 'y.css';")
     = [Lit []; Import (js "y.css") (js "@import 'y.css';"); Lit []].
Proof.
  split; [|split; [|split]].
  - exists [], (js "@import 'a.css'"). split; reflexivity.
  - intros P. vm_compute. reflexivity.
  - intros P. vm_compute. reflexivity.
  - vm_compute. reflexivity.
Qed.

(** ** The HTML rewriter on concrete documents *)

(** C8 fails as stated: a stylesheet link whose reference is a cid
    placeholder that matches nothing is no hint link, and the rewriter takes
    it away; an import rule whose url matches nothing is dropped. *)
Lemma unresolved_placeholder_link_is_removed :
  hint_edit (js "link") placeholder_attrs [] = Keep placeholder_attrs
  /\ (forall (P : Platform) depth,
        link_hit ∅ None (js "cid!x@mhtml.blink") = None
        /\ rewriteDom depth [placeholder_link] None ∅ = Some [])
  /\ (forall P : Platform,
        inlineCssImportsWithMap 1 (js "@import url(x.css);") None ∅ = Some []).
Proof.
  split; [reflexivity|]. split.
  - intros P depth. split; vm_compute; reflexivity.
  - intros P. vm_compute. reflexivity.
Qed.

(** * Further properties of the code *)

(** ** Keys *)

Ltac case_N :=
  repeat (match goal with
          | |- context [N.leb ?a ?b] => destruct (N.leb_spec a b)
          | |- context [N.eqb ?a ?b] => destruct (N.eqb_spec a b)
          end; cbn [andb orb negb]);
  try lia; try done.

(** Closes a goal that says a unit of a known range is no white space. *)
Ltac no_space :=
  unfold isSpace;
  repeat match goal with
         | |- context [N.eqb ?a ?b] => rewrite (proj2 (N.eqb_neq a b)) by lia
         | |- context [N.leb ?a ?b] =>
             first [ rewrite (proj2 (N.leb_gt a b)) by lia
                   | rewrite (proj2 (N.leb_le a b)) by lia ]
         end;
  reflexivity.

Lemma elem_of_rev {A} (l : list A) (x : A) : x ∈ rev l <-> x ∈ l.
Proof. rewrite !list_elem_of_In. symmetry. apply in_rev. Qed.

Lemma not_in_forallb (x : N) (s : jsstr) :
  forallb (fun c => negb (c =? x)) s = true -> x ∉ s.
Proof.
  induction s as [|c s IH]; simpl.
  - intros _. apply not_elem_of_nil.
  - intros [Hc Hs]%andb_true_iff. apply not_elem_of_cons.
    split; [|by apply IH]. intros <-. by rewrite N.eqb_refl in Hc.
Qed.

Lemma take_while_holds (p : N -> bool) (s : jsstr) (c : N) :
  c ∈ take_while p s -> p c = true.
Proof.
  induction s as [|d s IH]; simpl; [by intros ?%elem_of_nil|].
  destruct (p d) eqn:Hd; [|by intros ?%elem_of_nil].
  intros [->|H]%elem_of_cons; [done|by apply IH].
Qed.

Lemma take_while_app_stop (p : N -> bool) (a : jsstr) (c : N) (t : jsstr) :
  (forall x, x ∈ a -> p x = true) -> p c = false ->
  take_while p (a ++ c :: t) = a /\ drop_while p (a ++ c :: t) = c :: t.
Proof.
  intros Ha Hc. induction a as [|x a IH]; simpl.
  - by rewrite Hc.
  - rewrite (Ha x) by left. destruct IH as [-> ->]; [|done].
    intros y Hy. apply Ha. by right.
Qed.

Lemma take_while_app_all (p : N -> bool) (m r : jsstr) :
  (forall c, c ∈ m -> p c = true) ->
  take_while p (m ++ r) = m ++ take_while p r.
Proof.
  induction m as [|c m IH]; intros H; simpl; [done|].
  rewrite (H c) by left. rewrite IH; [done|]. intros x Hx. apply H. by right.
Qed.

Lemma drop_while_sublist (p : N -> bool) (s : jsstr) (c : N) :
  c ∈ drop_while p s -> c ∈ s.
Proof.
  induction s as [|d s IH]; simpl; [done|].
  destruct (p d); [|done]. intros H. right. by apply IH.
Qed.

Lemma drop_while_all (p : N -> bool) (a b : jsstr) :
  forallb p a = true -> drop_while p (a ++ b) = drop_while p b.
Proof.
  induction a as [|c a IH]; simpl; [done|].
  intros [-> H]%andb_true_iff. by apply IH.
Qed.

Lemma forallb_rev {A} (p : A -> bool) (l : list A) :
  forallb p (rev l) = forallb p l.
Proof.
  induction l as [|x l IH]; simpl; [done|].
  rewrite forallb_app, IH. simpl. rewrite andb_true_r. apply andb_comm.
Qed.

Lemma trim_sublist (s : jsstr) (c : N) : c ∈ trim s -> c ∈ s.
Proof.
  unfold trim. rewrite elem_of_rev. intros H.
  apply drop_while_sublist in H. rewrite elem_of_rev in H.
  by apply drop_while_sublist in H.
Qed.

Lemma drop_while_app_clean (a b : jsstr) :
  b <> [] -> clean_head b = true ->
  exists a', drop_while isSpace (a ++ b) = a' ++ b.
Proof.
  intros Hb Hc. induction a as [|c a [a' IH]]; simpl.
  - exists []. by apply clean_head_drop.
  - destruct (isSpace c); [by exists a'|]. by exists (c :: a).
Qed.

Lemma trim_keeps_prefix (p x : jsstr) :
  p <> [] -> clean_head p = true -> clean_head (rev p) = true ->
  exists y, trim (p ++ x) = p ++ y.
Proof.
  intros Hp Hh Hl. unfold trim.
  rewrite (clean_head_drop (p ++ x)) by (by destruct p).
  rewrite rev_app_distr.
  destruct (drop_while_app_clean (rev x) (rev p)) as [a' ->]; [|done|].
  - intros E. apply (f_equal (@rev N)) in E. by rewrite rev_involutive in E.
  - exists (rev a'). by rewrite rev_app_distr, rev_involutive.
Qed.

Lemma isSpace_false_low (c : N) : 33 <= c -> c < 160 -> isSpace c = false.
Proof. intros. no_space. Qed.

Lemma isSpace_false_mid (c : N) : 160 < c -> c < 5760 -> isSpace c = false.
Proof. intros. no_space. Qed.

Lemma lower_unit_idem (c : N) : lower_unit (lower_unit c) = lower_unit c.
Proof.
  unfold lower_unit.
  destruct (N.leb_spec 65 c), (N.leb_spec c 90), (N.leb_spec 192 c),
    (N.leb_spec c 222), (N.eqb_spec c 215); cbn [andb orb negb]; case_N.
Qed.

Lemma toLowerCase_idem (s : jsstr) : toLowerCase (toLowerCase s) = toLowerCase s.
Proof.
  unfold toLowerCase. rewrite map_map. apply map_ext. intros c.
  apply lower_unit_idem.
Qed.

Lemma lower_unit_cases (c : N) :
  lower_unit c = c
  \/ (lower_unit c = c + 32
      /\ ((65 <= c /\ c <= 90) \/ (192 <= c /\ c <= 222))).
Proof.
  unfold lower_unit.
  destruct (N.leb_spec 65 c), (N.leb_spec c 90), (N.leb_spec 192 c),
    (N.leb_spec c 222), (N.eqb_spec c 215); cbn [andb orb negb];
    first [left; reflexivity | right; split; [reflexivity|lia] | left; lia].
Qed.

Lemma lower_unit_space (c : N) : isSpace c = false -> isSpace (lower_unit c) = false.
Proof.
  intros Hc. destruct (lower_unit_cases c) as [->|[-> [H|H]]]; [done| |].
  - apply isSpace_false_low; lia.
  - apply isSpace_false_mid; lia.
Qed.

Lemma clean_head_lower (s : jsstr) :
  clean_head s = true -> clean_head (toLowerCase s) = true.
Proof.
  destruct s as [|c s]; [done|]. simpl. intros H.
  apply negb_true_iff in H. by rewrite (lower_unit_space c H).
Qed.

Lemma normKey_units (u : jsstr) (c : N) :
  c ∈ normKey u -> c <> 13 /\ c <> 10 /\ c <> 92.
Proof.
  unfold normKey. intros H. apply list_elem_of_fmap in H as (x & -> & Hx).
  apply list_elem_of_In, filter_In in Hx as [_ Hx].
  unfold not_crlf in Hx. apply negb_true_iff, orb_false_iff in Hx as [H13 H10].
  apply N.eqb_neq in H13, H10. unfold to_slash.
  destruct (N.eqb_spec x 92) as [->|Hne]; [done|done].
Qed.

(** X1. [normKey] puts a key in normal form: a second application changes
    nothing, and the result holds no carriage return, no line feed and no
    backslash, and neither starts nor ends with white space. *)
Theorem normKey_normal_form (u : jsstr) :
  normKey (normKey u) = normKey u
  /\ (13 ∉ normKey u) /\ (10 ∉ normKey u) /\ (92 ∉ normKey u)
  /\ clean_head (normKey u) = true
  /\ clean_head (rev (normKey u)) = true.
Proof.
  split; [apply normKey_idempotent|].
  repeat split.
  - intros H. by apply normKey_units in H as (? & ? & ?).
  - intros H. by apply normKey_units in H as (? & ? & ?).
  - intros H. by apply normKey_units in H as (? & ? & ?).
  - unfold normKey. apply clean_head_norm, clean_head_trim.
  - unfold normKey. rewrite <- map_rev, <- filter_rev.
    apply clean_head_norm, clean_head_rev_trim.
Qed.

(** ** Quoted-printable and unencoded bodies *)

Lemma qp_soft_facts (n : nat) (s : jsstr) :
  (length s <= n)%nat ->
  (61 ∉ s -> qp_soft s = s)
  /\ (length (qp_soft s) <= length s)%nat
  /\ (forall c, c ∈ qp_soft s -> c ∈ s).
Proof.
  revert s; induction n as [|n IH]; intros s Hn.
  - destruct s; [|simpl in Hn; lia]. repeat split; done.
  - destruct s as [|c r]; [repeat split; done|]. simpl in Hn.
    assert (forall t, (length t <= length r)%nat ->
              (61 ∉ t -> qp_soft t = t)
              /\ (length (qp_soft t) <= length t)%nat
              /\ (forall c, c ∈ qp_soft t -> c ∈ t)) as IH'
      by (intros t Ht; apply IH; lia).
    destruct (IH' r ltac:(lia)) as (Hr1 & Hr2 & Hr3).
    assert ((61 ∉ c :: r -> c :: qp_soft r = c :: r)
            /\ (length (c :: qp_soft r) <= length (c :: r))%nat
            /\ (forall x, x ∈ c :: qp_soft r -> x ∈ c :: r)) as Hkeep.
    { split; [|split].
      - intros H. apply not_elem_of_cons in H as [_ H]. by rewrite Hr1.
      - simpl. lia.
      - intros x Hx. apply elem_of_cons in Hx as [->|Hx]; [left|right; auto]. }
    simpl. destruct (N.eqb_spec c 61) as [->|Hc]; [|exact Hkeep].
    assert (forall t : jsstr, 61 ∉ 61 :: r -> t = 61 :: r) as Habs
      by (intros t H; exfalso; apply H; left).
    destruct r as [|d r1]; [split; [apply Habs|split; [done|done]]|].
    destruct (N.eqb_spec d 10) as [->|Hd].
    + destruct (IH' r1 ltac:(simpl; lia)) as (_ & H2 & H3).
      split; [apply Habs|]. split; [simpl; lia|].
      intros x Hx. right; right. auto.
    + destruct (N.eqb_spec d 13) as [->|Hd']; [|exact Hkeep].
      destruct r1 as [|e r2]; [exact Hkeep|].
      destruct (N.eqb_spec e 10) as [->|He]; [|exact Hkeep].
      destruct (IH' r2 ltac:(simpl; lia)) as (_ & H2 & H3).
      split; [apply Habs|]. split; [simpl; lia|].
      intros x Hx. right; right; right. auto.
Qed.

Lemma hex_val_range (c x : N) :
  hex_val c = Some x -> x < 16 /\ 48 <= c /\ c <> 61.
Proof.
  unfold hex_val.
  destruct (N.leb_spec 48 c), (N.leb_spec c 57); cbn [andb]; try (intros [= <-]; lia);
  destruct (N.leb_spec 65 c), (N.leb_spec c 70); cbn [andb]; try (intros [= <-]; lia);
  destruct (N.leb_spec 97 c), (N.leb_spec c 102); cbn [andb]; try (intros [= <-]; lia);
  done.
Qed.

Lemma qp_hex_facts (n : nat) (s : jsstr) :
  (length s <= n)%nat ->
  (61 ∉ s -> qp_hex s = s)
  /\ (length (qp_hex s) <= length s)%nat
  /\ (forall c, c ∈ qp_hex s -> c ∈ s \/ c < 256).
Proof.
  revert s; induction n as [|n IH]; intros s Hn.
  - destruct s; [|simpl in Hn; lia].
    split; [done|split; [done|intros c H; by left]].
  - destruct s as [|c r]; [split; [done|split; [done|intros ? ?; by left]]|].
    simpl in Hn.
    assert (forall t, (length t <= length r)%nat ->
              (61 ∉ t -> qp_hex t = t)
              /\ (length (qp_hex t) <= length t)%nat
              /\ (forall c, c ∈ qp_hex t -> c ∈ t \/ c < 256)) as IH'
      by (intros t Ht; apply IH; lia).
    destruct (IH' r ltac:(lia)) as (Hr1 & Hr2 & Hr3).
    assert ((61 ∉ c :: r -> c :: qp_hex r = c :: r)
            /\ (length (c :: qp_hex r) <= length (c :: r))%nat
            /\ (forall x, x ∈ c :: qp_hex r -> x ∈ c :: r \/ x < 256)) as Hkeep.
    { split; [|split].
      - intros H. apply not_elem_of_cons in H as [_ H]. by rewrite Hr1.
      - simpl. lia.
      - intros x Hx. apply elem_of_cons in Hx as [->|Hx]; [left; left|].
        destruct (Hr3 x Hx); [left; by right | by right]. }
    simpl. destruct (N.eqb_spec c 61) as [->|Hc]; [|exact Hkeep].
    destruct r as [|a [|b r2]]; [exact Hkeep | exact Hkeep |].
    destruct (hex_val a) as [x|] eqn:Ha; [|exact Hkeep].
    destruct (hex_val b) as [y|] eqn:Hb; [|exact Hkeep].
    apply hex_val_range in Ha as [Ha _], Hb as [Hb _].
    destruct (IH' r2 ltac:(simpl; lia)) as (_ & H2 & H3).
    split; [intros H; exfalso; apply H; left|]. split; [simpl; lia|].
    intros z Hz. apply elem_of_cons in Hz as [->|Hz]; [right; lia|].
    destruct (H3 z Hz); [left; do 3 right; done | by right].
Qed.

(** X2. [decodeQP]: text without an equals sign comes back as it is; the
    result is never longer than the text, and a text of bytes decodes to
    bytes; a soft line break goes, and an equals sign followed by two
    hexadecimal digits becomes the unit they spell. *)
Theorem decodeQP_decodes (s : jsstr) :
  (61 ∉ s -> decodeQP s = s)
  /\ (length (decodeQP s) <= length s)%nat
  /\ (Forall (fun c => c < 256) s -> Forall (fun c => c < 256) (decodeQP s))
  /\ decodeQP (js "=" ++ CRLF ++ s) = decodeQP s
  /\ (forall hi lo x y,
        hex_val hi = Some x -> hex_val lo = Some y ->
        decodeQP (61 :: hi :: lo :: s) = (16 * x + y) :: decodeQP s).
Proof.
  unfold decodeQP.
  destruct (qp_soft_facts (length s) s (le_n _)) as (S1 & S2 & S3).
  destruct (qp_hex_facts (length (qp_soft s)) (qp_soft s) (le_n _)) as (H1 & H2 & H3).
  split; [|split; [|split; [|split]]].
  - intros H. rewrite (S1 H). rewrite S1 in H1 by done. by apply H1.
  - lia.
  - rewrite !List.Forall_forall. intros Hs c Hc. apply list_elem_of_In in Hc.
    destruct (H3 c Hc) as [Hin|Hlt]; [|done]. apply Hs, list_elem_of_In, S3, Hin.
  - reflexivity.
  - intros hi lo x y Hhi Hlo.
    destruct (hex_val_range _ _ Hhi) as (_ & Hh1 & Hh2).
    destruct (hex_val_range _ _ Hlo) as (_ & Hl1 & Hl2).
    assert (qp_soft (61 :: hi :: lo :: s) = 61 :: hi :: lo :: qp_soft s) as ->.
    { cbn [qp_soft]. rewrite N.eqb_refl.
      rewrite (proj2 (N.eqb_neq hi 10)) by lia.
      rewrite (proj2 (N.eqb_neq hi 13)) by lia.
      rewrite (proj2 (N.eqb_neq hi 61)) by lia.
      rewrite (proj2 (N.eqb_neq lo 61)) by lia. done. }
    cbn [qp_hex]. rewrite N.eqb_refl, Hhi, Hlo. done.
Qed.

Lemma decodeQP_plain (s : jsstr) : 61 ∉ s -> decodeQP s = s.
Proof.
  intros H. unfold decodeQP.
  destruct (qp_soft_facts (length s) s (le_n _)) as (S1 & _).
  destruct (qp_hex_facts (length s) s (le_n _)) as (H1 & _).
  by rewrite (S1 H), (H1 H).
Qed.

Lemma byte_of_unit_to_N (b : byte) : byte_of_unit (Byte.to_N b) = b.
Proof.
  unfold byte_of_unit. pose proof (Byte.to_N_bounded b) as Hb.
  rewrite N.mod_small by lia. by rewrite Byte.of_to_N.
Qed.

Lemma binary_buffer_string (b : list byte) : binary_buffer (binary_string b) = b.
Proof.
  unfold binary_buffer, binary_string. rewrite map_map.
  rewrite <- (map_id b) at 2. apply map_ext. apply byte_of_unit_to_N.
Qed.

Section BodyFacts.
Context {P : Platform}.

(** X3. The buffer of a part whose transfer encoding does not mention
    base64, and that either does not mention quoted-printable or has a body
    without equals sign, is byte for byte the body as the parser cuts it:
    what stands behind the first blank line of the raw part once one leading
    line break and a closing run of two dashes and white space are off. *)
Theorem unencoded_body_is_kept (raw headerBlock : jsstr) (body : list byte) :
  truthy (trim (strip_end_marker (strip_leading_newline raw))) = true ->
  cut_at CRLF2 (strip_end_marker (strip_leading_newline raw))
    = Some (headerBlock, binary_string body) ->
  includes
    (toLowerCase (header_or (parseHeaders headerBlock)
                    (js "content-transfer-encoding") []))
    (js "base64") = false ->
  includes
    (toLowerCase (header_or (parseHeaders headerBlock)
                    (js "content-transfer-encoding") []))
    (js "quoted-printable") = false
  \/ 61 ∉ binary_string body ->
  exists p, parse_part raw = Some p /\ buf p = body.
Proof.
  intros Ht Hcut Hb Hq. unfold parse_part. cbv zeta.
  rewrite Ht, Hcut. cbn [negb]. eexists. split; [reflexivity|].
  cbn [buf]. unfold decode_body. rewrite Hb.
  destruct (includes _ (js "quoted-printable")) eqn:Hqp.
  - destruct Hq as [Hq|Hq]; [done|].
    rewrite decodeQP_plain by done. apply binary_buffer_string.
  - apply binary_buffer_string.
Qed.

End BodyFacts.

(** ** The charset of a part *)

Lemma first_match_all_None {A} (at_ : jsstr -> option A) (s : jsstr) :
  (forall pre suf, s = pre ++ suf -> at_ suf = None) -> first_match at_ s = None.
Proof.
  induction s as [|c s IH]; intros H; simpl.
  - by rewrite (H [] []).
  - rewrite (H [] (c :: s)) by done. apply IH. intros pre suf ->.
    by apply (H (c :: pre)).
Qed.

Lemma charset_at_run (s run : jsstr) :
  charset_at s = Some run -> forall c, c ∈ run -> c <> 34 /\ c <> 59.
Proof.
  assert (forall t c, c ∈ take_while charset_run t -> c <> 34 /\ c <> 59) as Hrun.
  { intros t c Hc%take_while_holds. unfold charset_run in Hc.
    apply andb_true_iff in Hc as [H1 H2].
    apply negb_true_iff in H1, H2. apply N.eqb_neq in H1, H2. done. }
  unfold charset_at.
  destruct (strip_prefix_ci (js "charset") s) as [r0|]; [|done].
  destruct (drop_while isSpace r0) as [|e r1]; [done|].
  destruct (e =? 61); [|done].
  set (w := take_while isSpace r1).
  assert (forall l t, rev w = l :: t -> l <> 34 /\ l <> 59) as Hlast.
  { intros l t Hl. assert (l ∈ w) as Hin.
    { apply elem_of_rev. rewrite Hl. left. }
    apply take_while_holds in Hin.
    split; intros ->; done. }
  match goal with
  | |- match ?d with Some _ => _ | None => _ end = _ -> _ =>
      assert (forall run', d = Some run' -> forall c, c ∈ run' -> c <> 34 /\ c <> 59)
        as Hd; [|destruct d as [run'|] eqn:Hdir]
  end.
  - intros run'. destruct (drop_while isSpace r1) as [|q r2] eqn:Hrest; [done|].
    destruct (q =? 34).
    + pose proof (Hrun r2) as Hr2.
      destruct (take_while charset_run r2) as [|x run0]; [done|].
      destruct (drop_while charset_run r2) as [|q' ?]; [done|].
      destruct (q' =? 34); [|done]. by intros [= <-].
    + pose proof (Hrun (q :: r2)) as Hr2.
      destruct (take_while charset_run (q :: r2)) as [|x run0]; [done|].
      by intros [= <-].
  - intros [= <-]. by apply Hd.
  - destruct (rev w) as [|l t] eqn:Hl; [done|]. intros [= <-].
    intros c ->%list_elem_of_singleton. by apply (Hlast l t).
Qed.

Lemma getCharset_lower (ct : jsstr) :
  toLowerCase (getCharset ct) = getCharset ct.
Proof.
  unfold getCharset. destruct (first_match charset_at ct); [|done].
  apply toLowerCase_idem.
Qed.

(** X4. [getCharset] returns a clean token: in lower case, without white space
    at either end, without double quote or semicolon; and it is utf-8 when
    the word charset occurs nowhere in the value. *)
Theorem getCharset_is_a_clean_token (ct : jsstr) :
  toLowerCase (getCharset ct) = getCharset ct
  /\ trim (getCharset ct) = getCharset ct
  /\ (34 ∉ getCharset ct) /\ (59 ∉ getCharset ct)
  /\ ((forall pre suf, ct = pre ++ suf -> startsWith_ci suf (js "charset") = false) ->
      getCharset ct = js "utf-8").
Proof.
  split; [apply getCharset_lower|].
  unfold getCharset.
  destruct (first_match charset_at ct) as [run|] eqn:Hm.
  - apply first_match_Some in Hm as (pre & suf & -> & Hm).
    pose proof Hm as Hat.
    pose proof (charset_at_run _ _ Hm) as Hrun.
    assert (forall k, (k = 34 \/ k = 59) -> k ∉ toLowerCase (trim run)) as Hno.
    { intros k Hk Hin. unfold toLowerCase in Hin.
      apply list_elem_of_fmap in Hin as (x & Hx & Hin).
      apply trim_sublist, Hrun in Hin.
      destruct (lower_unit_cases x) as [E|[E R]]; rewrite E in Hx; lia. }
    split.
    { apply trim_clean.
      - apply clean_head_lower, clean_head_trim.
      - unfold toLowerCase. rewrite <- map_rev.
        apply (clean_head_lower (rev (trim run))), clean_head_rev_trim. }
    split; [apply Hno; by left|]. split; [apply Hno; by right|].
    intros H. specialize (H pre suf eq_refl).
    exfalso. unfold startsWith_ci in H.
    unfold charset_at in Hat.
    by destruct (strip_prefix_ci (js "charset") suf).
  - split; [done|].
    split; [apply not_in_forallb; reflexivity|].
    split; [apply not_in_forallb; reflexivity|done].
Qed.

(** ** Placeholders and references *)

Lemma isWeird_false_fix (v : jsstr) : isWeird v = false -> normalizeWeirdUrl v = v.
Proof.
  unfold isWeird, normalizeWeirdUrl. by destruct (weird_scheme v) as [[? ?]|].
Qed.

Lemma weird_scheme_cases (u scheme r : jsstr) :
  weird_scheme u = Some (scheme, r) ->
  (scheme = js "http" \/ scheme = js "https")
  /\ exists p, u = p ++ 33 :: r.
Proof.
  unfold weird_scheme.
  destruct (strip_prefix_ci (js "http") u) as [[|c t]|] eqn:Hp; [done| |done].
  apply strip_prefix_ci_split in Hp as (m & -> & _).
  destruct (ci_eqb c 115).
  - destruct t as [|x t]; [done|].
    destruct (N.eqb_spec x 33) as [->|Hx].
    + intros [= <- <-]. split; [by right|]. exists (m ++ [c]).
      by rewrite <- app_assoc.
    + destruct x; try done. repeat (destruct p; try done).
  - destruct (N.eqb_spec c 33) as [->|Hc]; [|done].
    intros [= <- <-]. split; [by left|]. by exists m.
Qed.

(** X5. [normalizeWeirdUrl] is idempotent, and when it changes its argument
    the argument was a placeholder and the result is none: it holds no
    exclamation mark and starts with the scheme http or https and two
    slashes. *)
Theorem normalizeWeirdUrl_normal_form (u : jsstr) :
  normalizeWeirdUrl (normalizeWeirdUrl u) = normalizeWeirdUrl u
  /\ (normalizeWeirdUrl u <> u ->
      isWeird u = true
      /\ isWeird (normalizeWeirdUrl u) = false
      /\ (33 ∉ normalizeWeirdUrl u)
      /\ (startsWith (normalizeWeirdUrl u) (js "http://")
          || startsWith (normalizeWeirdUrl u) (js "https://")) = true).
Proof.
  assert (normalizeWeirdUrl u = u
          \/ (isWeird u = true
              /\ isWeird (normalizeWeirdUrl u) = false
              /\ (33 ∉ normalizeWeirdUrl u)
              /\ (startsWith (normalizeWeirdUrl u) (js "http://")
                  || startsWith (normalizeWeirdUrl u) (js "https://")) = true))
    as [Hsame|Hnew].
  { remember (normalizeWeirdUrl u) as v eqn:Hv.
    unfold normalizeWeirdUrl in Hv. unfold isWeird.
    destruct (weird_scheme u) as [[scheme r]|] eqn:Hw; [|by left].
    destruct (weird_scheme_cases _ _ _ Hw) as [Hs _].
    pose proof (take_while_holds (fun c => negb (c =? 33)) r) as Hhost.
    destruct (take_while (fun c => negb (c =? 33)) r) as [|h host] eqn:Hh;
      [by left|].
    assert (forall tl : jsstr,
              (33 ∉ tl) ->
              33 ∉ scheme ++ js "://" ++ (h :: host) ++ js "/" ++ tl) as Hno.
    { intros tl Htl Hin.
      apply elem_of_app in Hin as [Hin|Hin].
      { destruct Hs as [-> | ->]; apply list_elem_of_In in Hin;
          vm_compute in Hin; intuition discriminate. }
      apply elem_of_app in Hin as [Hin|Hin].
      { apply list_elem_of_In in Hin; vm_compute in Hin; intuition discriminate. }
      apply elem_of_app in Hin as [Hin|Hin].
      { apply Hhost in Hin. done. }
      apply elem_of_cons in Hin as [Hin|Hin]; [done|]. by apply Htl. }
    assert (forall tl : jsstr,
              weird_scheme (scheme ++ js "://" ++ tl) = None
              /\ (startsWith (scheme ++ js "://" ++ tl) (js "http://")
                  || startsWith (scheme ++ js "://" ++ tl) (js "https://")) = true)
      as Hshape.
    { intros tl. destruct Hs as [-> | ->]; split; reflexivity. }
    destruct (drop_while (fun c => negb (c =? 33)) r) as [|b rest].
    - right. split; [done|]. subst v.
      destruct (Hshape ((h :: host) ++ js "/")) as [-> ->].
      split; [done|]. split; [|done].
      rewrite <- (app_nil_r (js "/")). apply (Hno []). apply not_elem_of_nil.
    - destruct (forallb (fun c => negb (isLineTerminator c)) rest); [|by left].
      right. split; [done|]. subst v.
      destruct (Hshape ((h :: host) ++ js "/"
                          ++ map (fun c => if c =? 33 then 47 else c) rest))
        as [-> ->].
      split; [done|]. split; [|done]. apply Hno.
      intros Hin. apply list_elem_of_fmap in Hin as (x & Hx & _).
      destruct (N.eqb_spec x 33); lia. }
  - rewrite Hsame. split; [done|]. intros H. by destruct H.
  - destruct Hnew as (H1 & H2 & H3 & H4).
    split; [by apply isWeird_false_fix|]. done.
Qed.

Lemma extractCidFromWeird_roundtrip (id t : jsstr) :
  id <> [] -> 64 ∉ id ->
  extractCidFromWeird (js "cid!" ++ id ++ 64 :: t) = Some id.
Proof.
  intros Hne Hat. unfold extractCidFromWeird.
  change (strip_prefix_ci (js "cid!") (js "cid!" ++ id ++ 64 :: t))
    with (Some (id ++ 64 :: t)).
  destruct (take_while_app_stop (fun c => negb (c =? 64)) id 64 t) as [-> ->];
    [|done|].
  - intros x Hx. apply negb_true_iff, N.eqb_neq. by intros ->.
  - by destruct id.
Qed.

(** X6. [extractCidFromWeird] returns the text between the four units of the
    placeholder head and the first at sign, which is not empty; so from the
    placeholder key of an id without at sign it gives the id back. *)
Theorem extractCidFromWeird_spec (id : jsstr) :
  (forall u, extractCidFromWeird u = Some id ->
     id <> [] /\ (64 ∉ id)
     /\ exists p t, length p = 4%nat /\ u = p ++ id ++ 64 :: t)
  /\ (id <> [] -> 64 ∉ id ->
      forall t, extractCidFromWeird (js "cid!" ++ id ++ 64 :: t) = Some id).
Proof.
  split.
  - intros u. unfold extractCidFromWeird.
    destruct (strip_prefix_ci (js "cid!") u) as [r|] eqn:Hp; [|done].
    apply strip_prefix_ci_split in Hp as (p & -> & Hlen).
    pose proof (take_drop_while (fun c => negb (c =? 64)) r) as Hr.
    pose proof (take_while_holds (fun c => negb (c =? 64)) r) as Htok.
    destruct (take_while (fun c => negb (c =? 64)) r) as [|x tok]; [done|].
    destruct (drop_while (fun c => negb (c =? 64)) r) as [|y t] eqn:Hd; [done|].
    intros [= <-]. split; [done|]. split.
    + intros Hin. by apply Htok in Hin.
    + exists p, t. split; [done|]. rewrite <- Hr. f_equal. f_equal. f_equal.
      assert (negb (y =? 64) = false) as Hy.
      { destruct r as [|z r]; [done|].
        clear -Hd. revert Hd. generalize (z :: r). intros l.
        induction l as [|w l IH]; simpl; [done|].
        destruct (negb (w =? 64)) eqn:Hw; [done|]. by intros [= <- _]. }
      apply negb_false_iff, N.eqb_eq in Hy. done.
  - intros Hne Hat t. by apply extractCidFromWeird_roundtrip.
Qed.

Lemma strip_prefix_ci_app (p q s : jsstr) :
  strip_prefix_ci (p ++ q) s =
    match strip_prefix_ci p s with
    | Some r => strip_prefix_ci q r
    | None => None
    end.
Proof.
  revert s; induction p as [|a p IH]; intros s; [done|].
  destruct s as [|c s]; simpl; [done|]. destruct (ci_eqb a c); [apply IH|done].
Qed.

Lemma startsWith_ci_head (a c : N) (p s : jsstr) :
  startsWith_ci (c :: s) (a :: p) = true -> ascii_lower a = ascii_lower c.
Proof.
  unfold startsWith_ci. simpl. unfold ci_eqb.
  destruct (N.eqb_spec (ascii_lower a) (ascii_lower c)); done.
Qed.

Lemma isWeird_shape (u : jsstr) :
  isWeird u = true ->
  exists c r,
    strip_prefix_ci (js "http") u = Some (c :: r)
    /\ (c = 33 \/ (ascii_lower c = 115 /\ exists t, r = 33 :: t)).
Proof.
  unfold isWeird, weird_scheme.
  destruct (strip_prefix_ci (js "http") u) as [[|c r]|]; [done| |done].
  intros H. exists c, r. split; [done|]. unfold ci_eqb in H.
  destruct (N.eqb_spec (ascii_lower c) (ascii_lower 115)) as [E|E].
  - right. split; [done|]. destruct r as [|x r]; [done|].
    destruct (N.eqb_spec x 33) as [->|Hx]; [by exists r|].
    exfalso. destruct x; try done. repeat (destruct p; try done).
  - left. by destruct (N.eqb_spec c 33).
Qed.

Lemma embedded_not_weird (href : jsstr) :
  startsWith_ci href (js "data:") || startsWith_ci href (js "cid:")
  || startsWith_ci href (js "blob:") || startsWith_ci href (js "about:")
  || startsWith_ci href (js "file:") || startsWith_ci href (js "http://")
  || startsWith_ci href (js "https://") = true ->
  isWeird href = false.
Proof.
  intros H. destruct (isWeird href) eqn:Hw; [|done]. exfalso.
  apply isWeird_shape in Hw as (c & r & Hp & Hc).
  assert (exists t, href = t ++ c :: r /\ exists c0 t', href = c0 :: t'
                    /\ ascii_lower c0 = 104) as (t & Ht & c0 & t' & Hh & Hc0).
  { destruct (strip_prefix_ci_split _ _ _ Hp) as (m & Hm & _).
    exists m. split; [done|]. destruct href as [|c0 t']; [done|].
    exists c0, t'. split; [done|].
    change (js "http") with (104 :: js "ttp") in Hp.
    cbn [strip_prefix_ci] in Hp. unfold ci_eqb at 1 in Hp.
    destruct (N.eqb_spec (ascii_lower 104) (ascii_lower c0)) as [E|E]; [|done].
    by rewrite <- E. }
  repeat apply orb_true_iff in H as [H|H].
  1-5: rewrite Hh in H; apply startsWith_ci_head in H; rewrite Hc0 in H;
         vm_compute in H; discriminate.
  - unfold startsWith_ci in H.
    change (js "http://") with (js "http" ++ 58 :: js "//") in H.
    rewrite strip_prefix_ci_app, Hp in H. cbn [strip_prefix_ci] in H.
    unfold ci_eqb at 1 in H.
    destruct (N.eqb_spec (ascii_lower 58) (ascii_lower c)) as [E|E]; [|done].
    clear H. change (ascii_lower 58) with 58 in E.
    destruct Hc as [->|[Hs _]]; [by vm_compute in E|]. rewrite Hs in E. done.
  - unfold startsWith_ci in H.
    change (js "https://") with (js "http" ++ 115 :: js "://") in H.
    rewrite strip_prefix_ci_app, Hp in H. cbn [strip_prefix_ci] in H.
    unfold ci_eqb at 1 in H.
    destruct (N.eqb_spec (ascii_lower 115) (ascii_lower c)) as [E|E]; [|done].
    change (ascii_lower 115) with 115 in E.
    destruct Hc as [->|[_ [t0 ->]]]; [by vm_compute in E|].
    by vm_compute in H.
Qed.

Section ResolveFacts.
Context {P : Platform}.

Lemma resolveAgainst_no_base (base : option jsstr) (href : jsstr) :
  needs_no_base href = true ->
  resolveAgainst base href = normalizeWeirdUrl href.
Proof.
  unfold needs_no_base, resolveAgainst.
  destruct (negb (truthy href)) eqn:Ht; [by destruct href|].
  cbn [orb].
  destruct (startsWith_ci href (js "data:") || startsWith_ci href (js "cid:")
            || startsWith_ci href (js "blob:") || startsWith_ci href (js "about:")
            || startsWith_ci href (js "file:")) eqn:He.
  { intros _. symmetry. apply isWeird_false_fix, embedded_not_weird.
    by rewrite He. }
  cbn [orb]. destruct (isWeird href) eqn:Hw; [done|].
  rewrite (isWeird_false_fix _ Hw). cbn [orb].
  by destruct (startsWith_ci href (js "http://")
               || startsWith_ci href (js "https://")).
Qed.

(** X7. [resolveAgainst] returns the reference with a placeholder normalised,
    and nothing else, when there is no base or an empty one, and for every
    reference that is empty, of an embedded scheme, a placeholder or absolute;
    in all other cases the result is what the URL constructor of the platform
    made of the reference and the base, or again the reference. *)
Theorem resolveAgainst_needs_no_base (base : option jsstr) (href : jsstr) :
  resolveAgainst None href = normalizeWeirdUrl href
  /\ resolveAgainst (Some []) href = normalizeWeirdUrl href
  /\ (needs_no_base href = true ->
      resolveAgainst base href = normalizeWeirdUrl href)
  /\ (resolveAgainst base href = normalizeWeirdUrl href
      \/ exists b, base = Some b
                   /\ url_resolve href b = Some (resolveAgainst base href)).
Proof.
  pose proof isWeird_false_fix as Hfix.
  unfold needs_no_base, resolveAgainst.
  destruct (negb (truthy href)) eqn:Ht.
  { destruct href; [|done]. repeat split; try done. by left. }
  cbn [orb].
  destruct (startsWith_ci href (js "data:") || startsWith_ci href (js "cid:")
            || startsWith_ci href (js "blob:") || startsWith_ci href (js "about:")
            || startsWith_ci href (js "file:")) eqn:He.
  { assert (isWeird href = false) as Hw.
    { apply embedded_not_weird. rewrite He. done. }
    rewrite (Hfix _ Hw). repeat split; try done. by left. }
  cbn [orb].
  destruct (isWeird href) eqn:Hw.
  { repeat split; try done. by left. }
  rewrite (Hfix _ Hw). cbn [orb].
  destruct (startsWith_ci href (js "http://")
            || startsWith_ci href (js "https://")) eqn:Ha.
  { repeat split; try done. by left. }
  split; [done|]. split; [done|]. split; [done|].
  destruct base as [b|]; [|by left].
  destruct (truthy b); [|by left].
  destruct (url_resolve href b) as [a|] eqn:Hu; [|by left].
  right. by exists b.
Qed.

End ResolveFacts.

(** ** The earlier converter *)

(** X8. [httpToHttps] of the earlier converter is idempotent, its result
    starts neither with the scheme http nor with two slashes, and it never
    changes what [isEmbedded] says of a reference. *)
Theorem httpToHttps_keeps_embedded (u : jsstr) :
  httpToHttps (httpToHttps u) = httpToHttps u
  /\ startsWith (httpToHttps u) (js "http://") = false
  /\ startsWith (httpToHttps u) (js "//") = false
  /\ isEmbedded (httpToHttps u) = isEmbedded u.
Proof.
  unfold httpToHttps. destruct u as [|c u]; [done|]. cbn [truthy negb].
  destruct (startsWith (c :: u) (js "//")) eqn:H1.
  - split; [done|]. split; [done|]. split; [done|].
    unfold startsWith in H1.
    destruct (strip_prefix (js "//") (c :: u)) as [r|] eqn:E; [|done].
    apply strip_prefix_app in E. rewrite E. reflexivity.
  - destruct (strip_prefix (js "http://") (c :: u)) as [r|] eqn:H2.
    + split; [done|]. split; [done|]. split; [done|].
      apply strip_prefix_app in H2. rewrite H2. reflexivity.
    + cbn [truthy negb]. rewrite H1, H2. unfold startsWith at 1. rewrite H2.
      done.
Qed.

(** ** The index: what it holds *)

Lemma or_else_Some {A} (a b : option A) (x : A) :
  or_else a b = Some x -> a = Some x \/ b = Some x.
Proof. destruct a; simpl; [by left|by right]. Qed.

Lemma or_else_is_Some_l {A} (a b : option A) : is_Some a -> or_else a b = a.
Proof. by intros [x ->]. Qed.

Lemma or_else_is_Some {A} (a b : option A) :
  is_Some a \/ is_Some b -> is_Some (or_else a b).
Proof. destruct a; simpl; [by eexists|]. intros [[? ?]|?]; done. Qed.

Section IndexMore.
Context {P : Platform}.

Lemma entry_of_dataURI (p : Part) :
  exists ty, ty <> []
    /\ dataURI (entry_of p)
       = js "data:" ++ ty ++ js ";base64," ++ base64_encode (buf p).
Proof.
  unfold entry_of, toDataURI. cbn [dataURI].
  destruct (contentType p) as [|c ct] eqn:Hct; cbn [truthy].
  - destruct (mimeLookup (contentLocation p)) as [[|g gs]|];
      cbn [truthy_opt truthy or_empty].
    + by exists (js "application/octet-stream").
    + by exists (g :: gs).
    + by exists (js "application/octet-stream").
  - by exists (c :: ct).
Qed.

Lemma lookup_buildPartMap (parts : list Part) (docBase : option jsstr)
  (k : jsstr) (e : Entry) :
  buildPartMap parts docBase !! k = Some e ->
  exists p, p ∈ parts /\ registers docBase k p = true /\ e = entry_of p.
Proof.
  destruct (buildPartMap_first_wins_aux parts docBase k) as [-> _].
  destruct (List.find (registers docBase k) parts) as [p|] eqn:Hf; [|done].
  intros [= <-]. apply List.find_some in Hf as [Hin Hr].
  exists p. split; [by apply list_elem_of_In|done].
Qed.

(** X9. The index holds the parts and nothing else: a key is in it exactly
    when it is not empty and some part hands it to [addKey]; and the entry
    under a key is the entry of such a part, with the bytes, the text and the
    location of the part, and a data URI made of a media type that is not
    empty and the base64 text of the bytes. *)
Theorem index_holds_the_parts (parts : list Part) (docBase : option jsstr)
  (k : jsstr) :
  (is_Some (buildPartMap parts docBase !! k) <->
     k <> [] /\ exists p, p ∈ parts /\ k ∈ part_keys docBase p)
  /\ (forall e, buildPartMap parts docBase !! k = Some e ->
        exists p ty,
          p ∈ parts /\ k ∈ part_keys docBase p /\ e = entry_of p
          /\ buf (part e) = buf p /\ text (part e) = text p
          /\ contentLocation (part e) = contentLocation p
          /\ ty <> []
          /\ dataURI e
             = js "data:" ++ ty ++ js ";base64," ++ base64_encode (buf p)).
Proof.
  assert (forall p, registers docBase k p = true <->
                    k <> [] /\ k ∈ part_keys docBase p) as Hreg.
  { intros p. unfold registers. rewrite andb_true_iff, bool_decide_eq_true.
    destruct k; cbn [truthy]; split; intros [? ?]; split; done. }
  split.
  - split.
    + intros [e He]. apply lookup_buildPartMap in He as (p & Hin & Hr & _).
      apply Hreg in Hr as [Hk Hkeys]. split; [done|]. by exists p.
    + intros [Hk (p & Hin & Hkeys)].
      destruct (buildPartMap_first_wins_aux parts docBase k) as [-> _].
      destruct (find_is_Some (registers docBase k) parts p Hin) as [q ->].
      * by apply Hreg.
      * by eexists.
  - intros e He. apply lookup_buildPartMap in He as (p & Hin & Hr & ->).
    apply Hreg in Hr as [Hk Hkeys].
    destruct (entry_of_dataURI p) as (ty & Hty & Huri).
    exists p, ty. repeat split; done.
Qed.

Lemma link_hit_lookup (partMap : gmap jsstr Entry) (base : option jsstr)
  (s : jsstr) (e : Entry) :
  link_hit partMap base s = Some e -> exists k, partMap !! k = Some e.
Proof.
  unfold link_hit. intros H.
  repeat (apply or_else_Some in H as [H|H]; [by eexists|]). by eexists.
Qed.

Lemma ref_hit_lookup (partMap : gmap jsstr Entry) (base : option jsstr)
  (s : jsstr) (e : Entry) :
  ref_hit partMap base s = Some e -> exists k, partMap !! k = Some e.
Proof.
  unfold ref_hit. intros H.
  apply or_else_Some in H as [H|H]; [by apply link_hit_lookup in H|].
  apply or_else_Some in H as [H|H].
  - destruct (startsWith _ _); [by eexists|done].
  - destruct (extractCidFromWeird _); [by eexists|done].
Qed.

Lemma css_url_hit_lookup (partMap : gmap jsstr Entry) (base : option jsstr)
  (s : jsstr) (e : Entry) :
  css_url_hit partMap base s = Some e -> exists k, partMap !! k = Some e.
Proof.
  unfold css_url_hit. intros H.
  do 3 (apply or_else_Some in H as [H|H]; [by eexists|]).
  apply or_else_Some in H as [H|H];
    (destruct (startsWith _ _); [by eexists|done]).
Qed.

Lemma import_hit_lookup (partMap : gmap jsstr Entry) (base : option jsstr)
  (s : jsstr) (e : Entry) :
  import_hit partMap base s = Some e -> exists k, partMap !! k = Some e.
Proof.
  unfold import_hit. intros H.
  repeat (apply or_else_Some in H as [H|H]; [by eexists|]). by eexists.
Qed.

Lemma anchor_hit_lookup (partMap : gmap jsstr Entry) (s : jsstr) (e : Entry) :
  anchor_hit partMap s = Some e -> exists k, partMap !! k = Some e.
Proof.
  unfold anchor_hit. intros H.
  destruct (if startsWith s (js "cid!") then _ else _); [|by eexists].
  apply or_else_Some in H as [H|H]; by eexists.
Qed.

(** X10. Whatever a lookup of the rewriter finds for a reference, in a link,
    an image, a script, an icon, an anchor, a url of a stylesheet or an import
    rule, is the entry of a part of the container, and what it carries is a
    data URI. *)
Theorem every_hit_is_a_part (parts : list Part) (docBase base : option jsstr)
  (ref : jsstr) (e : Entry) :
  link_hit (buildPartMap parts docBase) base ref = Some e
  \/ ref_hit (buildPartMap parts docBase) base ref = Some e
  \/ css_url_hit (buildPartMap parts docBase) base ref = Some e
  \/ import_hit (buildPartMap parts docBase) base ref = Some e
  \/ anchor_hit (buildPartMap parts docBase) ref = Some e ->
  exists p, p ∈ parts /\ e = entry_of p
    /\ startsWith (dataURI e) (js "data:") = true.
Proof.
  intros H.
  assert (exists k, buildPartMap parts docBase !! k = Some e) as [k Hk].
  { destruct H as [H|[H|[H|[H|H]]]];
      eauto using link_hit_lookup, ref_hit_lookup, css_url_hit_lookup,
        import_hit_lookup, anchor_hit_lookup. }
  apply lookup_buildPartMap in Hk as (p & Hin & _ & ->).
  exists p. split; [done|]. split; [done|].
  destruct (entry_of_dataURI p) as (ty & _ & ->). reflexivity.
Qed.

(** X11. A part is found under its own location: when the location is not
    empty, in normal form and no placeholder, every lookup of the rewriter
    for it hits, whatever the base; and when the location needs no base, what
    the lookups return is what the index holds under the location itself. *)
Theorem own_location_is_found (parts : list Part) (docBase base : option jsstr)
  (p : Part) (loc : jsstr) :
  p ∈ parts ->
  contentLocation p = Some loc ->
  truthy loc = true ->
  normKey loc = loc ->
  isWeird loc = false ->
  is_Some (buildPartMap parts docBase !! loc)
  /\ is_Some (link_hit (buildPartMap parts docBase) base loc)
  /\ is_Some (ref_hit (buildPartMap parts docBase) base loc)
  /\ is_Some (css_url_hit (buildPartMap parts docBase) base loc)
  /\ (strip_quotes loc = loc ->
      is_Some (import_hit (buildPartMap parts docBase) base loc))
  /\ (needs_no_base loc = true ->
      link_hit (buildPartMap parts docBase) base loc
        = buildPartMap parts docBase !! loc
      /\ ref_hit (buildPartMap parts docBase) base loc
        = buildPartMap parts docBase !! loc
      /\ css_url_hit (buildPartMap parts docBase) base loc
        = buildPartMap parts docBase !! loc).
Proof.
  intros Hin Hloc Ht Hn Hw. set (partMap := buildPartMap parts docBase).
  assert (is_Some (partMap !! loc)) as Hsome.
  { destruct (buildPartMap_first_wins_aux parts docBase loc) as [E _].
    unfold partMap. rewrite E.
    destruct (find_is_Some (registers docBase loc) parts p Hin) as [q ->];
      [|by eexists].
    unfold registers. rewrite Ht. cbn [andb]. apply bool_decide_eq_true.
    unfold part_keys. rewrite Hloc. cbn [or_empty]. rewrite Hn.
    apply elem_of_app. left. apply list_elem_of_singleton. done. }
  assert (is_Some (link_hit partMap base loc)) as Hlink.
  { unfold link_hit. rewrite Hw. apply or_else_is_Some. right.
    apply or_else_is_Some. by left. }
  split; [done|]. split; [done|]. split.
  { unfold ref_hit. apply or_else_is_Some. by left. }
  split.
  { unfold css_url_hit. rewrite Hw. apply or_else_is_Some. right.
    apply or_else_is_Some. right. apply or_else_is_Some. by left. }
  split.
  { intros Hq. unfold import_hit. rewrite Hq, Hw. apply or_else_is_Some. right.
    apply or_else_is_Some. by left. }
  intros Hnb.
  assert (normKey (resolveAgainst base loc) = loc) as Hkey.
  { rewrite (resolveAgainst_no_base base loc Hnb), (isWeird_false_fix _ Hw).
    done. }
  assert (link_hit partMap base loc = partMap !! loc) as E.
  { unfold link_hit. rewrite Hw, Hkey. by apply or_else_is_Some_l. }
  split; [done|]. split.
  - unfold ref_hit. rewrite E. by apply or_else_is_Some_l.
  - unfold css_url_hit. rewrite Hw, Hkey. by apply or_else_is_Some_l.
Qed.

(** X25. A part is found under its content id: when the id is not empty and
    in normal form, the index has an entry under the cid spelling, under the
    placeholder spelling and, when the id is no placeholder of its own, under
    the bare id, and the lookups for links, for images, scripts and icons and
    for stylesheet urls hit for each of them; the anchor loop finds an entry
    for the cid spelling, and for the placeholder spelling when the id holds
    no at sign. *)
Theorem own_content_id_is_found (parts : list Part)
  (docBase base : option jsstr) (p : Part) (id ref : jsstr) :
  p ∈ parts ->
  contentId p = Some id ->
  truthy id = true ->
  normKey id = id ->
  ref = js "cid:" ++ id \/ ref = js "cid!" ++ id ++ js "@mhtml.blink"
  \/ (ref = id /\ isWeird id = false) ->
  is_Some (buildPartMap parts docBase !! ref)
  /\ is_Some (link_hit (buildPartMap parts docBase) base ref)
  /\ is_Some (ref_hit (buildPartMap parts docBase) base ref)
  /\ is_Some (css_url_hit (buildPartMap parts docBase) base ref)
  /\ is_Some (anchor_hit (buildPartMap parts docBase) (js "cid:" ++ id))
  /\ (64 ∉ id ->
      is_Some (anchor_hit (buildPartMap parts docBase)
                 (js "cid!" ++ id ++ js "@mhtml.blink"))).
Proof.
  intros Hin Hid Ht Hn Href. set (partMap := buildPartMap parts docBase).
  assert (forall k, k ∈ cid_keys id -> is_Some (partMap !! k)) as Hk.
  { intros k Hk. unfold partMap.
    destruct (buildPartMap_first_wins_aux parts docBase k) as [-> _].
    destruct (find_is_Some (registers docBase k) parts p Hin) as [q ->];
      [|by eexists].
    apply (registers_cid_keys docBase p id k Hid); [by rewrite Hn|done]. }
  assert (is_Some (partMap !! (js "cid:" ++ id))) as Hcid.
  { apply Hk. unfold cid_keys. rewrite Hn. right. left. }
  assert (is_Some (partMap !! ref) /\ isWeird ref = false) as [Hsome Hw].
  { destruct Href as [->|[->|[-> Hw]]].
    - split; [done|reflexivity].
    - split; [|reflexivity]. apply Hk. unfold cid_keys. rewrite Hn. left.
    - split; [|done]. apply Hk. unfold cid_keys. rewrite Hn.
      right. right. left. }
  assert (is_Some (link_hit partMap base ref)) as Hlink.
  { unfold link_hit. rewrite Hw. apply or_else_is_Some. right.
    apply or_else_is_Some. by left. }
  split; [done|]. split; [done|]. split.
  { unfold ref_hit. apply or_else_is_Some. by left. }
  split.
  { unfold css_url_hit. rewrite Hw. apply or_else_is_Some. right.
    apply or_else_is_Some. right. apply or_else_is_Some. by left. }
  split.
  { unfold anchor_hit.
    change (startsWith (js "cid:" ++ id) (js "cid!")) with false. cbn iota.
    change (strip_prefix_ci (js "cid:") (js "cid:" ++ id)) with (Some id).
    apply or_else_is_Some. by left. }
  intros Hat. unfold anchor_hit.
  change (startsWith (js "cid!" ++ id ++ js "@mhtml.blink") (js "cid!"))
    with true. cbn iota.
  change (js "cid!" ++ id ++ js "@mhtml.blink")
    with (js "cid!" ++ id ++ 64 :: js "mhtml.blink").
  rewrite extractCidFromWeird_roundtrip; [|by destruct id|done].
  apply or_else_is_Some. by left.
Qed.

End IndexMore.

(** ** A second pass over rewritten references *)

Lemma b64_char_not_quote (i : N) : isQuote (b64_char i) = false.
Proof.
  unfold b64_char.
  destruct (nth_in_or_default (N.to_nat i) b64_alphabet 61) as [Hin| ->];
    [|reflexivity].
  assert (forallb (fun c => negb (isQuote c)) b64_alphabet = true) as Hall
    by (vm_compute; reflexivity).
  rewrite forallb_forall in Hall. apply Hall in Hin.
  by apply negb_true_iff in Hin.
Qed.

Lemma base64_encode_not_quote (n : nat) (bs : list byte) (c : N) :
  (length bs <= n)%nat -> c ∈ base64_encode bs -> isQuote c = false.
Proof.
  revert bs. induction n as [|n IH]; intros bs Hn Hc.
  - destruct bs; [by apply elem_of_nil in Hc|simpl in Hn; lia].
  - destruct bs as [|a [|b [|d rest]]]; simpl in Hc.
    + by apply elem_of_nil in Hc.
    + rewrite !elem_of_cons in Hc.
      destruct Hc as [->|[->|[->|[->|Hc]]]];
        first [apply b64_char_not_quote | reflexivity | by apply elem_of_nil in Hc].
    + rewrite !elem_of_cons in Hc.
      destruct Hc as [->|[->|[->|[->|Hc]]]];
        first [apply b64_char_not_quote | reflexivity | by apply elem_of_nil in Hc].
    + rewrite !elem_of_cons in Hc.
      destruct Hc as [->|[->|[->|[->|Hc]]]];
        try apply b64_char_not_quote.
      apply (IH rest); [simpl in Hn; lia|done].
Qed.

Lemma strip_last_quote_keep (a b : jsstr) :
  b <> [] -> (forall c, c ∈ b -> isQuote c = false) ->
  strip_last_quote (a ++ b) = a ++ b.
Proof.
  intros Hb Hq. unfold strip_last_quote. rewrite rev_app_distr.
  destruct (rev b) as [|c r] eqn:Hr.
  - apply (f_equal (@rev N)) in Hr. rewrite rev_involutive in Hr. done.
  - simpl. rewrite (Hq c); [done|]. apply elem_of_rev. rewrite Hr. left.
Qed.

Lemma normKey_data (x : jsstr) :
  exists y, normKey (js "data:" ++ x) = js "data:" ++ y.
Proof.
  unfold normKey.
  destruct (trim_keeps_prefix (js "data:") x) as [y ->]; [done..|].
  rewrite List.filter_app, map_app. by eexists.
Qed.

Section DataFacts.
Context {P : Platform}.

Lemma strip_quotes_dataURI (p : Part) :
  strip_quotes (dataURI (entry_of p)) = dataURI (entry_of p)
  /\ exists x, dataURI (entry_of p) = js "data:" ++ x.
Proof.
  destruct (entry_of_dataURI p) as (ty & _ & ->). split; [|by eexists].
  change (js "data:" ++ ty ++ js ";base64," ++ base64_encode (buf p))
    with (100 :: (js "ata:" ++ ty ++ js ";base64," ++ base64_encode (buf p))).
  cbn [strip_quotes]. change (isQuote 100) with false. cbn iota.
  change (100 :: (js "ata:" ++ ty ++ js ";base64," ++ base64_encode (buf p)))
    with (js "data:" ++ ty ++ js ";base64," ++ base64_encode (buf p)).
  rewrite !app_assoc. rewrite <- (app_assoc _ (js ";base64,")).
  apply strip_last_quote_keep.
  - done.
  - intros c Hc. apply elem_of_app in Hc as [Hc|Hc].
    + apply list_elem_of_In in Hc. vm_compute in Hc.
      repeat (destruct Hc as [<-|Hc]; [reflexivity|]). done.
    + by apply (base64_encode_not_quote (length (buf p)) (buf p)).
Qed.

(** X12. On an index made by [buildPartMap] the callback that rewrites the
    urls of a stylesheet is idempotent: a second walk over the nodes changes
    nothing, because every url the first walk has put in is a data URI, which
    the callback skips. *)
Theorem css_url_rewrite_is_idempotent (parts : list Part)
  (docBase base : option jsstr) (ast : list css_node) :
  map (rewrite_css_node (buildPartMap parts docBase) base)
    (map (rewrite_css_node (buildPartMap parts docBase) base) ast)
  = map (rewrite_css_node (buildPartMap parts docBase) base) ast
  /\ forall v,
       Url v ∈ map (rewrite_css_node (buildPartMap parts docBase) base) ast ->
       rewrite_css_node (buildPartMap parts docBase) base (Url v) = Url v.
Proof.
  set (f := rewrite_css_node (buildPartMap parts docBase) base).
  assert (forall n, f (f n) = f n) as Hidem.
  { intros [v|s]; [|done]. unfold f, rewrite_css_node.
    destruct (negb (truthy v)) eqn:Hv; [by rewrite Hv|].
    destruct (startsWith (strip_quotes v) (js "data:")) eqn:Hd;
      [by rewrite Hv, Hd|].
    destruct (css_url_hit _ base (strip_quotes v)) as [hit|] eqn:Hh;
      [|by rewrite Hv, Hd, Hh].
    apply css_url_hit_lookup in Hh as [k Hk].
    apply lookup_buildPartMap in Hk as (p & _ & _ & ->).
    destruct (strip_quotes_dataURI p) as [-> [x ->]]. reflexivity. }
  split.
  - rewrite map_map. apply map_ext. intros n. apply Hidem.
  - intros v Hin. apply list_elem_of_fmap in Hin as (n & -> & _). apply Hidem.
Qed.

End DataFacts.

(** Attributes. *)

Lemma get_attr_set_attr (k v : jsstr) (a : list (jsstr * jsstr)) :
  get_attr k (set_attr k v a) = Some v.
Proof.
  induction a as [|[k' v'] a IH]; simpl.
  - by rewrite bool_decide_eq_true_2.
  - destruct (bool_decide (k' = k)) eqn:E; simpl; rewrite E; [done|apply IH].
Qed.

Lemma get_attr_set_attr_ne (k k' v : jsstr) (a : list (jsstr * jsstr)) :
  k' <> k -> get_attr k' (set_attr k v a) = get_attr k' a.
Proof.
  intros Hne. induction a as [|[k0 v0] a IH]; simpl.
  - by rewrite bool_decide_eq_false_2.
  - destruct (bool_decide (k0 = k)) eqn:E; simpl.
    + apply bool_decide_eq_true in E. subst k0.
      rewrite !bool_decide_eq_false_2 by done. done.
    + destruct (bool_decide (k0 = k')); [done|apply IH].
Qed.

Lemma get_attr_remove_attr (k : jsstr) (a : list (jsstr * jsstr)) :
  get_attr k (remove_attr k a) = None.
Proof.
  unfold remove_attr. induction a as [|[k' v'] a IH]; simpl; [done|].
  destruct (bool_decide (k' = k)) eqn:E; simpl; [apply IH|].
  by rewrite E.
Qed.

Lemma has_attr_set_attr (k v : jsstr) (a : list (jsstr * jsstr)) :
  has_attr k (set_attr k v a) = true.
Proof. unfold has_attr. by rewrite get_attr_set_attr. Qed.

Lemma set_attr_twice (k v : jsstr) (a : list (jsstr * jsstr)) :
  set_attr k v (set_attr k v a) = set_attr k v a.
Proof.
  induction a as [|[k' v'] a IH]; simpl.
  - by rewrite bool_decide_eq_true_2.
  - destruct (bool_decide (k' = k)) eqn:E; simpl; rewrite E; [done|].
    by rewrite IH.
Qed.

Lemma rel_is_set_href (a : list (jsstr * jsstr)) (v d : jsstr) :
  rel_is (set_attr (js "href") d a) v = rel_is a v.
Proof. unfold rel_is. by rewrite get_attr_set_attr_ne. Qed.

(** Loops that leave a settled tree. *)

Lemma text_only_settled (f : edit_fn) (ns : list node) :
  text_only ns -> Forall (settled f) ns.
Proof.
  intros H. eapply List.Forall_impl; [|exact H]. intros n [d ->]. exact I.
Qed.

Lemma Forall_flat_map {A B} (Q : B -> Prop) (g : A -> list B) (l : list A) :
  Forall (fun x => Forall Q (g x)) l -> Forall Q (flat_map g l).
Proof.
  induction 1 as [|x l Hx _ IH]; simpl; [constructor|].
  apply Forall_app. by split.
Qed.

Lemma walk_settles (f : edit_fn) :
  (forall t a ch, leaves_settled f f t a ch) ->
  forall n, Forall (settled f) (walk f n).
Proof.
  intros Hf. induction n as [d|t a ch IH] using node_ind'.
  - repeat constructor.
  - simpl. specialize (Hf t a ch). unfold leaves_settled in Hf.
    destruct (f t a ch) as [a'|a' ch'|ns].
    + constructor; [|constructor]. apply every_element_children.
      split; [apply Hf|]. by apply Forall_flat_map.
    + destruct Hf as [Hf Hch]. constructor; [|constructor].
      apply every_element_children. split; [apply Hf|].
      by apply text_only_settled.
    + by apply text_only_settled.
Qed.

Lemma walk_preserves (f g : edit_fn) :
  (forall t a ch, f t a ch = Keep a -> leaves_settled f g t a ch) ->
  forall n, settled f n -> Forall (settled f) (walk g n).
Proof.
  intros Hg. induction n as [d|t a ch IH] using node_ind'; intros Hn.
  - repeat constructor.
  - apply every_element_children in Hn as [Hq Hch]. simpl.
    specialize (Hg t a ch Hq). unfold leaves_settled in Hg.
    destruct (g t a ch) as [a'|a' ch'|ns].
    + constructor; [|constructor]. apply every_element_children.
      split; [apply Hg|]. apply Forall_flat_map.
      rewrite List.Forall_forall in IH, Hch. apply List.Forall_forall.
      intros x Hx. by apply IH, Hch.
    + destruct Hg as [Hg Ht]. constructor; [|constructor].
      apply every_element_children. split; [apply Hg|].
      by apply text_only_settled.
    + by apply text_only_settled.
Qed.

Lemma walk_all_settles (f : edit_fn) (doc : list node) :
  (forall t a ch, leaves_settled f f t a ch) ->
  Forall (settled f) (flat_map (walk f) doc).
Proof.
  intros Hf. apply Forall_flat_map, List.Forall_forall.
  intros n _. by apply walk_settles.
Qed.

Lemma walk_all_preserves (f g : edit_fn) (doc : list node) :
  (forall t a ch, f t a ch = Keep a -> leaves_settled f g t a ch) ->
  Forall (settled f) doc -> Forall (settled f) (flat_map (walk g) doc).
Proof.
  intros Hg Hd. apply Forall_flat_map.
  rewrite List.Forall_forall in Hd. apply List.Forall_forall.
  intros n Hn. by apply walk_preserves, Hd.
Qed.

Lemma other_tag_leaves_settled (f g : edit_fn) (tf tg : jsstr) :
  tf <> tg -> acts_on tf f -> acts_on tg g ->
  (forall t a ch ch', f t a ch = f t a ch') ->
  adds_text_only g ->
  forall t a ch, f t a ch = Keep a -> leaves_settled f g t a ch.
Proof.
  intros Hne Hf Hg Hch Hout t a ch Hq. unfold leaves_settled.
  specialize (Hout t a ch).
  destruct (decide (t = tg)) as [->|Ht].
  - destruct (g tg a ch); [|split|]; try done; intros; by apply Hf.
  - rewrite (Hg t a ch Ht). intros ch'. by rewrite <- (Hch t a ch ch').
Qed.

Section LoopFacts.
Context {P : Platform}.
Variable partMap : gmap jsstr Entry.
Variable base : option jsstr.
Hypothesis Hent : forall k e, partMap !! k = Some e ->
  exists x, dataURI e = js "data:" ++ x.
Hypothesis Hkeys : no_data_keys partMap.

Lemma no_data_lookup (y : jsstr) :
  partMap !! (js "data:" ++ y) = None
  /\ partMap !! (js "cid:" ++ js "data:" ++ y) = None.
Proof.
  split.
  - destruct (partMap !! (js "data:" ++ y)) eqn:E; [|done].
    destruct (Hkeys (js "data:" ++ y)) as [H1 _]; [by eexists|]. done.
  - destruct (partMap !! (js "cid:" ++ js "data:" ++ y)) eqn:E; [|done].
    destruct (Hkeys (js "cid:" ++ js "data:" ++ y)) as [_ H2]; [by eexists|].
    done.
Qed.

Lemma ref_hit_data (x : jsstr) : ref_hit partMap base (js "data:" ++ x) = None.
Proof.
  unfold ref_hit, link_hit.
  change (isWeird (js "data:" ++ x)) with false. cbn iota.
  change (resolveAgainst base (js "data:" ++ x)) with (js "data:" ++ x).
  change (strip_cid (js "data:" ++ x)) with (js "data:" ++ x).
  change (startsWith (js "data:" ++ x) (js "cid!")) with false.
  change (extractCidFromWeird (js "data:" ++ x)) with (@None jsstr).
  destruct (normKey_data x) as [y ->].
  destruct (no_data_lookup y) as [-> _].
  destruct (no_data_lookup x) as [-> ->]. reflexivity.
Qed.

Lemma hit_dataURI (e : Entry) :
  (exists k, partMap !! k = Some e) -> exists x, dataURI e = js "data:" ++ x.
Proof. intros [k Hk]. by apply (Hent k). Qed.

Lemma img_edit_settles (t : jsstr) (a : list (jsstr * jsstr)) (ch : list node) :
  leaves_settled (img_edit partMap base) (img_edit partMap base) t a ch.
Proof.
  unfold leaves_settled, img_edit.
  destruct (is_tag t (js "img") && has_attr (js "src") a) eqn:Hc;
    [|by rewrite Hc].
  destruct (ref_hit partMap base (or_empty (get_attr (js "src") a)))
    as [hit|] eqn:Hh.
  - intros _. apply ref_hit_lookup, hit_dataURI in Hh as [x ->].
    rewrite get_attr_set_attr. cbn [or_empty]. rewrite ref_hit_data.
    match goal with |- (if ?c then _ else _) = _ => destruct c end; reflexivity.
  - intros _. by rewrite Hc, Hh.
Qed.

Lemma script_edit_settles (t : jsstr) (a : list (jsstr * jsstr))
  (ch : list node) :
  leaves_settled (script_edit partMap base) (script_edit partMap base) t a ch.
Proof.
  unfold leaves_settled, script_edit.
  destruct (is_tag t (js "script") && has_attr (js "src") a) eqn:Hc;
    [|by rewrite Hc].
  destruct (ref_hit partMap base (or_empty (get_attr (js "src") a)))
    as [hit|] eqn:Hh.
  - split; [|repeat constructor; by eexists]. intros _.
    unfold has_attr. rewrite get_attr_remove_attr. by rewrite andb_false_r.
  - intros _. by rewrite Hc, Hh.
Qed.

Lemma icon_edit_settles (t : jsstr) (a : list (jsstr * jsstr)) (ch : list node) :
  leaves_settled (icon_edit partMap base) (icon_edit partMap base) t a ch.
Proof.
  unfold leaves_settled, icon_edit.
  destruct (is_tag t (js "link")
            && (rel_is a (js "icon") || rel_is a (js "shortcut icon")
                || rel_is a (js "apple-touch-icon"))) eqn:Hc; [|by rewrite Hc].
  destruct (ref_hit partMap base (or_empty (get_attr (js "href") a)))
    as [hit|] eqn:Hh.
  - intros _. apply ref_hit_lookup, hit_dataURI in Hh as [x ->].
    rewrite !rel_is_set_href, Hc, get_attr_set_attr. cbn [or_empty].
    by rewrite ref_hit_data.
  - intros _. by rewrite Hc, Hh.
Qed.

Lemma anchor_edit_settles (t : jsstr) (a : list (jsstr * jsstr))
  (ch : list node) :
  leaves_settled (anchor_edit partMap) (anchor_edit partMap) t a ch.
Proof.
  unfold leaves_settled, anchor_edit.
  destruct (is_tag t (js "a") && has_attr (js "href") a
            && (startsWith (or_empty (get_attr (js "href") a)) (js "cid:")
                || startsWith (or_empty (get_attr (js "href") a)) (js "cid!")))
    eqn:Hc; [|by rewrite Hc].
  destruct (anchor_hit partMap (or_empty (get_attr (js "href") a)))
    as [hit|] eqn:Hh.
  - intros _. apply anchor_hit_lookup, hit_dataURI in Hh as [x ->].
    rewrite get_attr_set_attr. cbn [or_empty].
    change (startsWith (js "data:" ++ x) (js "cid:")) with false.
    change (startsWith (js "data:" ++ x) (js "cid!")) with false.
    by rewrite andb_false_r.
  - intros _. by rewrite Hc, Hh.
Qed.

Lemma img_acts : acts_on (js "img") (img_edit partMap base).
Proof.
  intros t a ch Ht. unfold img_edit, is_tag. by rewrite bool_decide_eq_false_2.
Qed.

Lemma script_acts : acts_on (js "script") (script_edit partMap base).
Proof.
  intros t a ch Ht. unfold script_edit, is_tag.
  by rewrite bool_decide_eq_false_2.
Qed.

Lemma icon_acts : acts_on (js "link") (icon_edit partMap base).
Proof.
  intros t a ch Ht. unfold icon_edit, is_tag. by rewrite bool_decide_eq_false_2.
Qed.

Lemma anchor_acts : acts_on (js "a") (anchor_edit partMap).
Proof.
  intros t a ch Ht. unfold anchor_edit, is_tag.
  by rewrite bool_decide_eq_false_2.
Qed.

Lemma script_out : adds_text_only (script_edit partMap base).
Proof.
  intros t a ch. unfold script_edit. repeat case_match; try done; simplify_eq.
  repeat constructor. by eexists.
Qed.

Lemma icon_out : adds_text_only (icon_edit partMap base).
Proof. intros t a ch. unfold icon_edit. by repeat case_match. Qed.

Lemma anchor_out : adds_text_only (anchor_edit partMap).
Proof. intros t a ch. unfold anchor_edit. by repeat case_match. Qed.

Lemma attribute_loops_twice (doc : list node) :
  attribute_loops partMap base (attribute_loops partMap base doc)
    = attribute_loops partMap base doc.
Proof.
  set (fi := img_edit partMap base). set (fs := script_edit partMap base).
  set (fc := icon_edit partMap base). set (fa := anchor_edit partMap).
  assert (forall t a ch ch', fi t a ch = fi t a ch') as Ii by done.
  assert (forall t a ch ch', fs t a ch = fs t a ch') as Is by done.
  assert (forall t a ch ch', fc t a ch = fc t a ch') as Ic by done.
  set (d1 := flat_map (walk fi) doc).
  set (d2 := flat_map (walk fs) d1).
  set (d3 := flat_map (walk fc) d2).
  set (d4 := flat_map (walk fa) d3).
  assert (Forall (settled fi) d1) as H1i
    by apply walk_all_settles, img_edit_settles.
  assert (Forall (settled fi) d2) as H2i.
  { apply walk_all_preserves; [|done].
    apply (other_tag_leaves_settled fi fs (js "img") (js "script"));
      [done | apply img_acts | apply script_acts | exact Ii | apply script_out]. }
  assert (Forall (settled fs) d2) as H2s
    by apply walk_all_settles, script_edit_settles.
  assert (Forall (settled fi) d3) as H3i.
  { apply walk_all_preserves; [|done].
    apply (other_tag_leaves_settled fi fc (js "img") (js "link"));
      [done | apply img_acts | apply icon_acts | exact Ii | apply icon_out]. }
  assert (Forall (settled fs) d3) as H3s.
  { apply walk_all_preserves; [|done].
    apply (other_tag_leaves_settled fs fc (js "script") (js "link"));
      [done | apply script_acts | apply icon_acts | exact Is | apply icon_out]. }
  assert (Forall (settled fc) d3) as H3c
    by apply walk_all_settles, icon_edit_settles.
  assert (Forall (settled fi) d4) as H4i.
  { apply walk_all_preserves; [|done].
    apply (other_tag_leaves_settled fi fa (js "img") (js "a"));
      [done | apply img_acts | apply anchor_acts | exact Ii | apply anchor_out]. }
  assert (Forall (settled fs) d4) as H4s.
  { apply walk_all_preserves; [|done].
    apply (other_tag_leaves_settled fs fa (js "script") (js "a"));
      [done | apply script_acts | apply anchor_acts | exact Is
      | apply anchor_out]. }
  assert (Forall (settled fc) d4) as H4c.
  { apply walk_all_preserves; [|done].
    apply (other_tag_leaves_settled fc fa (js "link") (js "a"));
      [done | apply icon_acts | apply anchor_acts | exact Ic | apply anchor_out]. }
  assert (Forall (settled fa) d4) as H4a
    by apply walk_all_settles, anchor_edit_settles.
  unfold attribute_loops. fold fi fs fc fa. fold d1. fold d2. fold d3. fold d4.
  rewrite (walk_all_keep fi d4 H4i), (walk_all_keep fs d4 H4s),
    (walk_all_keep fc d4 H4c), (walk_all_keep fa d4 H4a). done.
Qed.

End LoopFacts.

Section LoopIdem.
Context {P : Platform}.

(** X13. When no key of the index starts with the scheme of a data URI, bare
    or behind the cid scheme, the loops over images, scripts, icons and
    anchors are idempotent: run on their own output they change nothing. *)
Theorem attribute_loops_settle (parts : list Part)
  (docBase base : option jsstr) (doc : list node) :
  no_data_keys (buildPartMap parts docBase) ->
  attribute_loops (buildPartMap parts docBase) base
    (attribute_loops (buildPartMap parts docBase) base doc)
  = attribute_loops (buildPartMap parts docBase) base doc.
Proof.
  intros Hkeys. apply attribute_loops_twice; [|done].
  intros k e Hk. apply lookup_buildPartMap in Hk as (p & _ & _ & ->).
  destruct (entry_of_dataURI p) as (ty & _ & ->). by eexists.
Qed.

End LoopIdem.

(** ** Import rules, hint links and the base element *)

Lemma import_at_keyword (s g r : jsstr) :
  import_at s = Some (g, r) -> startsWith_ci s (js "@import") = true.
Proof.
  unfold import_at, startsWith_ci.
  by destruct (strip_prefix_ci (js "@import") s).
Qed.

Lemma next_import_None (s : jsstr) :
  ~ has_import_keyword s -> next_import s = None.
Proof.
  induction s as [|c s IH]; intros H.
  - simpl. destruct (import_at []) as [[g r]|] eqn:E; [|done].
    apply import_at_keyword in E. done.
  - rewrite next_import_cons.
    destruct (import_at (c :: s)) as [[g r]|] eqn:E.
    + exfalso. apply H. exists [], (c :: s). split; [done|].
      by apply import_at_keyword in E.
    + rewrite IH; [done|]. intros (pre & suf & -> & Hk). apply H.
      by exists (c :: pre), suf.
Qed.

Section CssMore.
Context {P : Platform}.

(** X14. A stylesheet in which the import keyword occurs nowhere is one
    literal segment, and [inlineCssImportsWithMap] returns it unchanged,
    with one call, whatever the index and the base. *)
Theorem import_free_stylesheet_is_kept (d : nat) (css : jsstr)
  (base : option jsstr) (partMap : gmap jsstr Entry) :
  ~ has_import_keyword css ->
  segments css = [Lit css]
  /\ inlineCssImportsWithMap (S d) css base partMap = Some css.
Proof.
  intros H. assert (segments css = [Lit css]) as Hs.
  { rewrite segments_unfold. by rewrite next_import_None. }
  split; [done|]. rewrite inlineCssImportsWithMap_S, Hs. simpl.
  by rewrite app_nil_r.
Qed.

End CssMore.

Lemma walk_hint_clean (n : node) :
  Forall (every_element (fun t a _ => is_hint_link t a = false))
    (walk hint_edit n).
Proof.
  induction n as [d|t a ch IH] using node_ind'.
  - repeat constructor.
  - simpl. unfold hint_edit. fold (is_hint_link t a).
    destruct (is_hint_link t a) eqn:Hh; [constructor|].
    constructor; [|constructor]. apply every_element_children.
    split; [done|]. by apply Forall_flat_map.
Qed.

Section HintFacts.
Context {P : Platform}.

(** X15. No hint link survives the rewrite: in what [rewriteDom] returns no
    element, at any depth, is a link whose rel is preconnect, dns-prefetch,
    preload or prefetch. *)
Theorem no_hint_link_survives (depth : nat) (doc out : list node)
  (docBase : option jsstr) (partMap : gmap jsstr Entry) :
  rewriteDom depth doc docBase partMap = Some out ->
  Forall (every_element (fun t a _ => is_hint_link t a = false)) out.
Proof.
  unfold rewriteDom.
  destruct (walk_all_opt _ _) as [d1|]; [|done].
  destruct (walk_all_opt _ _) as [d2|]; [|done].
  intros [= <-]. apply Forall_flat_map, List.Forall_forall.
  intros n _. apply walk_hint_clean.
Qed.

End HintFacts.

Lemma fix_base_twice (n : node) (found : bool) :
  fix_base found (fix_base found n).2 = fix_base found n.
Proof.
  revert found. induction n as [d|t a ch IH] using node_ind'; intros found;
    [done|].
  cbn [fix_base].
  match goal with |- context [?g (found || _) ch] => is_fix g; set (go := g) end.
  assert (forall d, go d (go d ch).2 = go d ch) as Hgo.
  { clear -IH. induction IH as [|x l Hx _ IHl]; intros d; [done|].
    change (go d (x :: l))
      with ((go (fix_base d x).1 l).1,
            (fix_base d x).2 :: (go (fix_base d x).1 l).2).
    cbn [snd].
    change (go d ((fix_base d x).2 :: (go (fix_base d x).1 l).2))
      with ((go (fix_base d (fix_base d x).2).1 (go (fix_base d x).1 l).2).1,
            (fix_base d (fix_base d x).2).2
              :: (go (fix_base d (fix_base d x).2).1
                    (go (fix_base d x).1 l).2).2).
    by rewrite Hx, IHl. }
  set (here := negb found && is_tag t (js "base") && has_attr (js "href") a).
  cbn [fst snd fix_base]. fold go.
  assert (negb found && is_tag t (js "base")
          && has_attr (js "href")
               (if here then set_attr (js "href") (js ".") a else a) = here)
    as ->.
  { destruct here eqn:Hh; [|done]. rewrite has_attr_set_attr.
    unfold here in Hh. apply andb_true_iff in Hh as [-> _]. done. }
  rewrite Hgo. f_equal. f_equal.
  destruct here; [apply set_attr_twice|done].
Qed.

(** X16. The step that points the first base element with an href to the
    current directory is idempotent: a second run finds the same element and
    leaves the document as the first run made it. *)
Theorem base_fix_is_idempotent (doc : list node) (found : bool) :
  fix_base_all found (fix_base_all found doc) = fix_base_all found doc.
Proof.
  revert found. induction doc as [|x doc IH]; intros found; [done|].
  cbn [fix_base_all fst snd]. rewrite fix_base_twice. by rewrite IH.
Qed.

(** ** The parts the parser makes *)

Lemma strip_prefix_ci_Forall2 (p s r : jsstr) :
  strip_prefix_ci p s = Some r ->
  exists m, s = m ++ r /\ Forall2 (fun a c => ci_eqb a c = true) p m.
Proof.
  revert s. induction p as [|a p IH]; intros s; simpl.
  - intros [= <-]. exists []. split; [done|constructor].
  - destruct s as [|c s]; [done|]. destruct (ci_eqb a c) eqn:E; [|done].
    intros H. apply IH in H as (m & -> & Hm). exists (c :: m).
    split; [done|by constructor].
Qed.

Lemma plain_unit_match (a c : N) :
  plain_unit a = true -> ci_eqb a c = true ->
  lower_unit c = a /\ isSpace c = false /\ c <> 59.
Proof.
  unfold plain_unit, ci_eqb. rewrite !andb_true_iff, !negb_true_iff.
  intros [[[Ha Hlt] Hsp] Hsc] Hc.
  apply N.eqb_eq in Ha, Hc. apply N.ltb_lt in Hlt. apply N.eqb_neq in Hsc.
  rewrite Ha in Hc. unfold ascii_lower in Hc, Ha. unfold lower_unit.
  destruct (N.leb_spec 65 c), (N.leb_spec c 90); cbn [andb] in *.
  - split; [done|]. split; [apply isSpace_false_low; lia|lia].
  - subst a. split; [|by split; [|lia]].
    destruct (N.leb_spec 192 c); [lia|]. done.
  - subst a. split; [|by split; [|lia]].
    destruct (N.leb_spec 192 c); [lia|]. done.
  - subst a. split; [|by split; [|lia]].
    destruct (N.leb_spec 192 c); [lia|]. done.
Qed.

Lemma ci_prefix_survives (p s : jsstr) :
  p <> [] -> forallb plain_unit p = true ->
  startsWith_ci s p = true ->
  startsWith (toLowerCase (trim (take_while (fun c => negb (c =? 59)) s))) p
    = true.
Proof.
  intros Hp Hplain Hs. unfold startsWith_ci in Hs.
  destruct (strip_prefix_ci p s) as [r|] eqn:E; [|done]. clear Hs.
  apply strip_prefix_ci_Forall2 in E as (m & -> & Hm).
  assert (map lower_unit m = p
          /\ (forall c, c ∈ m -> isSpace c = false /\ c <> 59)) as [Hlow Hm'].
  { clear Hp. induction Hm as [|a c p m Hac _ IH]; [split; [done|]|].
    - intros c Hc. by apply elem_of_nil in Hc.
    - simpl in Hplain. apply andb_true_iff in Hplain as [Ha Hrest].
      destruct (plain_unit_match a c Ha Hac) as (H1 & H2 & H3).
      destruct (IH Hrest) as [IH1 IH2]. split; [simpl; by rewrite H1, IH1|].
      intros x [->|Hx]%elem_of_cons; [done|by apply IH2]. }
  assert (m <> []) as Hne.
  { intros ->. by inversion Hm; subst. }
  rewrite take_while_app_all.
  2:{ intros c Hc. apply Hm' in Hc as [_ Hc]. by apply negb_true_iff, N.eqb_neq. }
  destruct (trim_keeps_prefix m (take_while (fun c => negb (c =? 59)) r))
    as [y ->]; [done| | |].
  - destruct m as [|c m]; [done|]. simpl.
    destruct (Hm' c) as [-> _]; [left|done].
  - destruct (rev m) as [|c l] eqn:Hr; [done|]. simpl.
    destruct (Hm' c) as [-> _]; [|done]. apply elem_of_rev. rewrite Hr. left.
  - unfold toLowerCase. rewrite map_app, Hlow. unfold startsWith.
    by rewrite strip_prefix_refl.
Qed.

Section ParseMore.
Context {P : Platform}.

Lemma parse_part_fields (raw : jsstr) (p : Part) :
  parse_part raw = Some p ->
  exists ct,
    contentType p = toLowerCase (trim (take_while (fun c => negb (c =? 59)) ct))
    /\ charset p = getCharset ct
    /\ text p = decode_text ct (getCharset ct) (buf p).
Proof.
  unfold parse_part.
  destruct (negb (truthy _)); [done|].
  destruct (cut_at CRLF2 _) as [[hb bb]|]; [|done].
  intros [= <-]. cbn. by eexists.
Qed.

(** X17. Every part [parseMHTML] returns is normalised: its content type is
    in lower case, trimmed and without semicolon, its charset is in lower
    case, its location and its content id are fixed by [normKey], and it has
    a text only when its content type starts with text and a slash. *)
Theorem parsed_parts_are_normalised (buffer : list byte) (parts : list Part)
  (p : Part) :
  parseMHTML buffer = Ok parts -> p ∈ parts ->
  toLowerCase (contentType p) = contentType p
  /\ trim (contentType p) = contentType p
  /\ (59 ∉ contentType p)
  /\ toLowerCase (charset p) = charset p
  /\ (forall loc, contentLocation p = Some loc -> normKey loc = loc)
  /\ (forall id, contentId p = Some id -> normKey id = id)
  /\ (is_Some (text p) -> startsWith (contentType p) (js "text/") = true).
Proof.
  unfold parseMHTML.
  destruct (cut_at CRLF2 (binary_string buffer)) as [[ht ?]|]; [|done].
  destruct (first_match boundary_at _) as [b|]; [|done].
  intros [= <-] Hin. apply list_elem_of_omap in Hin as (raw & _ & Hp).
  destruct (parse_part_normal raw p Hp) as [Hid Hloc].
  destruct (parse_part_fields raw p Hp) as (ct & Hct & Hcs & Htx).
  split; [rewrite Hct; apply toLowerCase_idem|]. split.
  { rewrite Hct. apply trim_clean.
    - apply clean_head_lower, clean_head_trim.
    - unfold toLowerCase. rewrite <- map_rev.
      apply (clean_head_lower (rev (trim _))), clean_head_rev_trim. }
  split.
  { rewrite Hct. intros H. unfold toLowerCase in H.
    apply list_elem_of_fmap in H as (x & Hx & H).
    apply trim_sublist, take_while_holds, negb_true_iff, N.eqb_neq in H.
    destruct (lower_unit_cases x) as [E|[E R]]; rewrite E in Hx; lia. }
  split; [rewrite Hcs; apply getCharset_lower|].
  split; [done|]. split; [done|].
  rewrite Htx, Hct. unfold decode_text.
  destruct (startsWith_ci ct (js "text/")) eqn:E; [|by intros [? ?]].
  intros _. by apply ci_prefix_survives.
Qed.

End ParseMore.

(** ** The boundary *)

Lemma drop_while_head (p : N -> bool) (s : jsstr) (c : N) (t : jsstr) :
  drop_while p s = c :: t -> p c = false.
Proof.
  induction s as [|d s IH]; simpl; [done|].
  destruct (p d) eqn:Hd; [done|]. by intros [= <- _].
Qed.

Lemma strip_prefix_ci_exact (p k r : jsstr) :
  strip_prefix_ci p (k ++ r) = Some r -> length k = length p ->
  strip_prefix_ci p k = Some [].
Proof.
  revert k. induction p as [|a p IH]; intros k Hs Hl.
  - by destruct k.
  - destruct k as [|c k]; [done|]. simpl in *.
    destruct (ci_eqb a c); [|done]. apply IH; [done|lia].
Qed.

(** X24. The boundary the parser takes runs from the boundary keyword, behind
    an optional double quote, to the next double quote or to the end of the
    Content-Type value: it is not empty and holds no double quote, but it
    holds whatever else follows, a semicolon and further parameters
    included. *)
Theorem boundary_runs_to_the_next_quote (ct b : jsstr) :
  first_match boundary_at ct = Some b ->
  b <> [] /\ (34 ∉ b)
  /\ exists pre kw q suf,
       ct = pre ++ kw ++ q ++ b ++ suf
       /\ startsWith_ci kw (js "boundary=") = true /\ length kw = 9%nat
       /\ (q = [] \/ q = [34])
       /\ (suf = [] \/ exists t, suf = 34 :: t).
Proof.
  intros H. apply first_match_Some in H as (pre & s & -> & H).
  unfold boundary_at in H.
  destruct (strip_prefix_ci (js "boundary=") s) as [r|] eqn:Hp; [|done].
  pose proof Hp as Hkw.
  apply strip_prefix_ci_split in Hp as (kw & -> & Hlen).
  set (r' := match r with q :: t => if q =? 34 then t else r | [] => r end) in H.
  assert (exists q, r = q ++ r' /\ (q = [] \/ q = [34])) as (q & Hq & Hq').
  { unfold r'. destruct r as [|c t]; [exists []; by split; [|left]|].
    destruct (N.eqb_spec c 34) as [->|_].
    - exists [34]. split; [done|by right].
    - exists []. split; [done|by left]. }
  pose proof (take_drop_while (fun c => negb (c =? 34)) r') as Hsplit.
  pose proof (take_while_holds (fun c => negb (c =? 34)) r') as Hrun.
  destruct (take_while (fun c => negb (c =? 34)) r') as [|x run] eqn:Ht; [done|].
  injection H as <-. split; [done|]. split.
  { intros Hin. by apply Hrun in Hin. }
  exists pre, kw, q, (drop_while (fun c => negb (c =? 34)) r').
  split; [by rewrite Hsplit, <- Hq|]. split.
  { unfold startsWith_ci.
    by rewrite (strip_prefix_ci_exact (js "boundary=") kw r Hkw Hlen). }
  split; [done|]. split; [done|].
  destruct (drop_while (fun c => negb (c =? 34)) r') as [|c t] eqn:Hd;
    [by left|].
  right. exists t. apply drop_while_head in Hd.
  apply negb_false_iff, N.eqb_eq in Hd. by subst c.
Qed.

(** ** Header blocks *)

Lemma header_line_parts (line name value : jsstr) :
  header_line line = Some (name, value) -> name <> [] /\ (58 ∉ name).
Proof.
  unfold header_line.
  pose proof (take_while_holds (fun c => negb (c =? 58)) line) as Hname.
  destruct (take_while (fun c => negb (c =? 58)) line) as [|n0 name0] eqn:Hn;
    [done|].
  destruct (drop_while (fun c => negb (c =? 58)) line) as [|colon rest] eqn:Hd;
    [done|].
  destruct (forallb _ (drop_while isSpace rest)) eqn:Hv; [|done].
  intros [= <- <-]. split; [done|].
  intros Hin. by apply Hname in Hin.
Qed.

Lemma lower_unit_not_colon (s : jsstr) : 58 ∉ s -> 58 ∉ toLowerCase s.
Proof.
  intros H Hin. unfold toLowerCase in Hin.
  apply list_elem_of_fmap in Hin as (x & Hx & Hin).
  destruct (lower_unit_cases x) as [E|[E R]]; rewrite E in Hx; [|lia].
  by subst x.
Qed.

Lemma parseHeaders_go_names (lines : list jsstr) (cur : option jsstr)
  (out : gmap jsstr jsstr) :
  (forall k, is_Some (out !! k) -> header_name k) ->
  forall k, is_Some (parseHeaders_go lines cur out !! k) -> header_name k.
Proof.
  revert cur out. induction lines as [|line rest IH]; intros cur out Hout;
    [done|].
  simpl.
  assert (forall k, is_Some (match header_line line with
             | Some (name, value) =>
                 parseHeaders_go rest (Some (toLowerCase name))
                   (set_header (toLowerCase name) value out)
             | None => parseHeaders_go rest cur out
             end !! k) -> header_name k) as Hhead.
  { destruct (header_line line) as [[name value]|] eqn:Hl; [|by apply IH].
    apply IH. intros k. unfold set_header.
    destruct (bool_decide (toLowerCase name = js "__proto__")) eqn:Hp;
      [apply Hout|].
    apply bool_decide_eq_false in Hp.
    destruct (decide (k = toLowerCase name)) as [->|Hk].
    - intros _. apply header_line_parts in Hl as (Hne & Hcol).
      split; [by destruct name|]. split; [apply toLowerCase_idem|].
      split; [by apply lower_unit_not_colon|done].
    - rewrite lookup_insert_ne by done. apply Hout. }
  destruct (match line with [] => false | c :: _ => isSpace c end);
    [|exact Hhead].
  destruct cur as [name|]; [|exact Hhead].
  apply IH. intros k. rewrite lookup_alter_is_Some. apply Hout.
Qed.

(** X18. Every name in the object [parseHeaders] returns is in lower case,
    not empty, without colon, and not the name of the prototype slot: a
    header is looked up by its name in lower case, in whatever case the
    container wrote it. *)
Theorem header_names_are_folded (block k : jsstr) :
  is_Some (parseHeaders block !! k) ->
  k <> [] /\ toLowerCase k = k /\ (58 ∉ k) /\ k <> js "__proto__".
Proof.
  apply parseHeaders_go_names. intros k' [v Hv]. by rewrite lookup_empty in Hv.
Qed.

Lemma split_lines_go_plain (cur line : jsstr) :
  10 ∉ line -> split_lines_go cur line = [rev cur ++ line].
Proof.
  revert cur. induction line as [|c s IH]; intros cur H; simpl.
  - by rewrite app_nil_r.
  - apply not_elem_of_cons in H as [Hc Hs].
    destruct (N.eqb_spec c 10) as [->|_]; [done|].
    assert (split_lines_go (c :: cur) s = [rev cur ++ c :: s]) as E.
    { rewrite IH by done. simpl. by rewrite <- app_assoc. }
    destruct (c =? 13); [|done].
    destruct s as [|d s']; [done|].
    apply not_elem_of_cons in Hs as [Hd _].
    destruct (N.eqb_spec d 10) as [->|_]; done.
Qed.

Lemma split_lines_go_last (cur block line : jsstr) :
  10 ∉ line ->
  split_lines_go cur (block ++ 13 :: 10 :: line)
    = split_lines_go cur block ++ [line].
Proof.
  intros Hl. revert cur. induction block as [|c b IH]; intros cur.
  - simpl. by rewrite (split_lines_go_plain [] line Hl).
  - cbn [app split_lines_go].
    destruct (c =? 10); [by rewrite IH|].
    destruct (c =? 13); [|apply IH].
    destruct b as [|d b']; [apply (IH (c :: cur))|].
    cbn [app]. destruct (d =? 10); apply IH.
Qed.

Lemma parseHeaders_go_app (l1 : list jsstr) (cur : option jsstr)
  (out : gmap jsstr jsstr) :
  exists cur' out', forall l2,
    parseHeaders_go (l1 ++ l2) cur out = parseHeaders_go l2 cur' out'.
Proof.
  revert cur out. induction l1 as [|line l1 IH]; intros cur out.
  - by exists cur, out.
  - cbn [app parseHeaders_go].
    destruct (match line with [] => false | c :: _ => isSpace c end).
    + destruct cur as [name|]; [apply IH|].
      destruct (header_line line) as [[name value]|]; apply IH.
    + destruct (header_line line) as [[name value]|]; apply IH.
Qed.

(** X19. The last header line wins: a line that does not start with white
    space and matches the header pattern sets the value under its name in
    lower case, whatever the lines before it held under that name. *)
Theorem last_header_line_wins (block line name value : jsstr) :
  10 ∉ line ->
  clean_head line = true ->
  header_line line = Some (name, value) ->
  toLowerCase name <> js "__proto__" ->
  parseHeaders (block ++ CRLF ++ line) !! toLowerCase name = Some value
  /\ parseHeaders line !! toLowerCase name = Some value.
Proof.
  intros Hl Hc Hh Hp.
  assert (forall cur out,
            parseHeaders_go [line] cur out !! toLowerCase name = Some value)
    as Hone.
  { intros cur out. cbn [parseHeaders_go].
    assert (match line with [] => false | c :: _ => isSpace c end = false) as ->.
    { destruct line as [|c l]; [done|]. simpl in Hc. by apply negb_true_iff. }
    rewrite Hh. unfold set_header. rewrite bool_decide_eq_false_2 by done.
    apply lookup_insert_eq. }
  split.
  - unfold parseHeaders, split_lines.
    change (CRLF ++ line) with (13 :: 10 :: line).
    rewrite split_lines_go_last by done.
    destruct (parseHeaders_go_app (split_lines_go [] block) None ∅)
      as (cur' & out' & ->). apply Hone.
  - unfold parseHeaders, split_lines. rewrite split_lines_go_plain by done.
    apply Hone.
Qed.

(** X20. A folded header is joined: a line that starts with white space,
    coming right after a header line, is appended to the value of that
    header, trimmed, behind one blank. *)
Theorem folded_header_is_joined (line cont name value : jsstr) :
  10 ∉ line -> 10 ∉ cont ->
  clean_head line = true ->
  header_line line = Some (name, value) ->
  toLowerCase name <> js "__proto__" ->
  clean_head cont = false ->
  parseHeaders (line ++ CRLF ++ cont) !! toLowerCase name
    = Some (value ++ js " " ++ trim cont).
Proof.
  intros Hl Hc Hcl Hh Hp Hcc.
  unfold parseHeaders, split_lines. change (CRLF ++ cont) with (13 :: 10 :: cont).
  rewrite split_lines_go_last, split_lines_go_plain by done.
  cbn [rev app parseHeaders_go].
  assert (match line with [] => false | c :: _ => isSpace c end = false) as ->.
  { destruct line as [|c l]; [done|]. simpl in Hcl. by apply negb_true_iff. }
  rewrite Hh.
  assert (match cont with [] => false | c :: _ => isSpace c end = true) as ->.
  { destruct cont as [|c l]; [done|]. simpl in Hcc. by apply negb_false_iff. }
  unfold set_header. rewrite bool_decide_eq_false_2 by done.
  rewrite lookup_alter_eq, lookup_insert_eq. done.
Qed.

(** ** Containers without parts *)

Lemma split_go_absent (d cur s : jsstr) :
  (forall pre suf, s = pre ++ suf -> startsWith suf d = false) ->
  split_go d O cur s = [rev cur ++ s].
Proof.
  revert cur. induction s as [|c s IH]; intros cur H; simpl.
  - by rewrite app_nil_r.
  - rewrite (H [] (c :: s)) by done. rewrite IH.
    + simpl. by rewrite <- app_assoc.
    + intros pre suf ->. by apply (H (c :: pre)).
Qed.

Lemma split_absent (s d : jsstr) : ~ occurs d s -> split s d = [s].
Proof.
  intros H. unfold split. rewrite split_go_absent; [done|].
  intros pre suf ->. unfold startsWith.
  destruct (strip_prefix d suf) as [r|] eqn:E; [|done].
  apply strip_prefix_app in E. subst suf. exfalso. apply H. by exists pre, r.
Qed.

Lemma strip_end_marker_cut (raw ws : jsstr) :
  forallb isSpace ws = true -> strip_end_marker (raw ++ js "--" ++ ws) = raw.
Proof.
  intros Hws. unfold strip_end_marker.
  rewrite !rev_app_distr, <- app_assoc.
  rewrite drop_while_all by (by rewrite forallb_rev).
  change (rev (js "--") ++ rev raw) with (45 :: 45 :: rev raw).
  cbn [drop_while]. change (isSpace 45) with false. cbn iota.
  change ((45 =? 45) && (45 =? 45)) with true. cbn iota.
  apply rev_involutive.
Qed.

Lemma cut_at_unfold (p s : jsstr) :
  cut_at p s =
    match strip_prefix p s with
    | Some r => Some ([], r)
    | None =>
        match s with
        | [] => None
        | c :: s' =>
            match cut_at p s' with
            | Some (b, r) => Some (c :: b, r)
            | None => None
            end
        end
    end.
Proof. by destruct s. Qed.

Lemma strip_prefix_long (d s rest : jsstr) :
  (length d <= length s)%nat ->
  strip_prefix d (s ++ rest)
    = match strip_prefix d s with Some r => Some (r ++ rest) | None => None end.
Proof.
  revert s. induction d as [|a d IH]; intros s Hl; [done|].
  destruct s as [|c s]; [simpl in Hl; lia|]. simpl.
  destruct (a =? c); [|done]. apply IH. simpl in Hl. lia.
Qed.

Lemma cut_at_piece (d x rest : jsstr) :
  ends_piece d x -> cut_at d (x ++ d ++ rest) = Some (x, rest).
Proof.
  unfold ends_piece. induction x as [|c x IH]; intros H.
  - cbn [app]. by rewrite cut_at_unfold, strip_prefix_refl.
  - rewrite cut_at_unfold in H. rewrite cut_at_unfold.
    rewrite (app_assoc (c :: x) d rest).
    rewrite strip_prefix_long by (rewrite length_app; simpl; lia).
    destruct (strip_prefix d ((c :: x) ++ d)) as [r|]; [done|].
    cbn [app] in *. rewrite <- app_assoc.
    destruct (cut_at d (x ++ d)) as [[b r]|] eqn:Hc; [|done].
    injection H as -> ->. by rewrite IH.
Qed.

Lemma split_go_skip (d : jsstr) (k : nat) (cur pre s : jsstr) :
  length pre = k -> split_go d k cur (pre ++ s) = split_go d O cur s.
Proof.
  revert k. induction pre as [|c pre IH]; intros k Hk; simpl in Hk; subst k;
    [done|].
  simpl. by apply IH.
Qed.

Lemma split_go_cut (d cur s b r : jsstr) :
  d <> [] -> cut_at d s = Some (b, r) ->
  split_go d O cur s = (rev cur ++ b) :: split_go d O [] r.
Proof.
  intros Hd. revert cur b. induction s as [|c s IH]; intros cur b H.
  - rewrite cut_at_unfold in H. by destruct d.
  - rewrite cut_at_unfold in H. cbn [split_go]. unfold startsWith.
    destruct (strip_prefix d (c :: s)) as [r0|] eqn:Hp.
    + injection H as <- <-. rewrite app_nil_r.
      apply strip_prefix_app in Hp. f_equal.
      destruct d as [|a d']; [done|]. injection Hp as -> ->.
      replace (length (a :: d') - 1)%nat with (length d') by (simpl; lia).
      by apply split_go_skip.
    + destruct (cut_at d s) as [[b' r']|] eqn:Hc; [|done].
      injection H as <- <-. rewrite (IH (c :: cur) b') by done.
      simpl. by rewrite <- app_assoc.
Qed.

Lemma split_cut (s d b r : jsstr) :
  d <> [] -> cut_at d s = Some (b, r) -> split s d = b :: split r d.
Proof. intros Hd H. unfold split. by rewrite (split_go_cut d [] s b r). Qed.

Lemma split_pieces (d prologue last : jsstr) (raws : list jsstr) :
  d <> [] ->
  ends_piece d prologue -> Forall (ends_piece d) raws -> ~ occurs d last ->
  split (prologue ++ delimited d raws ++ d ++ last) d
    = prologue :: raws ++ [last].
Proof.
  intros Hd Hp Hr Hl. revert prologue Hp.
  induction Hr as [|x raws Hx _ IH]; intros prologue Hp.
  - unfold delimited. simpl.
    rewrite (split_cut _ d prologue last Hd (cut_at_piece d prologue last Hp)).
    by rewrite split_absent.
  - unfold delimited. simpl. rewrite <- !app_assoc.
    rewrite (split_cut _ d prologue _ Hd (cut_at_piece d prologue _ Hp)).
    f_equal. apply (IH x Hx).
Qed.

Section NoParts.
Context {P : Platform}.

Lemma parse_part_marker (ws : jsstr) :
  forallb isSpace ws = true ->
  parse_part (js "--" ++ ws) = None /\ parse_part (CRLF ++ js "--" ++ ws) = None.
Proof.
  intros Hws. pose proof (strip_end_marker_cut [] ws Hws) as Hcut.
  cbn [app] in Hcut. split; unfold parse_part.
  - change (strip_leading_newline (js "--" ++ ws)) with (js "--" ++ ws).
    by rewrite Hcut.
  - change (strip_leading_newline (CRLF ++ js "--" ++ ws)) with (js "--" ++ ws).
    by rewrite Hcut.
Qed.

(** X21. A container whose outer header names a boundary, and in which two
    dashes followed by that boundary occur nowhere, parses to no part at all,
    and its conversion throws the error of the missing text/html part. *)
Theorem container_without_delimiter (buffer : list byte) (boundary : jsstr) :
  first_match boundary_at (outer_content_type (binary_string buffer))
    = Some boundary ->
  ~ occurs (js "--" ++ boundary) (binary_string buffer) ->
  parseMHTML buffer = Ok []
  /\ forall depth, convert depth buffer = Some (Throw NoHtmlPart).
Proof.
  intros Hb Hd.
  assert (parseMHTML buffer = Ok []) as Hp.
  { unfold parseMHTML. unfold outer_content_type in Hb.
    destruct (cut_at CRLF2 (binary_string buffer)) as [[ht rest]|];
      [|by vm_compute in Hb].
    rewrite Hb. by rewrite split_absent. }
  split; [done|]. intros depth. unfold convert. by rewrite Hp.
Qed.

(** X22. The closing marker is cut: two dashes followed by white space only,
    at the end of the raw text of a part, go with that white space; and what
    follows the last delimiter of a container, the two dashes and white
    space, gives no part. *)
Theorem closing_marker_is_cut (raw ws : jsstr) :
  forallb isSpace ws = true ->
  strip_end_marker (raw ++ js "--" ++ ws) = raw
  /\ parse_part (js "--" ++ ws) = None
  /\ parse_part (CRLF ++ js "--" ++ ws) = None.
Proof.
  intros Hws. split; [by apply strip_end_marker_cut|].
  by apply parse_part_marker.
Qed.

(** X23. The parts follow the delimiters: when the container is a prologue
    and pieces that each stand behind a delimiter, the delimiter occurring
    nowhere else, the parts are what [parse_part] makes of the pieces, in the
    order of the container, the prologue giving none; and a last piece that
    is the closing marker gives none either. *)
Theorem parts_follow_the_delimiters (buffer : list byte)
  (boundary prologue last : jsstr) (raws : list jsstr) :
  first_match boundary_at (outer_content_type (binary_string buffer))
    = Some boundary ->
  binary_string buffer
    = prologue ++ delimited (js "--" ++ boundary) raws
        ++ (js "--" ++ boundary) ++ last ->
  ends_piece (js "--" ++ boundary) prologue ->
  Forall (ends_piece (js "--" ++ boundary)) raws ->
  ~ occurs (js "--" ++ boundary) last ->
  parseMHTML buffer = Ok (omap parse_part (raws ++ [last]))
  /\ (forall ws, last = js "--" ++ ws -> forallb isSpace ws = true ->
      parseMHTML buffer = Ok (omap parse_part raws)).
Proof.
  intros Hb Ht Hp Hr Hl.
  assert (parseMHTML buffer = Ok (omap parse_part (raws ++ [last]))) as H.
  { unfold parseMHTML. unfold outer_content_type in Hb.
    destruct (cut_at CRLF2 (binary_string buffer)) as [[ht rest]|];
      [|by vm_compute in Hb].
    rewrite Hb, Ht. by rewrite split_pieces. }
  split; [done|]. intros ws -> Hws. rewrite H. f_equal.
  rewrite omap_app.
  destruct (parse_part_marker ws Hws) as [E _].
  change (omap parse_part [js "--" ++ ws])
    with (match parse_part (js "--" ++ ws) with Some p => [p] | None => [] end).
  rewrite E. by rewrite app_nil_r.
Qed.

End NoParts.

(** ** The further properties on concrete inputs *)

Lemma unencoded_body_is_kept_witness :
  strip_end_marker (strip_leading_newline dashed_raw)
    = js "Content-Transfer-Encoding: 7bit" ++ CRLF2 ++ js "i"
  /\ forall P : Platform,
       exists p, parse_part dashed_raw = Some p /\ buf p = [x69].
Proof.
  split; [reflexivity|]. intros P.
  apply (unencoded_body_is_kept dashed_raw
           (js "Content-Transfer-Encoding: 7bit") [x69]).
  - reflexivity.
  - reflexivity.
  - reflexivity.
  - left. reflexivity.
Defined.

Lemma every_hit_is_a_part_witness :
  contentLocation css_main = Some (js "https://example.com/main.css")
  /\ forall P : Platform,
       exists p, p ∈ [css_main]
         /\ entry_of css_main = entry_of p
         /\ startsWith (dataURI (entry_of css_main)) (js "data:") = true.
Proof.
  split; [reflexivity|]. intros P.
  apply (every_hit_is_a_part [css_main] None None
           (js "https://example.com/main.css")).
  left. vm_compute. reflexivity.
Defined.

Lemma own_location_is_found_witness :
  normKey (js "https://example.com/main.css") = js "https://example.com/main.css"
  /\ forall P : Platform,
       link_hit (buildPartMap [css_main] None) (Some (js "https://example.com/"))
         (js "https://example.com/main.css")
       = buildPartMap [css_main] None !! js "https://example.com/main.css".
Proof.
  split; [vm_compute; reflexivity|]. intros P.
  destruct (own_location_is_found [css_main] None (Some (js "https://example.com/"))
              css_main (js "https://example.com/main.css"))
    as (_ & _ & _ & _ & _ & H).
  - apply list_elem_of_singleton. reflexivity.
  - reflexivity.
  - reflexivity.
  - vm_compute. reflexivity.
  - reflexivity.
  - apply H. reflexivity.
Defined.

Lemma no_data_keys_pic_a {P : Platform} :
  no_data_keys (buildPartMap [pic_a] None).
Proof.
  intros k [e He]. apply lookup_buildPartMap in He as (p & Hp & Hr & _).
  apply list_elem_of_singleton in Hp. subst p.
  unfold registers in Hr. apply andb_true_iff in Hr as [_ Hr].
  apply bool_decide_eq_true in Hr. vm_compute in Hr.
  apply list_elem_of_singleton in Hr. subst k. split; reflexivity.
Qed.

Lemma attribute_loops_settle_witness :
  startsWith (js "a.png") (js "data:") = false
  /\ forall P : Platform,
       attribute_loops (buildPartMap [pic_a] None) None
         (attribute_loops (buildPartMap [pic_a] None) None [img_with (js "a.png")])
       = attribute_loops (buildPartMap [pic_a] None) None [img_with (js "a.png")]
       /\ attribute_loops (buildPartMap [pic_a] None) None [img_with (js "a.png")]
          = [img_with (js "data:image/png;base64,QQ==")].
Proof.
  split; [reflexivity|]. intros P. split.
  - apply attribute_loops_settle. apply no_data_keys_pic_a.
  - vm_compute. reflexivity.
Defined.

Lemma import_free_stylesheet_is_kept_witness :
  at_free (js "a{color:red}")
  /\ forall P : Platform,
       inlineCssImportsWithMap 1 (js "a{color:red}") None ∅
         = Some (js "a{color:red}").
Proof.
  assert (at_free (js "a{color:red}")) as H by (by apply at_free_forallb).
  split; [exact H|]. intros P.
  destruct (import_free_stylesheet_is_kept 0 (js "a{color:red}") None ∅)
    as [_ Hrun]; [by apply at_free_no_keyword|exact Hrun].
Defined.

Lemma no_hint_link_survives_witness :
  is_hint_link (js "link") [(js "rel", js "Preload"); (js "href", js "a.js")]
    = true
  /\ forall P : Platform,
       rewriteDom 1 hint_doc None ∅
         = Some [Element (js "head") []
                   [Element (js "link")
                      [(js "rel", js "author"); (js "href", js "me")] []];
                 TextNode (js "hi")]
       /\ Forall (every_element (fun t a _ => is_hint_link t a = false))
            [Element (js "head") []
               [Element (js "link")
                  [(js "rel", js "author"); (js "href", js "me")] []];
             TextNode (js "hi")].
Proof.
  split; [reflexivity|]. intros P.
  assert (rewriteDom 1 hint_doc None ∅
          = Some [Element (js "head") []
                   [Element (js "link")
                      [(js "rel", js "author"); (js "href", js "me")] []];
                 TextNode (js "hi")]) as Hrun by (vm_compute; reflexivity).
  split; [exact Hrun|].
  exact (no_hint_link_survives 1 hint_doc _ None ∅ Hrun).
Defined.

Lemma parsed_parts_are_normalised_witness :
  folded_container <> []
  /\ forall P : Platform,
       exists p,
         parseMHTML folded_container = Ok [p]
         /\ contentType p = js "text/html"
         /\ charset p = js "utf-8"
         /\ toLowerCase (contentType p) = contentType p
         /\ startsWith (contentType p) (js "text/") = true.
Proof.
  split; [vm_compute; discriminate|]. intros P.
  assert (exists p, parseMHTML folded_container = Ok [p]
                    /\ contentType p = js "text/html"
                    /\ charset p = js "utf-8"
                    /\ is_Some (text p)) as (p & Hp & Hct & Hcs & Htx).
  { set (r := parseMHTML folded_container). vm_compute in r. subst r.
    eexists. split; [reflexivity|]. split; [reflexivity|].
    split; [reflexivity|]. by eexists. }
  exists p. split; [exact Hp|]. split; [exact Hct|]. split; [exact Hcs|].
  destruct (parsed_parts_are_normalised folded_container [p] p Hp)
    as (H1 & _ & _ & _ & _ & _ & H7).
  - apply list_elem_of_singleton. reflexivity.
  - split; [exact H1|]. apply H7, Htx.
Defined.

Lemma header_names_are_folded_witness :
  parseHeaders (js "Content-Type: text/html") !! js "content-type"
    = Some (js "text/html")
  /\ toLowerCase (js "content-type") = js "content-type"
  /\ js "content-type" <> js "__proto__".
Proof.
  assert (parseHeaders (js "Content-Type: text/html") !! js "content-type"
            = Some (js "text/html")) as H by (vm_compute; reflexivity).
  split; [exact H|].
  destruct (header_names_are_folded (js "Content-Type: text/html")
              (js "content-type")) as (_ & H2 & _ & H4).
  - rewrite H. by eexists.
  - split; [exact H2|exact H4].
Defined.

Lemma last_header_line_wins_witness :
  header_line (js "CONTENT-TYPE: text/html")
    = Some (js "CONTENT-TYPE", js "text/html")
  /\ parseHeaders (js "Content-Type: text/plain" ++ CRLF
                     ++ js "CONTENT-TYPE: text/html") !! js "content-type"
     = Some (js "text/html").
Proof.
  split; [vm_compute; reflexivity|].
  destruct (last_header_line_wins (js "Content-Type: text/plain")
              (js "CONTENT-TYPE: text/html") (js "CONTENT-TYPE") (js "text/html"))
    as [H _].
  - apply not_in_forallb. reflexivity.
  - reflexivity.
  - vm_compute. reflexivity.
  - vm_compute. discriminate.
  - exact H.
Defined.

Lemma folded_header_is_joined_witness :
  header_line (js "Content-Type: multipart/related;")
    = Some (js "Content-Type", js "multipart/related;")
  /\ parseHeaders (js "Content-Type: multipart/related;" ++ CRLF
                     ++ js " boundary=XYZ") !! js "content-type"
     = Some (js "multipart/related; boundary=XYZ").
Proof.
  split; [vm_compute; reflexivity|].
  apply (folded_header_is_joined (js "Content-Type: multipart/related;")
           (js " boundary=XYZ") (js "Content-Type") (js "multipart/related;")).
  - apply not_in_forallb. reflexivity.
  - apply not_in_forallb. reflexivity.
  - reflexivity.
  - vm_compute. reflexivity.
  - vm_compute. discriminate.
  - reflexivity.
Defined.

Lemma container_without_delimiter_witness :
  cut_at (js "--XYZ") (binary_string bare_container) = None
  /\ forall P : Platform,
       parseMHTML bare_container = Ok []
       /\ forall depth, convert depth bare_container = Some (Throw NoHtmlPart).
Proof.
  assert (cut_at (js "--XYZ") (binary_string bare_container) = None) as H
    by (vm_compute; reflexivity).
  split; [exact H|]. intros P.
  apply (container_without_delimiter bare_container (js "XYZ")).
  - vm_compute. reflexivity.
  - apply cut_at_None. exact H.
Defined.

Lemma closing_marker_is_cut_witness :
  forallb isSpace CRLF = true
  /\ forall P : Platform,
       strip_end_marker (js "body" ++ js "--" ++ CRLF) = js "body"
       /\ parse_part (CRLF ++ js "--" ++ CRLF) = None.
Proof.
  split; [reflexivity|]. intros P.
  destruct (closing_marker_is_cut (js "body") CRLF) as (H1 & _ & H3);
    [reflexivity|]. split; [exact H1|exact H3].
Defined.

Lemma parts_follow_the_delimiters_witness :
  ends_piece (js "--XYZ") folded_prologue
  /\ ends_piece (js "--XYZ") folded_raw
  /\ forall P : Platform,
       parseMHTML folded_container = Ok (omap parse_part [folded_raw]).
Proof.
  assert (ends_piece (js "--XYZ") folded_prologue) as Hp
    by (vm_compute; reflexivity).
  assert (ends_piece (js "--XYZ") folded_raw) as Hr
    by (vm_compute; reflexivity).
  split; [exact Hp|]. split; [exact Hr|]. intros P.
  destruct (parts_follow_the_delimiters folded_container (js "XYZ")
              folded_prologue (js "--" ++ CRLF) [folded_raw]) as [_ H].
  - vm_compute. reflexivity.
  - vm_compute. reflexivity.
  - exact Hp.
  - constructor; [exact Hr|constructor].
  - apply cut_at_None. vm_compute. reflexivity.
  - apply (H CRLF); reflexivity.
Defined.

Lemma boundary_runs_to_the_next_quote_witness :
  first_match boundary_at
    (js "multipart/related; boundary=XYZ; type=text/html")
    = Some (js "XYZ; type=text/html")
  /\ 34 ∉ js "XYZ; type=text/html".
Proof.
  assert (first_match boundary_at
            (js "multipart/related; boundary=XYZ; type=text/html")
          = Some (js "XYZ; type=text/html")) as H by (vm_compute; reflexivity).
  split; [exact H|].
  destruct (boundary_runs_to_the_next_quote _ _ H) as (_ & Hq & _). exact Hq.
Defined.

Lemma own_content_id_is_found_witness :
  normKey (js "abc123") = js "abc123"
  /\ forall P : Platform,
       is_Some (ref_hit (buildPartMap [css_main; png_abc] None) None
                  (js "cid!abc123@mhtml.blink"))
       /\ is_Some (anchor_hit (buildPartMap [css_main; png_abc] None)
                     (js "cid:abc123")).
Proof.
  split; [vm_compute; reflexivity|]. intros P.
  destruct (own_content_id_is_found [css_main; png_abc] None None png_abc
              (js "abc123") (js "cid!abc123@mhtml.blink"))
    as (_ & _ & H3 & _ & H5 & _).
  - right. left.
  - reflexivity.
  - reflexivity.
  - vm_compute. reflexivity.
  - right. left. reflexivity.
  - split; [exact H3|exact H5].
Defined.

(** * The contract of the parser *)

Lemma cut_at_first (p s b r h t : jsstr) :
  cut_at p s = Some (b, r) -> s = h ++ p ++ t -> (length b <= length h)%nat.
Proof.
  revert b h. induction s as [|c s IH]; intros b h Hc Hs.
  - rewrite cut_at_unfold in Hc.
    destruct (strip_prefix p []) as [r0|]; [|done].
    injection Hc as <- _. simpl. lia.
  - rewrite cut_at_unfold in Hc.
    destruct (strip_prefix p (c :: s)) as [r0|] eqn:Hp.
    { injection Hc as <- _. simpl. lia. }
    destruct (cut_at p s) as [[b' r']|] eqn:Hc'; [|done].
    injection Hc as <- <-.
    destruct h as [|c' h].
    + simpl in Hs. rewrite Hs, strip_prefix_refl in Hp. done.
    + injection Hs as -> ->. simpl. specialize (IH b' h eq_refl eq_refl). lia.
Qed.

Lemma split_piece_occurs (n : nat) (s d x : jsstr) :
  d <> [] -> (length s <= n)%nat -> x ∈ split s d -> occurs x s.
Proof.
  intros Hd. revert s. induction n as [|n IH]; intros s Hn Hx.
  - destruct s; [|simpl in Hn; lia]. unfold split in Hx. simpl in Hx.
    apply list_elem_of_singleton in Hx. subst x. by exists [], [].
  - destruct (cut_at d s) as [[b r]|] eqn:Hc.
    + rewrite (split_cut s d b r Hd Hc) in Hx.
      pose proof (cut_at_Some _ _ _ _ Hc) as Hs.
      apply elem_of_cons in Hx as [->|Hx].
      * exists [], (d ++ r). by rewrite Hs.
      * assert (length r <= n)%nat as Hr.
        { rewrite Hs, !length_app in Hn. destruct d; [done|]. simpl in Hn. lia. }
        destruct (IH r Hr Hx) as (pre & post & Hr').
        exists (b ++ d ++ pre), post. rewrite Hs, Hr'. by rewrite <- !app_assoc.
    + rewrite split_absent in Hx by (by apply cut_at_None).
      apply list_elem_of_singleton in Hx. subst x. exists [], []. simpl.
      by rewrite app_nil_r.
Qed.

Lemma trim_occurs (s : jsstr) : exists a z, s = a ++ trim s ++ z.
Proof.
  unfold trim.
  pose proof (take_drop_while isSpace s) as H1.
  pose proof (take_drop_while isSpace (rev (drop_while isSpace s))) as H2.
  exists (take_while isSpace s),
         (rev (take_while isSpace (rev (drop_while isSpace s)))).
  rewrite <- rev_app_distr, H2, rev_involutive. by rewrite H1.
Qed.

Lemma strip_prefix_ci_ext (p s r x : jsstr) :
  strip_prefix_ci p s = Some r -> strip_prefix_ci p (s ++ x) = Some (r ++ x).
Proof.
  revert s. induction p as [|a p IH]; intros s; simpl.
  - by intros [= <-].
  - destruct s as [|c s]; [done|]. simpl. destruct (ci_eqb a c); [apply IH|done].
Qed.

Lemma unquote_head (v : jsstr) :
  unquote v <> [] -> 34 ∉ unquote v ->
  (exists c t, v = c :: t /\ c <> 34)
  \/ (exists c t, v = 34 :: c :: t /\ c <> 34).
Proof.
  assert (forall v1 : jsstr,
            match rev v1 with
            | c :: r => if c =? 34 then rev r else v1
            | [] => v1
            end <> [] ->
            34 ∉ match rev v1 with
                  | c :: r => if c =? 34 then rev r else v1
                  | [] => v1
                  end ->
            exists c t, v1 = c :: t /\ c <> 34) as Hv1.
  { intros v1 Hne Hq. destruct v1 as [|c t]; [done|]. exists c, t.
    split; [done|]. intros ->.
    destruct (rev (34 :: t)) as [|l r] eqn:Hr; [apply Hq; left|].
    destruct (N.eqb_spec l 34) as [->|_]; [|apply Hq; left].
    apply (f_equal (@rev N)) in Hr. rewrite rev_involutive in Hr. simpl in Hr.
    destruct (rev r) as [|x y]; [done|]. simpl in Hr. injection Hr as <- _.
    apply Hq. left. }
  unfold unquote. destruct v as [|c t]; [done|].
  destruct (N.eqb_spec c 34) as [->|Hc].
  - intros Hne Hq. right. destruct (Hv1 t Hne Hq) as (c' & t' & -> & Hc').
    by exists c', t'.
  - intros Hne Hq. left. by exists c, t.
Qed.

Lemma boundary_parameter_matches (ct b : jsstr) :
  boundary_parameter ct = Some b -> first_match boundary_at ct <> None.
Proof.
  unfold boundary_parameter. intros H Hnone.
  assert (exists seg, seg ∈ split ct (js ";") /\ boundary_of_param seg = Some b)
    as (seg & Hseg & Hb).
  { destruct (omap boundary_of_param (tail (split ct (js ";")))) as [|y l] eqn:E;
      [done|]. injection H as ->.
    assert (b ∈ omap boundary_of_param (tail (split ct (js ";")))) as Hin
      by (rewrite E; left).
    apply list_elem_of_omap in Hin as (seg & Hin & Hs). exists seg.
    split; [|done]. destruct (split ct (js ";")); [done|]. by right. }
  apply (split_piece_occurs (length ct)) in Hseg as (pre & post & Hct);
    [|done|done].
  destruct (trim_occurs seg) as (a & z & Hs).
  unfold boundary_of_param in Hb.
  destruct (strip_prefix_ci (js "boundary=") (trim seg)) as [v|] eqn:Hp; [|done].
  destruct (truthy (unquote v) && forallb (fun c => negb (c =? 34)) (unquote v))
    eqn:Hok; [|done].
  apply andb_true_iff in Hok as [Hne Hq].
  assert (boundary_at (trim seg ++ z ++ post) <> None) as Hat.
  { unfold boundary_at.
    rewrite (strip_prefix_ci_ext _ _ _ (z ++ post) Hp).
    destruct (unquote_head v) as [(c & t & -> & Hc)|(c & t & -> & Hc)].
    - by destruct (unquote v).
    - by apply not_in_forallb.
    - simpl. rewrite (proj2 (N.eqb_neq c 34)) by done. simpl.
      by rewrite (proj2 (N.eqb_neq c 34)).
    - simpl. by rewrite (proj2 (N.eqb_neq c 34)). }
  apply Hat. apply (first_match_None boundary_at ct (pre ++ a)); [done|].
  rewrite Hct. rewrite Hs at 1. by rewrite <- !app_assoc.
Qed.

Lemma ci_eqb_sym (a b : N) : ci_eqb a b = ci_eqb b a.
Proof. unfold ci_eqb. apply N.eqb_sym. Qed.

Lemma ci_equal_strip (x p r : jsstr) :
  ci_equal x p = true -> strip_prefix_ci p (x ++ r) = Some r.
Proof.
  revert p. induction x as [|a x IH]; intros [|b p]; simpl; try done.
  rewrite ci_eqb_sym. intros [-> H]%andb_true_iff. by apply IH.
Qed.

Lemma strip_prefix_ci_inv (p s r : jsstr) :
  strip_prefix_ci p s = Some r ->
  exists kw, s = kw ++ r /\ ci_equal kw p = true.
Proof.
  revert s. induction p as [|a p IH]; intros s; simpl.
  - intros [= <-]. by exists [].
  - destruct s as [|c s]; [done|]. destruct (ci_eqb a c) eqn:E; [|done].
    intros H. destruct (IH s H) as (kw & -> & Hkw). exists (c :: kw).
    split; [done|]. simpl. by rewrite ci_eqb_sym, E.
Qed.

Lemma boundary_at_pattern (s : jsstr) :
  boundary_at s <> None <->
  exists kw q c rest,
    s = kw ++ q ++ c :: rest /\ ci_equal kw (js "boundary=") = true
    /\ (q = [] \/ q = [34]) /\ c <> 34.
Proof.
  unfold boundary_at. split.
  - destruct (strip_prefix_ci (js "boundary=") s) as [r|] eqn:Hp; [|done].
    destruct (strip_prefix_ci_inv _ _ _ Hp) as (kw & -> & Hkw).
    destruct r as [|q t]; [done|].
    destruct (N.eqb_spec q 34) as [->|Hq].
    + destruct t as [|c t]; [done|]. cbn [take_while].
      destruct (N.eqb_spec c 34) as [->|Hc]; [done|]. intros _.
      exists kw, [34], c, t. auto.
    + intros _. exists kw, [], q, t. auto.
  - intros (kw & q & c & rest & -> & Hkw & Hq & Hc).
    rewrite (ci_equal_strip kw _ _ Hkw).
    apply N.eqb_neq in Hc.
    destruct Hq as [->| ->]; cbn [app].
    + rewrite Hc. cbn [take_while]. by rewrite Hc.
    + change (34 =? 34) with true. cbv iota. cbn [take_while]. by rewrite Hc.
Qed.

Lemma first_match_pattern (ct : jsstr) :
  first_match boundary_at ct <> None <-> boundary_pattern ct.
Proof.
  split.
  - intros H. destruct (first_match boundary_at ct) as [b|] eqn:Hb; [|done].
    apply first_match_Some in Hb as (pre & suf & -> & Hs).
    assert (boundary_at suf <> None) as Hne by (by rewrite Hs).
    apply boundary_at_pattern in Hne as (kw & q & c & rest & -> & ? & ? & ?).
    by exists pre, kw, q, c, rest.
  - intros (pre & kw & q & c & rest & -> & Hkw & Hq & Hc) Hnone.
    assert (boundary_at (kw ++ q ++ c :: rest) <> None) as Hne.
    { apply boundary_at_pattern. by exists kw, q, c, rest. }
    apply Hne. by apply (first_match_None boundary_at _ pre _ Hnone).
Qed.

Section Malformed.
Context {P : Platform}.

(** C3, as the code has it. The parser fails exactly when the text of the
    file holds no CR LF CR LF at all, and then with NoHeaderSection, or holds
    one and the boundary pattern matches nowhere in the Content-Type value
    read from the text before the first CR LF CR LF, and then with
    NoBoundary. Each failure is one the specification names: without CR LF
    CR LF no header block closed by a blank line stands before the first
    delimiter, whatever the delimiter is, and where the pattern matches
    nowhere the value has no boundary parameter. Each failure is a
    MalformedContainer, and the conversion of the file ends with it: no
    document comes out. The specification names more than the parser
    rejects: the converse of the third sentence does not hold. *)
Theorem parseMHTML_fails_iff (buffer : list byte) :
  ((exists e, parseMHTML buffer = Throw e) <->
     (~ occurs CRLF2 (binary_string buffer)
      \/ ~ boundary_pattern (outer_content_type (binary_string buffer))))
  /\ (parseMHTML buffer = Throw NoHeaderSection <->
      ~ occurs CRLF2 (binary_string buffer))
  /\ (parseMHTML buffer = Throw NoBoundary <->
      occurs CRLF2 (binary_string buffer)
      /\ ~ boundary_pattern (outer_content_type (binary_string buffer)))
  /\ (parseMHTML buffer = Throw NoHeaderSection ->
      forall d, ~ header_block_before d (binary_string buffer))
  /\ (parseMHTML buffer = Throw NoBoundary ->
      boundary_parameter (outer_content_type (binary_string buffer)) = None)
  /\ (forall e, parseMHTML buffer = Throw e ->
        MalformedContainer e
        /\ forall depth, convert depth buffer = Some (Throw e)).
Proof.
  assert (parseMHTML buffer = Throw NoHeaderSection <->
          ~ occurs CRLF2 (binary_string buffer)) as H1.
  { unfold parseMHTML.
    destruct (cut_at CRLF2 (binary_string buffer)) as [[h r]|] eqn:Hcut.
    - split.
      + by destruct (first_match boundary_at _).
      + intros Hn. exfalso. apply Hn. apply cut_at_Some in Hcut.
        by exists h, r.
    - split; [|done]. intros _. by apply cut_at_None. }
  assert (parseMHTML buffer = Throw NoBoundary <->
          occurs CRLF2 (binary_string buffer)
          /\ ~ boundary_pattern (outer_content_type (binary_string buffer)))
    as H2.
  { rewrite <- first_match_pattern. unfold parseMHTML, outer_content_type.
    destruct (cut_at CRLF2 (binary_string buffer)) as [[h r]|] eqn:Hcut.
    - destruct (first_match boundary_at _) as [b|] eqn:Hb.
      + split; [done|]. intros [_ Hn]. by destruct Hn.
      + split; [|done]. intros _. split; [|by intros Hn].
        apply cut_at_Some in Hcut. by exists h, r.
    - split; [done|]. intros [Ho _]. by apply cut_at_None in Hcut. }
  assert (forall e, parseMHTML buffer = Throw e -> MalformedContainer e)
    as H3 by apply parseMHTML_Throw.
  split; [|split; [exact H1|split; [exact H2|split; [|split]]]].
  - split.
    + intros [e He]. destruct (H3 e He) as [-> | ->].
      * left. by apply H1.
      * right. by apply H2.
    + intros [Hn|Hn].
      * exists NoHeaderSection. by apply H1.
      * destruct (parseMHTML buffer) as [parts|e] eqn:Hp; [|by exists e].
        exfalso. revert Hp. unfold parseMHTML.
        destruct (cut_at CRLF2 (binary_string buffer)) as [[h r]|] eqn:Hcut;
          [|done].
        destruct (first_match boundary_at _) as [b|] eqn:Hb; [|done].
        intros _. apply Hn. apply first_match_pattern.
        unfold outer_content_type. by rewrite Hcut, Hb.
  - intros He d (head & rest & Ht & _). apply H1 in He. apply He.
    by exists head, rest.
  - intros He. apply H2 in He as [_ Hn].
    destruct (boundary_parameter _) as [b|] eqn:Hpar; [|done].
    apply boundary_parameter_matches in Hpar.
    by apply first_match_pattern in Hpar.
  - intros e He. split; [by apply H3|].
    intros depth. unfold convert. by rewrite He.
Qed.

End Malformed.

(** C3 fails as stated. In the first container the header block is closed
    by no blank line: the first delimiter follows the Content-Type line at
    once, and the first CR LF CR LF of the file lies inside the first part.
    The parser reads the boundary all the same, finds two parts, and the
    conversion goes on to the rewrite. In the second container the only
    parameter of the Content-Type value is named xboundary; the pattern
    matches inside that name, and the container is parsed. *)
Lemma joined_header_is_parsed :
  boundary_parameter (outer_content_type (binary_string joined_container))
    = Some (js "XYZ")
  /\ ~ header_block_before (js "--XYZ") (binary_string joined_container)
  /\ boundary_parameter (js "multipart/related; xboundary=XYZ") = None
  /\ outer_content_type (binary_string xboundary_container)
     = js "multipart/related; xboundary=XYZ"
  /\ forall P : Platform,
       (exists p1 p2,
          parseMHTML joined_container = Ok [p1; p2]
          /\ select_root [p1; p2] = Ok p2
          /\ forall depth e, convert depth joined_container <> Some (Throw e))
       /\ (exists p, parseMHTML xboundary_container = Ok [p]
                     /\ contentType p = js "text/html").
Proof.
  split; [vm_compute; reflexivity|]. split.
  { intros (head & rest & Ht & Hfirst).
    assert (exists b r, cut_at CRLF2 (binary_string joined_container) = Some (b, r)
                        /\ (55 <= length b)%nat) as (b & r & Hc & Hb).
    { eexists _, _. split; [vm_compute; reflexivity|]. vm_compute. lia. }
    pose proof (cut_at_first _ _ _ _ _ _ Hc Ht) as Hlen.
    assert (exists pre suf,
              binary_string joined_container = pre ++ js "--XYZ" ++ suf
              /\ length pre = 47%nat) as (pre & suf & Hd & Hpre).
    { eexists _, _. split; [apply cut_at_Some; vm_compute; reflexivity|].
      reflexivity. }
    specialize (Hfirst pre suf Hd). rewrite length_app in Hfirst. lia. }
  split; [vm_compute; reflexivity|]. split; [vm_compute; reflexivity|].
  intros P. split.
  - assert (exists p1 p2, parseMHTML joined_container = Ok [p1; p2]
                          /\ select_root [p1; p2] = Ok p2) as (p1 & p2 & Hp & Hr).
    { set (r := parseMHTML joined_container). vm_compute in r. subst r.
      eexists _, _. split; [reflexivity|]. vm_compute. reflexivity. }
    exists p1, p2. split; [done|]. split; [done|].
    intros depth e. unfold convert. rewrite Hp, Hr.
    by destruct (rewriteHtmlWithMap _ _ _ _).
  - set (r := parseMHTML xboundary_container). vm_compute in r. subst r.
    eexists. split; reflexivity.
Qed.

(** * Import statements *)

Lemma drop_while_stop (p : N -> bool) (a : jsstr) (c : N) (t : jsstr) :
  forallb p a = true -> p c = false -> drop_while p (a ++ c :: t) = c :: t.
Proof.
  intros Ha Hc. rewrite drop_while_all by done. simpl. by rewrite Hc.
Qed.

Lemma take_while_stop (p : N -> bool) (a : jsstr) (c : N) (t : jsstr) :
  forallb p a = true -> p c = false -> take_while p (a ++ c :: t) = a.
Proof.
  intros Ha Hc.
  destruct (take_while_app_stop p a c t) as [H _]; [|done|done].
  intros x Hx. rewrite forallb_forall in Ha. by apply Ha, list_elem_of_In.
Qed.

Lemma import_tail_found (tl rest : jsstr) :
  forallb (fun c => negb (c =? 59)) tl = true ->
  import_tail (tl ++ 59 :: rest) = Some rest.
Proof. intros H. unfold import_tail. by rewrite drop_while_stop. Qed.

Lemma ci_equal_head (x : jsstr) (b : N) (p : jsstr) :
  ci_equal x (b :: p) = true -> exists a x', x = a :: x' /\ ci_eqb a b = true.
Proof.
  destruct x as [|a x']; [done|]. simpl. intros [H _]%andb_true_iff.
  by exists a, x'.
Qed.

Lemma ci_eqb_not_space (a b : N) :
  ci_eqb a b = true -> isSpace b = false -> b < 128 -> isSpace a = false.
Proof.
  unfold ci_eqb, ascii_lower. intros H Hb Hlt.
  destruct (N.leb_spec 65 a), (N.leb_spec a 90); cbn [andb] in H;
    destruct (N.leb_spec 65 b), (N.leb_spec b 90); cbn [andb] in H;
    apply N.eqb_eq in H; try (apply isSpace_false_low; lia);
    try (by subst a).
Qed.

Lemma drop_space_run (ws : jsstr) (c : N) (t : jsstr) :
  forallb isSpace ws = true -> isSpace c = false ->
  drop_while isSpace (ws ++ c :: t) = c :: t.
Proof. apply drop_while_stop. Qed.

Lemma import_at_keyword_run (kw ws : jsstr) (c : N) (t : jsstr) :
  ci_equal kw (js "@import") = true ->
  ws <> [] -> forallb isSpace ws = true -> isSpace c = false ->
  import_at (kw ++ ws ++ c :: t) =
    match strip_prefix_ci (js "url(") (c :: t) with
    | Some r2 => import_url_form r2
    | None => import_quoted_form (c :: t)
    end.
Proof.
  intros Hkw Hws Hsp Hc. unfold import_at.
  rewrite (ci_equal_strip kw _ _ Hkw).
  destruct ws as [|w ws']; [done|].
  pose proof Hsp as Hsp'. simpl in Hsp'.
  apply andb_true_iff in Hsp' as [Hw _].
  change ((w :: ws') ++ c :: t) with (w :: (ws' ++ c :: t)) at 1.
  cbv beta iota. rewrite Hw.
  change (w :: ws' ++ c :: t) with ((w :: ws') ++ c :: t).
  by rewrite drop_space_run.
Qed.

Lemma import_url_form_found (ws1 g ws2 tl rest : jsstr) :
  forallb isSpace ws1 = true ->
  g <> [] -> forallb url_arg_unit g = true ->
  forallb isSpace ws2 = true ->
  forallb (fun c => negb (c =? 59)) tl = true ->
  import_url_form (ws1 ++ g ++ ws2 ++ 41 :: tl ++ 59 :: rest) = Some (g, rest).
Proof.
  intros H1 Hg Hgu H2 Htl. unfold import_url_form.
  destruct g as [|g0 gs]; [done|].
  pose proof Hgu as Hgu'. simpl in Hgu'.
  apply andb_true_iff in Hgu' as [Hg0 _].
  assert (isSpace g0 = false) as Hg0s.
  { unfold url_arg_unit in Hg0. apply andb_true_iff in Hg0 as [_ Hg0].
    by apply negb_true_iff in Hg0. }
  remember (tl ++ 59 :: rest) as back eqn:Hback.
  assert (exists c t, ws2 ++ 41 :: back = c :: t /\ url_arg_unit c = false)
    as (c & t & Hct & Hc).
  { destruct ws2 as [|s0 ws2']; [by exists 41, back|].
    exists s0, (ws2' ++ 41 :: back). split; [done|].
    simpl in H2. apply andb_true_iff in H2 as [Hs0 _].
    unfold url_arg_unit. rewrite Hs0. by rewrite andb_false_r. }
  change (ws1 ++ (g0 :: gs) ++ ws2 ++ 41 :: back)
    with (ws1 ++ g0 :: (gs ++ ws2 ++ 41 :: back)).
  rewrite drop_space_run by done.
  change (g0 :: gs ++ ws2 ++ 41 :: back)
    with ((g0 :: gs) ++ ws2 ++ 41 :: back).
  rewrite Hct.
  rewrite take_while_stop, drop_while_stop by done.
  rewrite <- Hct. rewrite drop_space_run by done.
  change (41 =? 41) with true. cbv iota.
  subst back. by rewrite import_tail_found.
Qed.

Lemma import_quoted_form_found (q : N) (g tl rest : jsstr) :
  isQuote q = true ->
  forallb (fun c => negb (c =? q) && negb (isLineTerminator c)) g = true ->
  forallb (fun c => negb (c =? 59)) tl = true ->
  import_quoted_form (q :: g ++ q :: tl ++ 59 :: rest) = Some (g, rest).
Proof.
  intros Hq Hg Htl. unfold import_quoted_form. rewrite Hq.
  rewrite drop_while_stop, take_while_stop;
    [|done|by rewrite N.eqb_refl|done|by rewrite N.eqb_refl].
  rewrite N.eqb_refl. by rewrite import_tail_found.
Qed.

Lemma import_at_statement (stmt g rest : jsstr) :
  import_statement stmt g -> import_at (stmt ++ rest) = Some (g, rest).
Proof.
  intros [kw ws u ws1 g' ws2 tl Hkw Hws Hsp Hu H1 Hg Hgu H2 Htl
         |kw ws q g' tl Hkw Hws Hsp Hq Hg Htl].
  - destruct (ci_equal_head u _ _ Hu) as (u0 & u' & -> & Hu0).
    assert (isSpace u0 = false) as Hu0s
      by (apply (ci_eqb_not_space u0 117 Hu0); [reflexivity|lia]).
    replace ((kw ++ ws ++ (u0 :: u') ++ ws1 ++ g' ++ ws2 ++ [41] ++ tl ++ [59])
             ++ rest)
      with (kw ++ ws ++ u0 :: (u' ++ ws1 ++ g' ++ ws2 ++ 41 :: tl ++ 59 :: rest))
      by (by rewrite <- ?app_assoc).
    rewrite import_at_keyword_run by done.
    change (u0 :: u' ++ ws1 ++ g' ++ ws2 ++ 41 :: tl ++ 59 :: rest)
      with ((u0 :: u') ++ ws1 ++ g' ++ ws2 ++ 41 :: tl ++ 59 :: rest).
    rewrite (ci_equal_strip _ _ _ Hu).
    by apply import_url_form_found.
  - assert (isSpace q = false) as Hqs.
    { unfold isQuote in Hq. apply orb_true_iff in Hq as [Hq|Hq];
        apply N.eqb_eq in Hq; by subst q. }
    replace ((kw ++ ws ++ [q] ++ g' ++ [q] ++ tl ++ [59]) ++ rest)
      with (kw ++ ws ++ q :: (g' ++ q :: tl ++ 59 :: rest))
      by (by rewrite <- ?app_assoc).
    rewrite import_at_keyword_run by done.
    assert (strip_prefix_ci (js "url(") (q :: g' ++ q :: tl ++ 59 :: rest)
            = None) as ->.
    { unfold isQuote in Hq. apply orb_true_iff in Hq as [Hq|Hq];
        apply N.eqb_eq in Hq; by subst q. }
    by apply import_quoted_form_found.
Qed.

Lemma agrees_strip (p s x : jsstr) :
  agrees_ci p s = false -> strip_prefix_ci p (s ++ x) = None.
Proof.
  revert s. induction p as [|a p IH]; intros [|c s]; simpl; try done.
  destruct (ci_eqb a c); [apply IH|done].
Qed.

Lemma next_import_statement (stmt g rest : jsstr) :
  import_statement stmt g ->
  next_import (stmt ++ rest) = Some (mkMatch [] g stmt rest).
Proof.
  intros H. pose proof (import_at_statement stmt g rest H) as Hat.
  assert (exists c t, stmt ++ rest = c :: t) as (c & t & E).
  { destruct stmt as [|c t]; [|by exists c, (t ++ rest)].
    inversion H as [kw ? ? ? ? ? ? Hkw|kw ? ? ? ? Hkw]; by destruct kw. }
  rewrite E, next_import_cons, <- E, Hat. f_equal. f_equal.
  rewrite length_app. replace (length stmt + length rest - length rest)%nat
    with (length stmt) by lia.
  by rewrite take_app_length.
Qed.

Lemma no_open_keyword_suffix (a p : jsstr) :
  no_open_keyword (a ++ p) = true -> p <> [] ->
  agrees_ci (js "@import") p = false.
Proof.
  induction a as [|c a IH]; intros H Hp.
  - destruct p as [|c p]; [done|]. cbn [app no_open_keyword] in H.
    apply andb_true_iff in H as [H _]. by apply negb_true_iff.
  - cbn [app no_open_keyword] in H. apply andb_true_iff in H as [_ H].
    by apply IH.
Qed.

Lemma no_keyword_concat (pieces : list jsstr) :
  Forall (fun t => no_open_keyword t = true) pieces ->
  ~ has_import_keyword (concat pieces).
Proof.
  induction 1 as [|p ps Hp _ IH]; intros (a & suf & Hcat & Hk).
  - simpl in Hcat. destruct a, suf; try done.
  - simpl in Hcat. symmetry in Hcat.
    apply app_eq_inv in Hcat as [(k & -> & Hs)|(k & Ha & Hs)].
    + apply IH. by exists k, suf.
    + destruct k as [|c k].
      * apply IH. exists [], suf. simpl in Hs. split; [by subst suf|done].
      * subst p suf. unfold startsWith_ci in Hk.
        rewrite (agrees_strip _ (c :: k) (concat ps)) in Hk; [done|].
        by apply (no_open_keyword_suffix a).
Qed.

Lemma take_while_forallb (p : N -> bool) (s : jsstr) :
  forallb p (take_while p s) = true.
Proof.
  apply forallb_forall. intros c Hc. apply (take_while_holds p s).
  by apply list_elem_of_In.
Qed.

Lemma import_tail_inv (s r : jsstr) :
  import_tail s = Some r ->
  exists tl, s = tl ++ 59 :: r
             /\ forallb (fun c => negb (c =? 59)) tl = true.
Proof.
  unfold import_tail. intros H.
  destruct (drop_while _ s) as [|c t] eqn:Hd; [done|]. injection H as ->.
  pose proof (drop_while_head _ _ _ _ Hd) as Hc.
  apply negb_false_iff, N.eqb_eq in Hc. subst c.
  exists (take_while (fun c => negb (c =? 59)) s).
  split; [|apply take_while_forallb].
  by rewrite <- Hd, take_drop_while.
Qed.

Lemma import_url_form_inv (r2 g r : jsstr) :
  import_url_form r2 = Some (g, r) ->
  exists ws1 ws2 tl,
    r2 = ws1 ++ g ++ ws2 ++ [41] ++ tl ++ [59] ++ r
    /\ forallb isSpace ws1 = true /\ g <> []
    /\ forallb url_arg_unit g = true /\ forallb isSpace ws2 = true
    /\ forallb (fun c => negb (c =? 59)) tl = true.
Proof.
  unfold import_url_form. cbv zeta. intros H.
  pose proof (take_drop_while isSpace r2) as E1.
  pose proof (take_drop_while url_arg_unit (drop_while isSpace r2)) as E2.
  pose proof (take_drop_while isSpace
                (drop_while url_arg_unit (drop_while isSpace r2))) as E3.
  pose proof (take_while_forallb url_arg_unit (drop_while isSpace r2)) as Hg.
  destruct (take_while url_arg_unit (drop_while isSpace r2)) as [|g0 gs] eqn:Eg;
    [done|].
  destruct (drop_while isSpace (drop_while url_arg_unit (drop_while isSpace r2)))
    as [|close r5] eqn:Ec; [done|].
  destruct (N.eqb_spec close 41) as [->|]; [|done].
  destruct (import_tail r5) as [r'|] eqn:Ht; [|done].
  injection H as <- <-.
  apply import_tail_inv in Ht as (tl & -> & Htl).
  exists (take_while isSpace r2),
         (take_while isSpace
            (drop_while url_arg_unit (drop_while isSpace r2))), tl.
  split; [|split; [apply take_while_forallb|split; [done|split; [done|
           split; [apply take_while_forallb|done]]]]].
  rewrite <- E1 at 1. f_equal. rewrite <- E2 at 1. f_equal.
  rewrite <- E3 at 1. done.
Qed.

Lemma import_quoted_form_inv (r1 g r : jsstr) :
  import_quoted_form r1 = Some (g, r) ->
  exists q tl,
    r1 = [q] ++ g ++ [q] ++ tl ++ [59] ++ r
    /\ isQuote q = true
    /\ forallb (fun c => negb (c =? q) && negb (isLineTerminator c)) g = true
    /\ forallb (fun c => negb (c =? 59)) tl = true.
Proof.
  unfold import_quoted_form. destruct r1 as [|q r2]; [done|].
  destruct (isQuote q) eqn:Hq; [|done]. cbv zeta.
  pose proof (take_drop_while
                (fun c => negb (c =? q) && negb (isLineTerminator c)) r2) as E.
  destruct (drop_while _ r2) as [|q' r3] eqn:Ed; [done|].
  destruct (N.eqb_spec q' q) as [->|]; [|done].
  destruct (import_tail r3) as [r'|] eqn:Ht; [|done].
  intros [= <- <-]. apply import_tail_inv in Ht as (tl & -> & Htl).
  exists q, tl. split; [|split; [done|split; [apply take_while_forallb|done]]].
  cbn [app]. f_equal. by rewrite <- E at 1.
Qed.

Lemma import_at_inv (s g r : jsstr) :
  import_at s = Some (g, r) ->
  exists stmt, s = stmt ++ r /\ import_statement stmt g.
Proof.
  unfold import_at. intros H.
  destruct (strip_prefix_ci (js "@import") s) as [r0|] eqn:Hk; [|done].
  apply strip_prefix_ci_inv in Hk as (kw & -> & Hkw).
  destruct r0 as [|c r0']; [done|].
  destruct (isSpace c) eqn:Hc; [|done]. cbv zeta in H.
  pose proof (take_drop_while isSpace (c :: r0')) as E.
  pose proof (take_while_forallb isSpace (c :: r0')) as Hws.
  assert (take_while isSpace (c :: r0') <> []) as Hne
    by (cbn [take_while]; by rewrite Hc).
  set (ws := take_while isSpace (c :: r0')) in *.
  set (r1 := drop_while isSpace (c :: r0')) in *.
  destruct (strip_prefix_ci (js "url(") r1) as [r2|] eqn:Hu.
  - apply strip_prefix_ci_inv in Hu as (u & Hr1 & Hu).
    apply import_url_form_inv in H
      as (ws1 & ws2 & tl & -> & H1 & Hg & Hgu & H2 & Htl).
    exists (kw ++ ws ++ u ++ ws1 ++ g ++ ws2 ++ [41] ++ tl ++ [59]).
    split; [|by apply url_statement].
    rewrite <- E, Hr1. by rewrite <- !app_assoc.
  - apply import_quoted_form_inv in H as (q & tl & Hr1 & Hq & Hg & Htl).
    exists (kw ++ ws ++ [q] ++ g ++ [q] ++ tl ++ [59]).
    split; [|by apply quoted_statement].
    rewrite <- E, Hr1. by rewrite <- !app_assoc.
Qed.

Lemma next_import_is_statement (s : jsstr) (m : import_match) :
  next_import s = Some m -> import_statement (m_text m) (m_target m).
Proof.
  revert m. induction s as [|c s IH]; intros m.
  - simpl. destruct (import_at []) as [[g r]|] eqn:Ha; [|done].
    apply import_at_inv in Ha as (stmt & Hs & Hst).
    symmetry in Hs. apply app_eq_nil in Hs as [-> ->].
    intros [= <-]; exact Hst.
  - rewrite next_import_cons.
    destruct (import_at (c :: s)) as [[g r]|] eqn:Ha.
    + intros [= <-]. cbn [m_text m_target].
      apply import_at_inv in Ha as (stmt & Hs & Hst).
      change (S (length s)) with (length (c :: s)). rewrite Hs.
      rewrite length_app.
      replace (length stmt + length r - length r)%nat with (length stmt) by lia.
      by rewrite take_app_length.
    + destruct (next_import s) as [m'|] eqn:Hn; [|done]. intros [= <-].
      cbn [m_text m_target]. by apply IH.
Qed.

Lemma segments_go_statements (n : nat) (s g src : jsstr) :
  Import g src ∈ segments_go n s -> import_statement src g.
Proof.
  revert s. induction n as [|n IH]; intros s; simpl.
  - intros H. apply list_elem_of_singleton in H. discriminate.
  - destruct (next_import s) as [m|] eqn:Hm.
    + rewrite !elem_of_cons. intros [H|[H|H]]; [discriminate| |by apply (IH _ H)].
      injection H as -> ->. by apply next_import_is_statement in Hm.
    + intros H. apply list_elem_of_singleton in H. discriminate.
Qed.

Lemma next_import_leftmost (pre s : jsstr) :
  (forall a suf, pre ++ s = a ++ suf -> (length a < length pre)%nat ->
     import_at suf = None) ->
  next_import (pre ++ s) =
    match next_import s with
    | Some m =>
        Some (mkMatch (pre ++ m_before m) (m_target m) (m_text m) (m_rest m))
    | None => None
    end.
Proof.
  induction pre as [|c pre IH]; intros H.
  - simpl. by destruct (next_import s) as [[? ? ? ?]|].
  - change ((c :: pre) ++ s) with (c :: pre ++ s). rewrite next_import_cons.
    rewrite (H [] (c :: pre ++ s) eq_refl) by (simpl; lia).
    rewrite IH; [by destruct (next_import s)|].
    intros a suf Hs Hl. apply (H (c :: a) suf); [simpl; by f_equal|simpl; lia].
Qed.

Lemma segments_leftmost (pre stmt g rest : jsstr) :
  import_statement stmt g ->
  no_statement_before (length pre) (pre ++ stmt ++ rest) ->
  segments (pre ++ stmt ++ rest) = Lit pre :: Import g stmt :: segments rest.
Proof.
  intros Hs Hleft. rewrite segments_unfold, next_import_leftmost.
  - rewrite (next_import_statement stmt g rest Hs). simpl.
    by rewrite app_nil_r.
  - intros a suf Hsplit Hl.
    destruct (import_at suf) as [[g' r']|] eqn:Ha; [|done].
    apply import_at_inv in Ha as (stmt' & -> & Hst').
    specialize (Hleft a stmt' g' r' Hsplit Hst'). lia.
Qed.

Lemma no_open_keyword_leftmost (pre s : jsstr) :
  no_open_keyword pre = true -> no_statement_before (length pre) (pre ++ s).
Proof.
  intros Hpre a stmt g z Hsplit Hst.
  destruct (Nat.le_gt_cases (length pre) (length a)) as [|Hlt]; [done|].
  unfold gt in Hlt.
  exfalso.
  pose proof (import_at_statement stmt g z Hst) as Hat.
  apply import_at_keyword in Hat.
  apply app_eq_inv in Hsplit as [(k & -> & Hk)|(k & -> & Hk)].
  - destruct k as [|c k]; [rewrite app_nil_r in Hlt; lia|].
    pose proof (no_open_keyword_suffix a (c :: k) Hpre ltac:(done)) as Hag.
    unfold startsWith_ci in Hat. rewrite Hk in Hat.
    by rewrite (agrees_strip _ _ s Hag) in Hat.
  - rewrite length_app in Hlt. lia.
Qed.

Lemma segments_no_statement (css : jsstr) :
  (forall a stmt g z, css = a ++ stmt ++ z -> ~ import_statement stmt g) ->
  segments css = [Lit css].
Proof.
  intros H. rewrite segments_unfold.
  destruct (next_import css) as [m|] eqn:Hm; [|done]. exfalso.
  pose proof (next_import_is_statement _ _ Hm) as Hst.
  apply next_import_split in Hm as [Hs _].
  exact (H _ _ _ _ Hs Hst).
Qed.

Section Imports.
Context {P : Platform}.

Lemma nesting_returns (d : nat) (css : jsstr) (base : option jsstr)
  (partMap : gmap jsstr Entry) :
  import_nesting_le d partMap css base ->
  is_Some (inlineCssImportsWithMap (S d) css base partMap).
Proof.
  revert css base; induction d as [|d IH]; intros css base Hn;
    rewrite inlineCssImportsWithMap_S; apply import_loop_returns;
    intros g src hit Hin Hh; specialize (Hn g src hit Hin Hh).
  - done.
  - by apply IH.
Qed.

Lemma pieces_of_misses (d : nat) (partMap : gmap jsstr Entry)
  (base : option jsstr) (segs : list segment) (pieces : list jsstr) :
  Forall2 (piece_of d partMap base) segs pieces ->
  (forall g src, Import g src ∈ segs -> import_hit partMap base g = None) ->
  pieces = map lit_text segs.
Proof.
  induction 1 as [|seg piece segs pieces Hp Hf IH]; intros Hmiss; [done|].
  simpl. f_equal.
  - destruct seg as [t|g src]; simpl in Hp; [done|].
    by rewrite (Hmiss g src) in Hp by left.
  - apply IH. intros g src Hin. apply (Hmiss g src). by right.
Qed.

(** C6, as the code has it. When the imports that resolve nest at most [d]
    deep, the rewrite returns. Its output is, piece by piece, what the loop
    makes of the segments of the stylesheet: the text between the statements
    as it is, nothing for a statement whose target misses, and the rewritten
    text of the part for a statement whose target hits. The segments put
    together are the stylesheet. What the pattern cuts out is an import
    statement with its target, each time the first one that begins in the
    text left: an import statement before which no import statement begins
    is cut out, and the cutting goes on behind it; a stylesheet without
    import statement comes out as it is. The output holds no import keyword
    when no keyword begins in any piece. When every target misses, the
    output is the text between the statements, and it holds no keyword when
    no keyword begins in any of these texts. *)
Theorem imports_rewritten (d : nat) (css : jsstr) (base : option jsstr)
  (partMap : gmap jsstr Entry) :
  import_nesting_le d partMap css base ->
  exists out pieces,
    inlineCssImportsWithMap (S d) css base partMap = Some out
    /\ Forall2 (piece_of d partMap base) (segments css) pieces
    /\ out = concat pieces
    /\ concat (map seg_source (segments css)) = css
    /\ (forall g src, Import g src ∈ segments css -> import_statement src g)
    /\ (forall pre stmt g rest,
          css = pre ++ stmt ++ rest ->
          import_statement stmt g ->
          no_statement_before (length pre) css ->
          segments css = Lit pre :: Import g stmt :: segments rest)
    /\ ((forall a stmt g z,
           css = a ++ stmt ++ z -> ~ import_statement stmt g) ->
        segments css = [Lit css] /\ out = css)
    /\ (Forall (fun t => no_open_keyword t = true) pieces ->
        ~ has_import_keyword out)
    /\ ((forall g src, Import g src ∈ segments css ->
           import_hit partMap base g = None) ->
        out = concat (map lit_text (segments css))
        /\ ((forall t, Lit t ∈ segments css -> no_open_keyword t = true) ->
            ~ has_import_keyword out)).
Proof.
  intros Hn. destruct (nesting_returns d css base partMap Hn) as [out Ho].
  pose proof Ho as Hrun. rewrite inlineCssImportsWithMap_S in Ho.
  destruct (import_loop_pieces _ _ _ _ _ Ho) as (ps & Hf & ->).
  exists (concat ps), ps. split; [done|]. split; [done|]. split; [done|].
  split; [apply segments_go_source|].
  split; [intros g src; apply segments_go_statements|]. split.
  { intros pre stmt g rest -> Hs Hleft. by apply segments_leftmost. }
  split.
  { intros Hnone. pose proof (segments_no_statement css Hnone) as Hseg.
    split; [exact Hseg|]. rewrite Hseg in Hf.
    inversion Hf as [|? ? ? ? Hp Hf']; subst. inversion Hf'; subst.
    simpl in Hp. subst. simpl. apply app_nil_r. }
  split; [apply no_keyword_concat|].
  intros Hmiss.
  pose proof (pieces_of_misses d partMap base _ _ Hf Hmiss) as Hps.
  split; [by rewrite Hps|].
  intros Hlit. apply no_keyword_concat. rewrite Hps.
  apply List.Forall_forall. intros t Ht.
  apply list_elem_of_In, list_elem_of_fmap in Ht as ([t'|g src] & -> & Hin).
  - by apply Hlit.
  - done.
Qed.

End Imports.

Lemma imports_rewritten_witness :
  import_statement (js "@import url(x.css);") (js "x.css")
  /\ forall P : Platform,
       inlineCssImportsWithMap 1 (js "a{} @import url(x.css); b") None ∅
         = Some (js "a{}  b")
       /\ segments (js "a{} @import url(x.css); b")
          = [Lit (js "a{} "); Import (js "x.css") (js "@import url(x.css);");
             Lit (js " b")]
       /\ ~ has_import_keyword (js "a{}  b").
Proof.
  assert (import_statement (js "@import url(x.css);") (js "x.css")) as Hs.
  { apply (url_statement (js "@import") (js " ") (js "url(") [] (js "x.css")
             [] []); done. }
  split; [exact Hs|]. intros P.
  destruct (imports_rewritten 0 (js "a{} @import url(x.css); b") None ∅)
    as (out & pieces & Hrun & Hf & _ & _ & _ & Hseg & _ & _ & Hmiss).
  { intros g src hit _ Hh. by rewrite import_hit_empty in Hh. }
  assert (segments (js "a{} @import url(x.css); b")
          = [Lit (js "a{} "); Import (js "x.css") (js "@import url(x.css);");
             Lit (js " b")]) as Hsegs.
  { rewrite (Hseg (js "a{} ") (js "@import url(x.css);") (js "x.css") (js " b"));
      [reflexivity|reflexivity|exact Hs|].
    apply (no_open_keyword_leftmost (js "a{} ")). reflexivity. }
  destruct Hmiss as [Hlit Hno].
  { intros g src _. apply import_hit_empty. }
  rewrite Hsegs in Hlit. change (out = js "a{}  b") in Hlit. subst out.
  split; [exact Hrun|]. split; [exact Hsegs|].
  apply Hno. rewrite Hsegs. intros t Ht. rewrite !elem_of_cons in Ht.
  destruct Ht as [Ht|[Ht|[Ht|Ht]]];
    [ | discriminate | | by apply elem_of_nil in Ht]; injection Ht as ->;
    reflexivity.
Defined.

(** * References that miss *)

Lemma in_walk_all (f : edit_fn) (doc : list node) (n : node) (ns : list node)
  (x : node) :
  n ∈ doc -> walk f n = ns -> x ∈ ns -> x ∈ flat_map (walk f) doc.
Proof.
  intros Hn <- Hx. apply list_elem_of_In, in_flat_map. exists n.
  split; by apply list_elem_of_In.
Qed.

Lemma walk_inside (T : jsstr -> list (jsstr * jsstr) -> Prop) (f : edit_fn)
  (doc : list node) (t : jsstr) (a : list (jsstr * jsstr)) (ch : list node)
  (a' : list (jsstr * jsstr)) :
  (forall t a ch, T t a -> exists a', f t a ch = Keep a' /\ T t a') ->
  f t a ch = Keep a' ->
  inside T (Element t a ch) doc ->
  inside T (Element t a' (flat_map (walk f) ch)) (flat_map (walk f) doc).
Proof.
  intros HT Hf. induction 1 as [doc Hin|doc t0 a0 ch0 Hin Ht0 _ IH].
  - apply inside_here. apply (in_walk_all f doc _ _ _ Hin eq_refl).
    simpl. rewrite Hf. left.
  - destruct (HT t0 a0 ch0 Ht0) as (a0' & Hk & Ht').
    apply (inside_below _ _ _ t0 a0' (flat_map (walk f) ch0));
      [|done|exact IH].
    apply (in_walk_all f doc _ _ _ Hin eq_refl). simpl. rewrite Hk. left.
Qed.

Lemma walk_single (f : edit_fn) :
  (forall t a ch ns, f t a ch <> Replace ns) ->
  forall n, exists n', walk f n = [n'].
Proof.
  intros Hnr [d|t a ch]; [by eexists|]. simpl.
  destruct (f t a ch) as [a'|a' ch'|ns] eqn:E; [by eexists..|].
  by destruct (Hnr t a ch ns).
Qed.

Lemma walk_all_lookup (f : edit_fn) (doc : list node) (i : nat)
  (n n' : node) :
  (forall t a ch ns, f t a ch <> Replace ns) ->
  doc !! i = Some n -> walk f n = [n'] ->
  flat_map (walk f) doc !! i = Some n'.
Proof.
  intros Hnr. revert i. induction doc as [|x doc IH]; intros i Hi Hw; [done|].
  cbn [flat_map]. destruct (walk_single f Hnr x) as [x' Hx]. rewrite Hx.
  destruct i as [|i]; simpl in *.
  - injection Hi as ->. rewrite Hx in Hw. by injection Hw as ->.
  - by apply IH.
Qed.

Lemma walk_place (T : jsstr -> list (jsstr * jsstr) -> Prop) (f : edit_fn)
  (doc : list node) (path : list nat) (t : jsstr) (a : list (jsstr * jsstr))
  (ch : list node) (a' : list (jsstr * jsstr)) :
  (forall t a ch ns, f t a ch <> Replace ns) ->
  (forall t a ch, T t a -> exists a', f t a ch = Keep a' /\ T t a') ->
  f t a ch = Keep a' ->
  place T (Element t a ch) doc path ->
  place T (Element t a' (flat_map (walk f) ch)) (flat_map (walk f) doc) path.
Proof.
  intros Hnr HT Hf. induction 1 as [doc i Hi|doc i t0 a0 ch0 path Hi Ht0 _ IH].
  - apply place_here. apply (walk_all_lookup f doc i _ _ Hnr Hi).
    simpl. by rewrite Hf.
  - destruct (HT t0 a0 ch0 Ht0) as (a0' & Hk & Ht').
    apply (place_below _ _ _ i t0 a0' (flat_map (walk f) ch0));
      [|done|exact IH].
    apply (walk_all_lookup f doc i _ _ Hnr Hi). simpl. by rewrite Hk.
Qed.

Lemma walk_opt_unfold
  (f : jsstr -> list (jsstr * jsstr) -> list node -> option edit)
  (t : jsstr) (a : list (jsstr * jsstr)) (ch : list node) :
  walk_opt f (Element t a ch) =
    match f t a ch, walk_all_opt f ch with
    | Some (Keep a'), Some ch' => Some [Element t a' ch']
    | Some (Fill a' ch'), Some _ => Some [Element t a' ch']
    | Some (Replace ns), Some _ => Some ns
    | _, _ => None
    end.
Proof.
  cbn [walk_opt].
  match goal with
  | |- context [?g ch] =>
      is_fix g; assert (forall l, g l = walk_all_opt f l) as Hgo
  end.
  { induction l as [|x l IH]; [done|]. cbn [walk_all_opt]. by rewrite <- IH. }
  by rewrite Hgo.
Qed.

Lemma walk_all_opt_elem
  (f : jsstr -> list (jsstr * jsstr) -> list node -> option edit)
  (doc doc' : list node) (n : node) :
  walk_all_opt f doc = Some doc' -> n ∈ doc ->
  exists ns, walk_opt f n = Some ns /\ forall x, x ∈ ns -> x ∈ doc'.
Proof.
  revert doc'. induction doc as [|y doc IH]; intros doc' H Hin;
    [by apply elem_of_nil in Hin|].
  cbn [walk_all_opt] in H. destruct (walk_opt f y) as [ys|] eqn:Hy; [|done].
  destruct (walk_all_opt f doc) as [d|] eqn:Hd; [|done]. injection H as <-.
  apply elem_of_cons in Hin as [->|Hin].
  - exists ys. split; [done|]. intros x Hx. apply elem_of_app. by left.
  - destruct (IH d eq_refl Hin) as (ns & Hns & Hsub). exists ns.
    split; [done|]. intros x Hx. apply elem_of_app. right. by apply Hsub.
Qed.

Lemma walk_all_opt_inside (T : jsstr -> list (jsstr * jsstr) -> Prop)
  (f : jsstr -> list (jsstr * jsstr) -> list node -> option edit)
  (doc doc' : list node) (t : jsstr) (a : list (jsstr * jsstr))
  (ch : list node) (a' : list (jsstr * jsstr)) :
  (forall t a ch, T t a -> exists a', f t a ch = Some (Keep a') /\ T t a') ->
  f t a ch = Some (Keep a') ->
  inside T (Element t a ch) doc -> walk_all_opt f doc = Some doc' ->
  exists ch', inside T (Element t a' ch') doc'.
Proof.
  intros HT Hf Hin. revert doc'.
  induction Hin as [doc Hin|doc t0 a0 ch0 Hin Ht0 _ IH]; intros doc' Hrun.
  - destruct (walk_all_opt_elem f doc doc' _ Hrun Hin) as (ns & Hns & Hsub).
    rewrite walk_opt_unfold, Hf in Hns.
    destruct (walk_all_opt f ch) as [ch'|]; [|done]. injection Hns as <-.
    exists ch'. apply inside_here, Hsub. left.
  - destruct (walk_all_opt_elem f doc doc' _ Hrun Hin) as (ns & Hns & Hsub).
    destruct (HT t0 a0 ch0 Ht0) as (a0' & Hk & Ht').
    rewrite walk_opt_unfold, Hk in Hns.
    destruct (walk_all_opt f ch0) as [ch0'|] eqn:Hc; [|done].
    injection Hns as <-. destruct (IH ch0' eq_refl) as (ch' & Hi).
    exists ch'. eapply inside_below; [apply Hsub; left | exact Ht' | exact Hi].
Qed.

Lemma fix_base_unfold (found : bool) (t : jsstr) (a : list (jsstr * jsstr))
  (ch : list node) :
  fix_base found (Element t a ch) =
    let here :=
      negb found && is_tag t (js "base") && has_attr (js "href") a in
    ((fix_base_list (found || here) ch).1,
     Element t (if here then set_attr (js "href") (js ".") a else a)
       (fix_base_list (found || here) ch).2).
Proof.
  cbn [fix_base]. cbv zeta.
  match goal with
  | |- context [?g (found || _) ch] =>
      is_fix g; assert (forall l d, g d l = fix_base_list d l) as Hgo
  end.
  { induction l as [|x l IH]; intros d; [done|].
    simpl. by rewrite IH. }
  by rewrite Hgo.
Qed.

Lemma fix_base_all_list (found : bool) (doc : list node) :
  fix_base_all found doc = (fix_base_list found doc).2.
Proof.
  revert found. induction doc as [|x doc IH]; intros found; [done|].
  cbn [fix_base_all fix_base_list]. cbv zeta. cbn [snd]. by rewrite IH.
Qed.

Lemma fix_base_list_elem (found : bool) (l : list node) (n : node) :
  n ∈ l -> exists d, (fix_base d n).2 ∈ (fix_base_list found l).2.
Proof.
  revert found. induction l as [|x l IH]; intros found Hin;
    [by apply elem_of_nil in Hin|].
  cbn [fix_base_list]. cbv zeta. cbn [snd].
  apply elem_of_cons in Hin as [->|Hin].
  - exists found. left.
  - destruct (IH (fix_base found x).1 Hin) as [d Hd]. exists d. by right.
Qed.

Lemma fix_base_inside (T : jsstr -> list (jsstr * jsstr) -> Prop)
  (found : bool) (doc : list node) (t : jsstr) (a : list (jsstr * jsstr))
  (ch : list node) :
  (forall t a a', T t a -> T t a') ->
  is_tag t (js "base") && has_attr (js "href") a = false ->
  inside T (Element t a ch) doc ->
  exists ch', inside T (Element t a ch') (fix_base_list found doc).2.
Proof.
  intros HT Hb Hin. revert found.
  induction Hin as [doc Hin|doc t0 a0 ch0 Hin Ht0 _ IH]; intros found.
  - destruct (fix_base_list_elem found doc _ Hin) as [d Hd].
    rewrite fix_base_unfold in Hd. cbv zeta in Hd. cbn [snd] in Hd.
    rewrite <- andb_assoc, Hb, andb_false_r in Hd.
    eexists. apply inside_here. exact Hd.
  - destruct (fix_base_list_elem found doc _ Hin) as [d Hd].
    rewrite fix_base_unfold in Hd. cbv zeta in Hd. cbn [snd] in Hd.
    destruct (IH (d || (negb d && is_tag t0 (js "base")
                        && has_attr (js "href") a0))) as [ch' Hi].
    exists ch'. eapply inside_below; [exact Hd| |exact Hi].
    by apply (HT t0 a0).
Qed.

Section Misses.
Context {P : Platform}.
Variable partMap : gmap jsstr Entry.
Variable docBase : option jsstr.

Lemma link_hit_of_ref_hit (u : jsstr) :
  ref_hit partMap docBase u = None -> link_hit partMap docBase u = None.
Proof. unfold ref_hit. by destruct (link_hit partMap docBase u). Qed.

Lemma img_never_replaces t a ch ns :
  img_edit partMap docBase t a ch <> Replace ns.
Proof. unfold img_edit. by repeat case_match. Qed.

Lemma script_never_replaces t a ch ns :
  script_edit partMap docBase t a ch <> Replace ns.
Proof. unfold script_edit. by repeat case_match. Qed.

Lemma icon_never_replaces t a ch ns :
  icon_edit partMap docBase t a ch <> Replace ns.
Proof. unfold icon_edit. by repeat case_match. Qed.

Lemma anchor_never_replaces t a ch ns :
  anchor_edit partMap t a ch <> Replace ns.
Proof. unfold anchor_edit. by repeat case_match. Qed.

Lemma script_edit_other (t : jsstr) (a : list (jsstr * jsstr))
  (ch : list node) :
  t <> js "script" -> script_edit partMap docBase t a ch = Keep a.
Proof.
  intros H. unfold script_edit, is_tag. by rewrite bool_decide_eq_false_2.
Qed.

Lemma img_keeps_way (t : jsstr) (a : list (jsstr * jsstr)) (ch : list node) :
  no_script_hit partMap docBase t a ->
  exists a', img_edit partMap docBase t a ch = Keep a'
             /\ no_script_hit partMap docBase t a'.
Proof.
  intros HT. unfold img_edit, is_tag.
  destruct (bool_decide (t = js "img")) eqn:E; [|by exists a].
  apply bool_decide_eq_true in E. subst t. cbn [andb].
  repeat case_match; eexists; (split; [done|]); intros Ht; discriminate Ht.
Qed.

Lemma script_keeps_way (t : jsstr) (a : list (jsstr * jsstr))
  (ch : list node) :
  no_script_hit partMap docBase t a ->
  exists a', script_edit partMap docBase t a ch = Keep a'
             /\ no_script_hit partMap docBase t a'.
Proof.
  intros HT. exists a. split; [|exact HT]. unfold script_edit, is_tag.
  destruct (bool_decide (t = js "script")) eqn:E; [|done].
  apply bool_decide_eq_true in E.
  destruct (has_attr (js "src") a) eqn:Hs; [|done].
  cbn [andb]. by rewrite (HT E Hs).
Qed.

Lemma icon_keeps_way (t : jsstr) (a : list (jsstr * jsstr)) (ch : list node) :
  no_script_hit partMap docBase t a ->
  exists a', icon_edit partMap docBase t a ch = Keep a'
             /\ no_script_hit partMap docBase t a'.
Proof.
  intros HT. unfold icon_edit, is_tag.
  destruct (bool_decide (t = js "link")) eqn:E; [|by exists a].
  apply bool_decide_eq_true in E. subst t. cbn [andb].
  repeat case_match; eexists; (split; [done|]); intros Ht; discriminate Ht.
Qed.

Lemma anchor_keeps_way (t : jsstr) (a : list (jsstr * jsstr))
  (ch : list node) :
  no_script_hit partMap docBase t a ->
  exists a', anchor_edit partMap t a ch = Keep a'
             /\ no_script_hit partMap docBase t a'.
Proof.
  intros HT. unfold anchor_edit, is_tag.
  destruct (bool_decide (t = js "a")) eqn:E; [|by exists a].
  apply bool_decide_eq_true in E. subst t. cbn [andb].
  repeat case_match; eexists; (split; [done|]); intros Ht; discriminate Ht.
Qed.

(** An element whose references miss keeps its place and its attributes in
    the four loops, whatever the rest of the document resolves to. *)
Lemma attribute_loops_place (doc : list node) (path : list nat) (t : jsstr)
  (a : list (jsstr * jsstr)) (ch : list node) :
  place (no_script_hit partMap docBase) (Element t a ch) doc path ->
  refs_miss partMap docBase t a ch ->
  place (no_script_hit partMap docBase)
    (Element t a (attribute_loops partMap docBase ch))
    (attribute_loops partMap docBase doc) path.
Proof.
  intros Hp (Hs & Hh & Ha). unfold attribute_loops.
  apply walk_place with (a := a);
    [apply anchor_never_replaces|apply anchor_keeps_way
    |by apply anchor_edit_miss|].
  apply walk_place with (a := a);
    [apply icon_never_replaces|apply icon_keeps_way
    |by apply icon_edit_miss|].
  apply walk_place with (a := a);
    [apply script_never_replaces|apply script_keeps_way
    |by apply script_edit_miss|].
  apply walk_place with (a := a);
    [apply img_never_replaces|apply img_keeps_way
    |by apply img_edit_miss|].
  exact Hp.
Qed.

Lemma get_attr_restyled (name : jsstr) (a : list (jsstr * jsstr)) :
  name <> js "style" ->
  get_attr name (restyled partMap docBase a) = get_attr name a.
Proof.
  intros H. unfold restyled. repeat case_match; try done.
  by apply get_attr_set_attr_ne.
Qed.

Lemma style_attr_edit_restyled (t : jsstr) (a : list (jsstr * jsstr))
  (ch : list node) :
  style_attr_edit partMap docBase t a ch = Keep (restyled partMap docBase a).
Proof. unfold style_attr_edit, restyled. by repeat case_match. Qed.

Lemma rel_is_restyled (a : list (jsstr * jsstr)) (v : jsstr) :
  rel_is (restyled partMap docBase a) v = rel_is a v.
Proof. unfold rel_is. by rewrite get_attr_restyled. Qed.

Lemma stylesheet_edit_miss (depth : nat) (t : jsstr)
  (a : list (jsstr * jsstr)) (ch : list node) :
  link_hit partMap docBase (or_empty (get_attr (js "href") a)) = None ->
  stylesheet_edit depth partMap docBase t a ch =
    Some (if placeholder_stylesheet t a then Replace [] else Keep a).
Proof.
  intros Hmiss. unfold stylesheet_edit, placeholder_stylesheet.
  rewrite Hmiss.
  destruct (is_tag t (js "link") && rel_is a (js "stylesheet")
            && has_attr (js "href") a); [|done].
  cbn [andb]. by destruct (startsWith_ci _ _).
Qed.

Lemma holds_elements_any (t : jsstr) (a a' : list (jsstr * jsstr)) :
  holds_elements t a -> holds_elements t a'.
Proof. done. Qed.

Lemma stylesheet_way (depth : nat) (t : jsstr) (a : list (jsstr * jsstr))
  (ch : list node) :
  holds_elements t a ->
  exists a', stylesheet_edit depth partMap docBase t a ch = Some (Keep a')
             /\ holds_elements t a'.
Proof.
  intros HT. exists a. split; [|done]. destruct HT as (Hl & _ & _).
  unfold stylesheet_edit, is_tag. by rewrite bool_decide_eq_false_2.
Qed.

Lemma style_way (depth : nat) (t : jsstr) (a : list (jsstr * jsstr))
  (ch : list node) :
  holds_elements t a ->
  exists a', style_edit depth partMap docBase t a ch = Some (Keep a')
             /\ holds_elements t a'.
Proof.
  intros HT. exists a. split; [|done]. destruct HT as (_ & Hs & _).
  unfold style_edit, is_tag. by rewrite bool_decide_eq_false_2.
Qed.

Lemma style_attr_way (t : jsstr) (a : list (jsstr * jsstr)) (ch : list node) :
  holds_elements t a ->
  exists a', style_attr_edit partMap docBase t a ch = Keep a'
             /\ holds_elements t a'.
Proof. intros HT. eexists. by rewrite style_attr_edit_restyled. Qed.

Lemma img_way (t : jsstr) (a : list (jsstr * jsstr)) (ch : list node) :
  holds_elements t a ->
  exists a', img_edit partMap docBase t a ch = Keep a' /\ holds_elements t a'.
Proof. intros HT. unfold img_edit. repeat case_match; by eexists. Qed.

Lemma script_way (t : jsstr) (a : list (jsstr * jsstr)) (ch : list node) :
  holds_elements t a ->
  exists a', script_edit partMap docBase t a ch = Keep a'
             /\ holds_elements t a'.
Proof.
  intros HT. exists a. split; [|done]. destruct HT as (_ & _ & Hs).
  by apply script_edit_other.
Qed.

Lemma icon_way (t : jsstr) (a : list (jsstr * jsstr)) (ch : list node) :
  holds_elements t a ->
  exists a', icon_edit partMap docBase t a ch = Keep a' /\ holds_elements t a'.
Proof. intros HT. unfold icon_edit. repeat case_match; by eexists. Qed.

Lemma anchor_way (t : jsstr) (a : list (jsstr * jsstr)) (ch : list node) :
  holds_elements t a ->
  exists a', anchor_edit partMap t a ch = Keep a' /\ holds_elements t a'.
Proof. intros HT. unfold anchor_edit. repeat case_match; by eexists. Qed.

Lemma hint_way (t : jsstr) (a : list (jsstr * jsstr)) (ch : list node) :
  holds_elements t a ->
  exists a', hint_edit t a ch = Keep a' /\ holds_elements t a'.
Proof.
  intros HT. exists a. split; [|done]. destruct HT as (Hl & _ & _).
  unfold hint_edit, is_tag. by rewrite bool_decide_eq_false_2.
Qed.

Lemma hint_edit_other (t : jsstr) (a : list (jsstr * jsstr)) (ch : list node) :
  is_hint_link t a = false -> hint_edit t a ch = Keep a.
Proof. unfold hint_edit, is_hint_link. by intros ->. Qed.

Lemma is_hint_link_restyled (t : jsstr) (a : list (jsstr * jsstr)) :
  is_hint_link t (restyled partMap docBase a) = is_hint_link t a.
Proof. unfold is_hint_link. by rewrite !rel_is_restyled. Qed.

(** An element whose references miss, and that is none of the elements the
    rewriter takes away or fills, is in the rewritten document with its
    attributes, the style attribute apart. *)
Lemma rewriteDom_inside (depth : nat) (doc out : list node) (t : jsstr)
  (a : list (jsstr * jsstr)) (ch : list node) :
  rewriteDom depth doc docBase partMap = Some out ->
  inside holds_elements (Element t a ch) doc ->
  refs_miss partMap docBase t a ch ->
  is_tag t (js "base") && has_attr (js "href") a = false ->
  is_tag t (js "style") = false ->
  placeholder_stylesheet t a = false ->
  is_hint_link t a = false ->
  exists ch',
    inside holds_elements (Element t (restyled partMap docBase a) ch') out.
Proof.
  intros Hrun Hin (Hs & Hh & Ha) Hb Hst Hph Hhint.
  unfold rewriteDom in Hrun. cbv zeta in Hrun.
  rewrite fix_base_all_list in Hrun.
  destruct (fix_base_inside holds_elements false doc t a ch
              holds_elements_any Hb Hin) as [ch0 H0].
  destruct (walk_all_opt _ _) as [doc1|] eqn:H1 in Hrun; [|done].
  destruct (walk_all_opt _ doc1) as [doc2|] eqn:H2 in Hrun; [|done].
  injection Hrun as <-.
  destruct (walk_all_opt_inside holds_elements _ _ _ t a ch0 a
              (stylesheet_way depth)
              ltac:(by rewrite stylesheet_edit_miss, Hph
                      by (by apply link_hit_of_ref_hit))
              H0 H1) as [ch1 Hi1].
  destruct (walk_all_opt_inside holds_elements _ _ _ t a ch1 a
              (style_way depth)
              ltac:(by unfold style_edit; rewrite Hst)
              Hi1 H2) as [ch2 Hi2].
  pose proof (get_attr_restyled (js "src") a ltac:(done)) as Esrc.
  pose proof (get_attr_restyled (js "href") a ltac:(done)) as Ehref.
  eexists.
  apply walk_inside with (a := restyled partMap docBase a);
    [apply hint_way
    |by apply hint_edit_other; rewrite is_hint_link_restyled|].
  apply walk_inside with (a := restyled partMap docBase a);
    [apply anchor_way|by apply anchor_edit_miss; rewrite Ehref|].
  apply walk_inside with (a := restyled partMap docBase a);
    [apply icon_way|by apply icon_edit_miss; rewrite Ehref|].
  apply walk_inside with (a := restyled partMap docBase a);
    [apply script_way|by apply script_edit_miss; rewrite Esrc|].
  apply walk_inside with (a := restyled partMap docBase a);
    [apply img_way|by apply img_edit_miss; rewrite Esrc|].
  apply walk_inside with (a := a);
    [apply style_attr_way|apply style_attr_edit_restyled|].
  exact Hi2.
Qed.

(** C8, as the code has it. A reference that matches no entry of the index
    stays as it is, whatever the references beside it resolve to.
    In a stylesheet, a url node whose value misses keeps its value, at its
    place in the tree from which css-tree generates the output; when all url
    nodes miss, that tree is the one css-tree parsed.
    In the document, the body of each of the loops over images, scripts,
    icons and anchors keeps the attributes of an element whose reference
    misses. Through the four loops an element whose references miss keeps its
    place and its attributes, unless it lies below a script whose reference
    resolves; a document in which every reference misses comes out as it is.
    Through the whole rewrite such an element stays in the document, with all
    its attributes but the style attribute, when it lies below no link, style
    or script element and is itself no base element with an href, no style
    element, no stylesheet link on a cid placeholder and no hint link.
    On a miss the rewriters do take away the stylesheet link whose reference
    is a cid placeholder; the hint links go whatever the index holds. *)
Theorem misses_are_left_alone :
  (forall ast,
     (forall v, Url v ∈ ast ->
        css_url_hit partMap docBase (strip_quotes v) = None) ->
     map (rewrite_css_node partMap docBase) ast = ast)
  /\ (forall css,
        truthy css = true ->
        (forall v, Url v ∈ css_parse css ->
           css_url_hit partMap docBase (strip_quotes v) = None) ->
        inlineCssUrlsWithMap css docBase partMap = css_generate (css_parse css))
  /\ (forall doc,
        Forall (every_element (refs_miss partMap docBase)) doc ->
        attribute_loops partMap docBase doc = doc)
  /\ (forall depth t a ch,
        let href0 := or_empty (get_attr (js "href") a) in
        let href := if isWeird href0 then normalizeWeirdUrl href0 else href0 in
        link_hit partMap docBase href0 = None ->
        stylesheet_edit depth partMap docBase t a ch =
          Some (if is_tag t (js "link") && rel_is a (js "stylesheet")
                   && has_attr (js "href") a && startsWith_ci href (js "cid!")
                then Replace [] else Keep a))
  /\ (forall t a ch,
        is_tag t (js "link")
        && (rel_is a (js "preconnect") || rel_is a (js "dns-prefetch")
            || rel_is a (js "preload") || rel_is a (js "prefetch")) = true ->
        walk hint_edit (Element t a ch) = [])
  /\ (forall css i v,
        truthy css = true ->
        css_parse css !! i = Some (Url v) ->
        css_url_hit partMap docBase (strip_quotes v) = None ->
        inlineCssUrlsWithMap css docBase partMap
          = css_generate (map (rewrite_css_node partMap docBase) (css_parse css))
        /\ map (rewrite_css_node partMap docBase) (css_parse css) !! i
           = Some (Url v))
  /\ (forall t a ch,
        (ref_hit partMap docBase (or_empty (get_attr (js "src") a)) = None ->
         img_edit partMap docBase t a ch = Keep a
         /\ script_edit partMap docBase t a ch = Keep a)
        /\ (ref_hit partMap docBase (or_empty (get_attr (js "href") a)) = None ->
            icon_edit partMap docBase t a ch = Keep a)
        /\ (anchor_hit partMap (or_empty (get_attr (js "href") a)) = None ->
            anchor_edit partMap t a ch = Keep a))
  /\ (forall doc path t a ch,
        place (no_script_hit partMap docBase) (Element t a ch) doc path ->
        refs_miss partMap docBase t a ch ->
        place (no_script_hit partMap docBase)
          (Element t a (attribute_loops partMap docBase ch))
          (attribute_loops partMap docBase doc) path)
  /\ (forall depth doc out t a ch,
        rewriteDom depth doc docBase partMap = Some out ->
        inside holds_elements (Element t a ch) doc ->
        refs_miss partMap docBase t a ch ->
        is_tag t (js "base") && has_attr (js "href") a = false ->
        is_tag t (js "style") = false ->
        placeholder_stylesheet t a = false ->
        is_hint_link t a = false ->
        (exists ch',
           inside holds_elements
             (Element t (restyled partMap docBase a) ch') out)
        /\ forall name, name <> js "style" ->
             get_attr name (restyled partMap docBase a) = get_attr name a).
Proof.
  assert (forall ast,
            (forall v, Url v ∈ ast ->
               css_url_hit partMap docBase (strip_quotes v) = None) ->
            map (rewrite_css_node partMap docBase) ast = ast) as Hast.
  { intros ast Hmiss. induction ast as [|n ast IH]; [done|]. simpl.
    rewrite rewrite_css_node_miss, IH; [done | |].
    - intros v Hv. apply Hmiss. by right.
    - intros v ->. apply Hmiss. left. }
  split; [exact Hast|].
  split; [|split; [|split; [|split; [|split; [|split; [|split]]]]]].
  - intros css Hcss Hmiss. unfold inlineCssUrlsWithMap.
    rewrite Hcss. simpl. by rewrite Hast.
  - intros doc Hdoc. unfold attribute_loops.
    rewrite (walk_all_keep (img_edit partMap docBase)),
      (walk_all_keep (script_edit partMap docBase)),
      (walk_all_keep (icon_edit partMap docBase)),
      (walk_all_keep (anchor_edit partMap)); [done | | | |];
      eapply Forall_impl; try exact Hdoc; intros n;
      apply every_element_impl; intros t a ch (Hs & Hh & Ha).
    + by apply anchor_edit_miss.
    + by apply icon_edit_miss.
    + by apply script_edit_miss.
    + by apply img_edit_miss.
  - intros depth t a ch href0 href Hmiss. unfold stylesheet_edit.
    fold href0. fold href. rewrite Hmiss.
    destruct (is_tag t (js "link") && rel_is a (js "stylesheet")
              && has_attr (js "href") a); [|done].
    simpl. by destruct (startsWith_ci href (js "cid!")).
  - by intros t a ch H; simpl; unfold hint_edit; rewrite H.
  - intros css i v Hcss Hi Hmiss. unfold inlineCssUrlsWithMap.
    rewrite Hcss. split; [done|].
    rewrite list_lookup_fmap, Hi. cbn [fmap option_fmap option_map].
    f_equal. apply rewrite_css_node_miss. by intros v' [= <-].
  - intros t a ch. split; [|split].
    + intros H. split; [by apply img_edit_miss|by apply script_edit_miss].
    + by apply icon_edit_miss.
    + by apply anchor_edit_miss.
  - intros doc path t a ch. apply attribute_loops_place.
  - intros depth doc out t a ch Hrun Hin Hmiss Hb Hst Hph Hhint.
    split; [by apply (rewriteDom_inside depth doc out t a ch)|].
    intros name. apply get_attr_restyled.
Qed.

End Misses.

(** An image that misses beside an image that hits, both in a block. *)
Lemma misses_are_left_alone_witness :
  two_images !! 0%nat
    = Some (Element (js "div") [] [img_with (js "a.png"); img_with (js "zzz.png")])
  /\ forall P : Platform,
       refs_miss (buildPartMap [pic_a] None) None (js "img")
         [(js "src", js "zzz.png")] []
       /\ attribute_loops (buildPartMap [pic_a] None) None two_images
          = [Element (js "div") []
               [img_with (js "data:image/png;base64,QQ==");
                img_with (js "zzz.png")]]
       /\ place (no_script_hit (buildPartMap [pic_a] None) None)
            (img_with (js "zzz.png"))
            (attribute_loops (buildPartMap [pic_a] None) None two_images)
            [0%nat; 1%nat]
       /\ forall depth,
            rewriteDom depth two_images None (buildPartMap [pic_a] None)
              = Some [Element (js "div") []
                        [img_with (js "data:image/png;base64,QQ==");
                         img_with (js "zzz.png")]]
            /\ exists ch',
                 inside holds_elements
                   (Element (js "img") [(js "src", js "zzz.png")] ch')
                   [Element (js "div") []
                      [img_with (js "data:image/png;base64,QQ==");
                       img_with (js "zzz.png")]].
Proof.
  split; [reflexivity|]. intros P.
  assert (refs_miss (buildPartMap [pic_a] None) None (js "img")
            [(js "src", js "zzz.png")] []) as Hmiss.
  { repeat split; vm_compute; reflexivity. }
  split; [exact Hmiss|]. split; [vm_compute; reflexivity|].
  destruct (misses_are_left_alone (buildPartMap [pic_a] None) None)
    as (_ & _ & _ & _ & _ & _ & _ & Hplace & Hdom).
  split.
  - apply (Hplace two_images [0%nat; 1%nat] (js "img")
             [(js "src", js "zzz.png")] []); [|exact Hmiss].
    apply (place_below _ _ _ 0%nat (js "div") []
             [img_with (js "a.png"); img_with (js "zzz.png")]).
    + reflexivity.
    + intros Ht. discriminate Ht.
    + apply place_here. reflexivity.
  - intros depth.
    assert (rewriteDom depth two_images None (buildPartMap [pic_a] None)
            = Some [Element (js "div") []
                      [img_with (js "data:image/png;base64,QQ==");
                       img_with (js "zzz.png")]]) as Hrun
      by (vm_compute; reflexivity).
    split; [exact Hrun|].
    destruct (Hdom depth two_images _ (js "img") [(js "src", js "zzz.png")] []
                Hrun) as [[ch' Hi] _];
      [|exact Hmiss|reflexivity|reflexivity|reflexivity|reflexivity|].
    + apply (inside_below _ _ _ (js "div") []
               [img_with (js "a.png"); img_with (js "zzz.png")]).
      * left.
      * repeat split; discriminate.
      * apply inside_here. right. left.
    + exists ch'. exact Hi.
Defined.

(** * The bare content id as a reference *)

Section TokenFacts.
Context {P : Platform}.

Lemma unweird_fixed (u : jsstr) :
  normalizeWeirdUrl u = u ->
  (if isWeird u then normalizeWeirdUrl u else u) = u.
Proof. intros H. by destruct (isWeird u). Qed.

Lemma resolveAgainst_None (href : jsstr) :
  normalizeWeirdUrl href = href -> resolveAgainst None href = href.
Proof.
  intros Hw. unfold resolveAgainst. rewrite Hw. by repeat case_match.
Qed.

Lemma or_else_same {A} (a : option A) : or_else a a = a.
Proof. by destruct a. Qed.

(** C10, as the code has it. The bare content id of a part is a key of the
    index, whatever else the container holds (for a part that the parser
    built, the key is the content id as it stands); the key leads to the
    first part that registered it, which is the part itself when no part
    before it has registered the same key. A reference that is just the
    token, a token that [normalizeWeirdUrl] leaves alone, is looked up first
    under the key that [resolveAgainst] and [normKey] make of the token and
    the base; only when the index holds nothing under that key do the
    lookups for links, images, scripts, icons and imports come to the token
    itself, and the lookup for the url nodes of a stylesheet to the token
    behind the cid scheme. Each of these lookups finds an entry. Without a
    base the first key is the token itself, and the reference leads to the
    first part that registered the token. *)
Theorem bare_content_id_is_key (before after : list Part) (p : Part)
  (docBase : option jsstr) (id : jsstr) (partMap : gmap jsstr Entry) :
  contentId p = Some id ->
  truthy (normKey id) = true ->
  partMap = buildPartMap (before ++ p :: after) docBase ->
  (partMap !! normKey id
     = entry_of <$> List.find (registers docBase (normKey id))
                      (before ++ p :: after)
   /\ is_Some (partMap !! normKey id)
   /\ ((forall q, q ∈ before -> registers docBase (normKey id) q = false) ->
       partMap !! normKey id = Some (entry_of p)))
  /\ (forall raw, parse_part raw = Some p -> normKey id = id)
  /\ (normalizeWeirdUrl (normKey id) = normKey id ->
      forall base,
        link_hit partMap base (normKey id)
          = or_else (partMap !! normKey (resolveAgainst base (normKey id)))
                    (partMap !! normKey id)
        /\ ref_hit partMap base (normKey id)
          = link_hit partMap base (normKey id)
        /\ css_url_hit partMap base (normKey id)
          = or_else (partMap !! normKey (resolveAgainst base (normKey id)))
                    (partMap !! (js "cid:" ++ normKey id))
        /\ (strip_quotes (normKey id) = normKey id ->
            import_hit partMap base (normKey id)
              = link_hit partMap base (normKey id))
        /\ is_Some (link_hit partMap base (normKey id))
        /\ is_Some (css_url_hit partMap base (normKey id)))
  /\ (normalizeWeirdUrl (normKey id) = normKey id ->
      link_hit partMap None (normKey id) = partMap !! normKey id
      /\ ref_hit partMap None (normKey id) = partMap !! normKey id).
Proof.
  intros Hid Hn ->.
  set (partMap := buildPartMap (before ++ p :: after) docBase).
  assert (forall raw, parse_part raw = Some p -> normKey id = id) as Hraw.
  { intros raw Hp. destruct (parse_part_normal raw p Hp) as [H _].
    by apply H. }
  assert (forall k, k ∈ cid_keys id -> is_Some (partMap !! k)) as Hkeys.
  { intros k Hk. unfold partMap.
    destruct (buildPartMap_first_wins_aux (before ++ p :: after) docBase k)
      as [-> _].
    apply fmap_is_Some. apply (find_is_Some _ _ p).
    - rewrite elem_of_app, elem_of_cons. tauto.
    - by apply (registers_cid_keys docBase p id). }
  assert (is_Some (partMap !! normKey id)) as Htok.
  { apply Hkeys. unfold cid_keys. rewrite !elem_of_cons. tauto. }
  assert (is_Some (partMap !! (js "cid:" ++ normKey id))) as Hcid.
  { apply Hkeys. unfold cid_keys. rewrite !elem_of_cons. tauto. }
  assert (forall base, normalizeWeirdUrl (normKey id) = normKey id ->
            link_hit partMap base (normKey id)
            = or_else (partMap !! normKey (resolveAgainst base (normKey id)))
                      (partMap !! normKey id)) as Hlink.
  { intros base Hw. unfold link_hit. rewrite (unweird_fixed _ Hw).
    by rewrite (or_else_is_Some_l (partMap !! normKey id)). }
  assert (forall base, normalizeWeirdUrl (normKey id) = normKey id ->
            is_Some (link_hit partMap base (normKey id))) as HlinkS.
  { intros base Hw. rewrite Hlink by done. apply or_else_is_Some. by right. }
  split; [split; [|split; [exact Htok|]]|split; [exact Hraw|split]].
  - unfold partMap.
    by destruct (buildPartMap_first_wins_aux (before ++ p :: after) docBase
                   (normKey id)) as [-> _].
  - intros Hfree. unfold partMap.
    destruct (buildPartMap_first_wins_aux (before ++ p :: after) docBase
                (normKey id)) as [-> _].
    rewrite (find_first _ before after p); [done|done|].
    apply (registers_cid_keys docBase p id); [done|done|].
    unfold cid_keys. rewrite !elem_of_cons. tauto.
  - intros Hw base. split; [by apply Hlink|]. split; [|split; [|split; [|split]]].
    + unfold ref_hit. by rewrite or_else_is_Some_l by (by apply HlinkS).
    + unfold css_url_hit. rewrite (unweird_fixed _ Hw).
      by rewrite (or_else_is_Some_l (partMap !! (js "cid:" ++ normKey id))).
    + intros Hq. rewrite Hlink by done. unfold import_hit. rewrite Hq, (unweird_fixed _ Hw).
      by rewrite (or_else_is_Some_l (partMap !! normKey id)).
    + by apply HlinkS.
    + unfold css_url_hit. rewrite (unweird_fixed _ Hw). apply or_else_is_Some. right.
      by rewrite (or_else_is_Some_l (partMap !! (js "cid:" ++ normKey id))).
  - intros Hw.
    assert (link_hit partMap None (normKey id) = partMap !! normKey id) as E.
    { rewrite Hlink by done.
      rewrite resolveAgainst_None, normKey_idempotent by done.
      apply or_else_same. }
    split; [exact E|]. rewrite <- E. unfold ref_hit.
    by rewrite or_else_is_Some_l by (by apply HlinkS).
Qed.

End TokenFacts.

(** C10 fails as stated. Of two parts with the same content id the bare token
    leads to the first, not to the second. Beside a document with a location,
    the token is resolved against that location first, and leads to the part
    stored there, not to the part with that content id. And a token that
    reads as a placeholder of the http scheme is rewritten before any lookup:
    the reference finds nothing, though the token is a key of the index. *)
Lemma bare_token_leads_elsewhere :
  (contentId gif_abc = Some (js "abc123")
   /\ contentId png_abc = Some (js "abc123")
   /\ contentId weird_id = Some (js "http!h"))
  /\ forall P : Platform,
       (buildPartMap [png_abc; gif_abc] None !! js "abc123"
          = Some (entry_of png_abc)
        /\ ref_hit (buildPartMap [png_abc; gif_abc] None) None (js "abc123")
          = Some (entry_of png_abc)
        /\ dataURI (entry_of png_abc) <> dataURI (entry_of gif_abc))
       /\ (url_resolve (js "abc123") doc_location
             = Some (js "https://example.com/abc123") ->
           ref_hit (buildPartMap [css_abs; png_abc] (Some doc_location))
             (Some doc_location) (js "abc123")
             = Some (entry_of css_abs)
           /\ dataURI (entry_of css_abs) <> dataURI (entry_of png_abc))
       /\ (buildPartMap [weird_id] None !! js "http!h"
             = Some (entry_of weird_id)
           /\ ref_hit (buildPartMap [weird_id] None) None (js "http!h") = None
           /\ css_url_hit (buildPartMap [weird_id] None) None (js "http!h")
              = None).
Proof.
  split; [repeat split; reflexivity|]. intros P. split; [|split].
  - split; [vm_compute; reflexivity|].
    split; [vm_compute; reflexivity | vm_compute; discriminate].
  - intros Hres. split; [|vm_compute; discriminate].
    assert (buildPartMap [css_abs; png_abc] (Some doc_location)
              !! js "https://example.com/abc123" = Some (entry_of css_abs)) as Hk.
    { destruct (buildPartMap_first_wins_aux [css_abs; png_abc]
                  (Some doc_location) (js "https://example.com/abc123"))
        as [-> _].
      assert (registers (Some doc_location) (js "https://example.com/abc123")
                css_abs = true) as Hr.
      { unfold registers. apply andb_true_iff. split; [reflexivity|].
        apply bool_decide_eq_true_2. unfold part_keys.
        apply elem_of_app. left. apply list_elem_of_singleton. reflexivity. }
      cbn [List.find]. by rewrite Hr. }
    unfold ref_hit, link_hit.
    change (isWeird (js "abc123")) with false. cbv iota.
    assert (resolveAgainst (Some doc_location) (js "abc123")
            = js "https://example.com/abc123") as ->.
    { unfold resolveAgainst.
      change (negb (truthy (js "abc123"))) with false.
      change (isWeird (js "abc123")) with false.
      change (truthy doc_location) with true.
      rewrite Hres. reflexivity. }
    change (normKey (js "https://example.com/abc123"))
      with (js "https://example.com/abc123").
    by rewrite Hk.
  - repeat split; vm_compute; reflexivity.
Qed.

Lemma bare_content_id_is_key_witness :
  strip_angles (js "<abc123>") = js "abc123"
  /\ forall P : Platform,
       exists p,
         parse_part cid_raw = Some p
         /\ contentId p = Some (js "abc123")
         /\ buildPartMap [css_main; p; gif_abc] None !! js "abc123"
            = Some (entry_of p)
         /\ ref_hit (buildPartMap [css_main; p; gif_abc] None) None
              (js "abc123") = Some (entry_of p).
Proof.
  split; [reflexivity|]. intros P.
  destruct (parse_part cid_raw) as [p|] eqn:Hp;
    [|vm_compute in Hp; discriminate].
  assert (contentId p = Some (js "abc123")) as Hid
    by (vm_compute in Hp; injection Hp as <-; reflexivity).
  exists p. split; [reflexivity|]. split; [exact Hid|].
  destruct (bare_content_id_is_key [css_main] [gif_abc] p None (js "abc123")
              (buildPartMap [css_main; p; gif_abc] None) Hid eq_refl eq_refl)
    as ((_ & _ & Hfirst) & _ & _ & Hnone).
  assert (buildPartMap [css_main; p; gif_abc] None !! js "abc123"
          = Some (entry_of p)) as Hk.
  { apply Hfirst. intros q Hq. apply list_elem_of_singleton in Hq. subst q.
    reflexivity. }
  split; [exact Hk|].
  destruct (Hnone eq_refl) as [_ Href].
  change (normKey (js "abc123")) with (js "abc123") in Href.
  by rewrite Href.
Defined.
